(** * quale-core: visual width and line breaking of terminal text

    A shallow embedding of [src/strings.ts] ([breakLine], [breakLines],
    [forceLineReturn], [endsWith], [stripAnsi], [stringWidth]), of the code
    point predicates of [src/codes] (the classifier file) and of the error
    helpers [getRawMessage] and [parseStack], with the properties of the
    specification stated and settled against them, and further properties
    of the code after those.

    JavaScript strings are sequences of UTF-16 code units; every operation
    the source uses ([length], [str[i]], [codePointAt], [substring]) counts
    in code units, so a string is a [list Z] of code units here. *)

From Stdlib Require Import String Ascii ZArith List Bool Lia.
Import ListNotations.

#[local] Open Scope Z_scope.

(** ** Strings as UTF-16 code units *)

Definition ustring : Type := list Z.

Definition ustring_eq_dec : forall a b : ustring, {a = b} + {a <> b} :=
  list_eq_dec Z.eq_dec.

(** The code units of an ASCII literal. *)
Definition utf16 (s : string) : ustring :=
  map (fun a => Z.of_nat (nat_of_ascii a)) (list_ascii_of_string s).

Definition ESC : Z := 0x1B.

(** [String.prototype.codePointAt]: the scalar value of a well-formed
    surrogate pair starting at [i], else the code unit at [i]; [None] is
    JavaScript's [undefined], for [i] out of range. *)
Definition isHighSurrogate (u : Z) : bool := (0xD800 <=? u) && (u <=? 0xDBFF).
Definition isLowSurrogate (u : Z) : bool := (0xDC00 <=? u) && (u <=? 0xDFFF).

Definition pairValue (hi lo : Z) : Z :=
  (hi - 0xD800) * 0x400 + (lo - 0xDC00) + 0x10000.

Definition codePointAt (s : ustring) (i : nat) : option Z :=
  match nth_error s i with
  | None => None
  | Some hi =>
      if isHighSurrogate hi then
        match nth_error s (S i) with
        | Some lo => if isLowSurrogate lo then Some (pairValue hi lo) else Some hi
        | None => Some hi
        end
      else Some hi
  end.

(** [str[i]] used as a string operand: the one-unit string at [i], and the
    text of [undefined] out of range (never reached by the callers below, a
    code point above 0xFFFF being read only from a whole pair). *)
Definition charAt (s : ustring) (i : nat) : ustring :=
  match nth_error s i with
  | Some u => [u]
  | None => utf16 "undefined"
  end.

(** [Array.prototype.lastIndexOf] on an array of strings, -1 when absent. *)
Fixpoint lastIndexOf_from (x : ustring) (l : list ustring) (i : Z) (found : Z)
  : Z :=
  match l with
  | [] => found
  | y :: l' =>
      lastIndexOf_from x l' (i + 1) (if ustring_eq_dec y x then i else found)
  end.

Definition lastIndexOf (l : list ustring) (x : ustring) : Z :=
  lastIndexOf_from x l 0 (-1).

(** ** JavaScript numbers, as far as [breakLine]'s guard reads them

    [maxWidth] is a [number]. The guard asks whether it is an integer and
    whether it is below 2; a finite value that is not an integer is kept
    by its floor, which decides every comparison with an integer. *)
Inductive number : Type :=
| NInt (z : Z)
| NFrac (floor : Z)
| NInfinity
| NNegInfinity
| NNaN.

Definition Number_isInteger (n : number) : bool :=
  match n with NInt _ => true | _ => false end.

(** [n < k] for an integer [k]; comparisons with NaN are false. *)
Definition number_ltZ (n : number) (k : Z) : bool :=
  match n with
  | NInt z => z <? k
  | NFrac f => f <? k
  | NInfinity => false
  | NNegInfinity => true
  | NNaN => false
  end.

Definition number_toZ (n : number) : Z :=
  match n with NInt z => z | NFrac f => f | _ => 0 end.

(** ** Code point predicates

    Each predicate of the source starts with [Number.isInteger(cp) &&]; the
    callers pass results of [codePointAt], which are integers, so the
    predicates are stated on [Z]. *)
Module Codes.

Definition isBreakingSpace (cp : Z) : bool :=
  (cp =? 0x20) || (cp =? 0x1680) || ((0x2000 <=? cp) && (cp <=? 0x200A))
  || (cp =? 0x205F) || (cp =? 0x3000).

Definition isCombining (cp : Z) : bool := (0x300 <=? cp) && (cp <=? 0x36F).

Definition isControl (cp : Z) : bool :=
  (cp <=? 0x1F) || ((0x7F <=? cp) && (cp <=? 0x9F)).

Definition isNonBreakingSpace (cp : Z) : bool := (cp =? 0xA0) || (cp =? 0x202F).

Definition isSpace (cp : Z) : bool := isNonBreakingSpace cp || isBreakingSpace cp.

Definition isSurrogate (cp : Z) : bool := 0xFFFF <? cp.

Definition isFullwidth (cp : Z) : bool :=
  (0x1100 <=? cp) &&
  ((cp <=? 0x115F) || (cp =? 0x2329) || (cp =? 0x232A)
   || ((0x2E80 <=? cp) && (cp <=? 0x3247) && negb (cp =? 0x303F))
   || ((0x3250 <=? cp) && (cp <=? 0x4DBF))
   || ((0x4E00 <=? cp) && (cp <=? 0xA4C6))
   || ((0xA960 <=? cp) && (cp <=? 0xA97C))
   || ((0xAC00 <=? cp) && (cp <=? 0xD7A3))
   || ((0xF900 <=? cp) && (cp <=? 0xFAFF))
   || ((0xFE10 <=? cp) && (cp <=? 0xFE19))
   || ((0xFE30 <=? cp) && (cp <=? 0xFE6B))
   || ((0xFF01 <=? cp) && (cp <=? 0xFF60))
   || ((0xFFE0 <=? cp) && (cp <=? 0xFFE6))
   || ((0x1B000 <=? cp) && (cp <=? 0x1B001))
   || ((0x1F200 <=? cp) && (cp <=? 0x1F251))
   || ((0x20000 <=? cp) && (cp <=? 0x3FFFD))).

Definition isBreakingDash (cp : Z) : bool :=
  (cp =? 0x2D) || (cp =? 0x58A) || (cp =? 0x5BE) || (cp =? 0x1400)
  || (cp =? 0x1806)
  || ((0x2010 <=? cp) && (cp <=? 0x30A0) &&
      ((cp =? 0x2010) || ((0x2012 <=? cp) && (cp <=? 0x2015))
       || (cp =? 0x2E17) || (cp =? 0x2E1A) || (cp =? 0x2E3A) || (cp =? 0x2E3B)
       || (cp =? 0x2E40) || (cp =? 0x301C) || (cp =? 0x3030) || (cp =? 0x30A0)))
  || ((0xFE31 <=? cp) && (cp <=? 0xFF0D) &&
      ((cp =? 0xFE31) || (cp =? 0xFE32) || (cp =? 0xFE58) || (cp =? 0xFE63)
       || (cp =? 0xFF0D)))
  || (cp =? 0x10EAD).

Definition isWordBreaking (cp : Z) : bool := isBreakingSpace cp || isBreakingDash cp.

End Codes.

(** ** The regular expressions of [./regexes.js]

    [strings.ts] imports its regular expressions from a module that is not
    part of the sources at hand. It uses them through four calls only, which
    are the four operations of this interface; the functions of
    [strings.ts] are embedded over an arbitrary implementation of it. *)
Class Regexes : Type := {
  (** [s.replace(regexes.lineBreak.global, '\n')] *)
  lineBreak_replace : ustring -> ustring;
  (** [s.match(regexes.ansi.consec)]: [None] for [null], else the index of
      the first match in [s] and the matched text. *)
  ansi_consec_match : ustring -> option (nat * ustring);
  (** [s.match(regexes.ansi.bgGlobal)]: [None] for [null], else all matches
      in order. *)
  ansi_bgGlobal_match : ustring -> option (list ustring);
  (** [s.replace(regexes.ansi.global, '')] *)
  ansi_global_strip : ustring -> ustring
}.

(** Modelled from the spec: a concrete reading of the regular expressions
    of the absent [regexes.js], from the escape grammar and the line-break
    normalisation the specification describes. It serves the concrete
    inputs of this development; the properties that hold for all inputs are
    proved for every implementation of [Regexes]. *)
Module SpecRegexes.

Definition isDigit (u : Z) : bool := (0x30 <=? u) && (u <=? 0x39).
Definition isParam (u : Z) : bool := isDigit u || (u =? 0x3B).
Definition isLetter (u : Z) : bool :=
  ((0x41 <=? u) && (u <=? 0x5A)) || ((0x61 <=? u) && (u <=? 0x7A)).

Fixpoint spanParams (s : ustring) : nat :=
  match s with
  | u :: s' => if isParam u then S (spanParams s') else O
  | [] => O
  end.

(** Modelled from the spec: the escape grammar of the absent
    [regexes.ansi] is "CSI-style [ESC [ ... letter]": ESC, an opening
    bracket, parameters made of digits and semicolons, and a final letter.
    The result is the length of the sequence at the head of [s]. *)
Definition matchCsi (s : ustring) : option nat :=
  match s with
  | e :: b :: s' =>
      if (e =? ESC) && (b =? 0x5B) then
        let n := spanParams s' in
        match nth_error s' n with
        | Some l => if isLetter l then Some (3 + n)%nat else None
        | None => None
        end
      else None
  | _ => None
  end.

Fixpoint spanOsc (s : ustring) : option nat :=
  match s with
  | [] => None
  | u :: s' =>
      if u =? 0x07 then Some 1%nat
      else if u =? ESC then None
      else option_map S (spanOsc s')
  end.

(** Modelled from the spec: the "compatible OSC forms" of the absent
    [regexes.ansi]: ESC, a closing bracket, text, and the terminator BEL. *)
Definition matchOsc (s : ustring) : option nat :=
  match s with
  | e :: b :: s' =>
      if (e =? ESC) && (b =? 0x5D)
      then option_map (fun n => (2 + n)%nat) (spanOsc s')
      else None
  | _ => None
  end.

Definition matchSeq (s : ustring) : option nat :=
  match matchCsi s with
  | Some n => Some n
  | None => matchOsc s
  end.

(** Length of the run of consecutive sequences at the head of [s]. *)
Fixpoint runLength (fuel : nat) (s : ustring) : nat :=
  match fuel with
  | O => O
  | S f =>
      match matchSeq s with
      | Some n => (n + runLength f (skipn n s))%nat
      | None => O
      end
  end.

(** Modelled from the spec: the absent [regexes.ansi.consec] finds "the
    next run of one or more consecutive escape sequences and returns the
    matched text and its start offset". *)
Fixpoint consecFrom (s : ustring) (i : nat) : option (nat * ustring) :=
  match s with
  | [] => None
  | _ :: s' =>
      match matchSeq s with
      | Some _ => Some (i, firstn (runLength (length s) s) s)
      | None => consecFrom s' (S i)
      end
  end.

Fixpoint stripFrom (fuel : nat) (s : ustring) : ustring :=
  match fuel with
  | O => s
  | S f =>
      match s with
      | [] => []
      | u :: s' =>
          match matchSeq s with
          | Some n => stripFrom f (skipn n s)
          | None => u :: stripFrom f s'
          end
      end
  end.

(** Modelled from the spec: replacing the absent [regexes.ansi.global] by
    the empty string is "a global removal pass" over the escape grammar:
    one scan from left to right that drops each sequence it meets. *)
Definition strip (s : ustring) : ustring := stripFrom (length s) s.

Definition startsWithSemicolon (s : ustring) : bool :=
  match s with
  | [] => true
  | u :: _ => u =? 0x3B
  end.

Definition isBgParams (p : ustring) : bool :=
  match p with
  | a :: d :: rest =>
      ((a =? 0x34) && isDigit d && startsWithSemicolon rest)
      || match rest with
         | e :: rest' =>
             (a =? 0x31) && (d =? 0x30) && (0x30 <=? e) && (e <=? 0x37)
             && startsWithSemicolon rest'
         | [] => false
         end
  | _ => false
  end.

(** Modelled from the spec: the sub-sequences the absent
    [regexes.ansi.bgGlobal] matches are the "background-color-setting
    tokens" and the reset [ESC[49m]: the CSI sequences ending in [m] whose
    first parameter is 40..49 or 100..107. *)
Definition matchBg (s : ustring) : option nat :=
  match matchCsi s with
  | Some n =>
      if (nth (n - 1) s 0 =? 0x6D) && isBgParams (firstn (n - 3) (skipn 2 s))
      then Some n else None
  | None => None
  end.

Fixpoint bgFrom (fuel : nat) (s : ustring) : list ustring :=
  match fuel with
  | O => []
  | S f =>
      match s with
      | [] => []
      | _ :: s' =>
          match matchBg s with
          | Some n => firstn n s :: bgFrom f (skipn n s)
          | None => bgFrom f s'
          end
      end
  end.

Definition bgAll (s : ustring) : option (list ustring) :=
  match bgFrom (length s) s with
  | [] => None
  | l => Some l
  end.

(** Modelled from the spec: the absent [regexes.lineBreak.global] matches
    "CRLF and other line-terminator variants", each replaced by one line
    feed: CR LF, CR, LF, U+2028 and U+2029. *)
Fixpoint normalizeBreaks (s : ustring) : ustring :=
  match s with
  | [] => []
  | u :: s' =>
      if u =? 0x0D then
        match s' with
        | v :: s'' =>
            if v =? 0x0A then 0x0A :: normalizeBreaks s''
            else 0x0A :: normalizeBreaks s'
        | [] => [0x0A]
        end
      else if (u =? 0x2028) || (u =? 0x2029) then 0x0A :: normalizeBreaks s'
      else u :: normalizeBreaks s'
  end.

Definition regexes : Regexes := {|
  lineBreak_replace := normalizeBreaks;
  ansi_consec_match := fun s => consecFrom s O;
  ansi_bgGlobal_match := bgAll;
  ansi_global_strip := strip
|}.

End SpecRegexes.

(** ** [src/strings.ts] *)

Definition BG_CLOSE : ustring := ESC :: utf16 "[49m".

(** The options object of [breakLine]; a key that is absent is [None]. *)
Module Opts.
Record t : Type := mk { tolerance : option Z; trimBreak : option bool }.
End Opts.

(** [const {tolerance = 0, trimBreak = false} = opts || {}] *)
Definition toleranceOf (opts : option Opts.t) : Z :=
  match opts with
  | Some o => match Opts.tolerance o with Some t => t | None => 0 end
  | None => 0
  end.

Definition trimBreakOf (opts : option Opts.t) : bool :=
  match opts with
  | Some o => match Opts.trimBreak o with Some b => b | None => false end
  | None => false
  end.

(** The values [stringWidth] tells apart with [typeof]. *)
Inductive jsval : Type :=
| JUndefined
| JNull
| JBoolean (b : bool)
| JNumber (n : number)
| JString (s : ustring).

(** The state of [breakLine]'s closures and loop: the variables [lines],
    [bgUnclosed], [line], [lineWidth] and [index] of the source, and
    [ansiFound] for the pair of [ansiIndex] and the text of [ansiMatch],
    which are null together. [widths] is a ghost component that no branch
    reads: the value of [lineWidth] at the moment each line was pushed. *)
Record state : Type := mkState {
  lines : list ustring;
  widths : list Z;
  bgUnclosed : list ustring;
  line : ustring;
  lineWidth : Z;
  index : nat;
  ansiFound : option (nat * ustring)
}.

(** What the body of the [for] loop does next: go on ([Next], to the code
    that follows, or to the next iteration) or leave the loop ([Break]). *)
Inductive flow : Type :=
| Next (st : state)
| Break (st : state).

Section Strings.

Context {R : Regexes}.

Definition stripAnsi (str : ustring) : ustring := ansi_global_strip str.

(** The [for] loop of [stringWidth]. [None] means the fuel ran out before
    the loop condition failed. *)
Fixpoint widthLoop (fuel : nat) (str : ustring) (index : nat) (width : Z)
  : option Z :=
  if (index <? length str)%nat then
    match fuel with
    | O => None
    | S fuel' =>
        match codePointAt str index with
        | None => widthLoop fuel' str (S index) width
        | Some codePoint =>
            if Codes.isControl codePoint then
              widthLoop fuel' str (S index) width
            else if Codes.isCombining codePoint then
              widthLoop fuel' str (S index) width
            else
              let '(index, width) :=
                if Codes.isSurrogate codePoint
                then (S index, width + 1) else (index, width) in
              widthLoop fuel' str (S index)
                (width + (if Codes.isFullwidth codePoint then 2 else 1))
        end
    end
  else Some width.

Definition stringWidth (v : jsval) : Z :=
  match v with
  | JString str =>
      if (length str =? 0)%nat then 0
      else
        let str := stripAnsi str in
        if (length str =? 0)%nat then 0
        else
          match widthLoop (length str) str 0 0 with
          | Some width => width
          | None => 0
          end
  | _ => 0
  end.

Section Loop.

(** [str] after normalisation, [maxWidth] once the guard has let it
    through, and the two options with their defaults filled in. *)
Variables (str : ustring) (maxWidth tolerance : Z) (trimBreak : bool).

Definition push (st : state) : state :=
  {| lines := lines st ++
              [line st ++ match bgUnclosed st with [] => [] | _ => BG_CLOSE end];
     widths := widths st ++ [lineWidth st];
     bgUnclosed := bgUnclosed st;
     line := concat (bgUnclosed st);
     lineWidth := 0;
     index := index st;
     ansiFound := ansiFound st |}.

Definition searchAnsi (st : state) : state :=
  {| lines := lines st;
     widths := widths st;
     bgUnclosed := bgUnclosed st;
     line := line st;
     lineWidth := lineWidth st;
     index := index st;
     ansiFound :=
       match ansi_consec_match (skipn (index st) str) with
       | Some (i, ansi) => Some ((i + index st)%nat, ansi)
       | None => None
       end |}.

(** Lines 86 to 99: the background sequences of a matched run, and what
    they do to the list of unclosed ones. *)
Definition trackBackground (ansi : ustring) (bg : list ustring) : list ustring :=
  match ansi_bgGlobal_match ansi with
  | None => bg
  | Some bgs =>
      let i := lastIndexOf bgs BG_CLOSE + 1 in
      if i =? Z.of_nat (length bgs) then []
      else bg ++ skipn (Z.to_nat i) bgs
  end.

(** Lines 78 to 107: the branch taken when the index is at a matched run. *)
Definition scanAnsi (st : state) : flow :=
  match ansiFound st with
  | Some (ansiIndex, ansi) =>
      if (ansiIndex =? index st)%nat then
        let index' := (index st + length ansi)%nat in
        let bg := trackBackground ansi (bgUnclosed st) in
        if (index' =? length str)%nat then
          Break {| lines := lines st; widths := widths st;
                   bgUnclosed := [];
                   line := line st ++ ansi; lineWidth := lineWidth st;
                   index := index'; ansiFound := ansiFound st |}
        else
          Next (searchAnsi
                  {| lines := lines st; widths := widths st;
                     bgUnclosed := bg;
                     line := line st ++ ansi; lineWidth := lineWidth st;
                     index := index'; ansiFound := ansiFound st |})
      else Next st
  | None => Next st
  end.

(** Lines 123 to 140: the segment, its width, and the index after it. *)
Definition buildSegment (index : nat) (code : Z) : ustring * Z * nat :=
  let segment := charAt str index in
  if Codes.isSurrogate code then
    (segment ++ charAt str (S index), 2, S index)
  else if Codes.isCombining code || Codes.isControl code then
    (segment, 0, index)
  else if Codes.isFullwidth code then
    (segment, 2, index)
  else
    (segment, 1, index).

(** Lines 142 to 152: whether to break before the segment. *)
Definition breakBefore (st : state) (code : Z) (segment : ustring)
    (segmentWidth : Z) : state * ustring * Z :=
  let thisWidth := lineWidth st + segmentWidth in
  if thisWidth >? maxWidth then
    let isBreakSpace := Codes.isBreakingSpace code in
    let '(segment, segmentWidth) :=
      if trimBreak && isBreakSpace then ([], 0) else (segment, segmentWidth) in
    let st :=
      if isBreakSpace || (thisWidth >? maxWidth + tolerance)
      then push st else st in
    (st, segment, segmentWidth)
  else (st, segment, segmentWidth).

(** Lines 154 and 155. *)
Definition appendSegment (st : state) (segment : ustring) (segmentWidth : Z)
  : state :=
  {| lines := lines st; widths := widths st; bgUnclosed := bgUnclosed st;
     line := line st ++ segment;
     lineWidth := lineWidth st + segmentWidth;
     index := index st; ansiFound := ansiFound st |}.

(** Lines 156 to 161: the break after a dash. *)
Definition dashBreak (st : state) (code : Z) : state :=
  if (lineWidth st >=? maxWidth) && (index st <? length str - 1)%nat then
    if Codes.isBreakingDash code then push st else st
  else st.

Definition setIndex (i : nat) (st : state) : state :=
  {| lines := lines st; widths := widths st; bgUnclosed := bgUnclosed st;
     line := line st; lineWidth := lineWidth st;
     index := i; ansiFound := ansiFound st |}.

(** The increment [++index] of the [for] statement. *)
Definition advance (st : state) : state := setIndex (S (index st)) st.

(** Lines 108 to 161: the body from the read of the code point on. *)
Definition scanChar (st : state) : state :=
  match codePointAt str (index st) with
  | None => st
  | Some code =>
      if code =? 0x0A then push st
      else
        let '(segment, segmentWidth, index') := buildSegment (index st) code in
        let '(st, segment, segmentWidth) :=
          breakBefore (setIndex index' st) code segment segmentWidth in
        dashBreak (appendSegment st segment segmentWidth) code
  end.

(** One iteration of the [for] loop, increment included. *)
Definition iter (st : state) : flow :=
  match scanAnsi st with
  | Break st' => Break st'
  | Next st' => Next (advance (scanChar st'))
  end.

(** The [for] loop. [None] means the fuel ran out before the loop ended. *)
Fixpoint loop (fuel : nat) (st : state) : option state :=
  if (index st <? length str)%nat then
    match fuel with
    | O => None
    | S fuel' =>
        match iter st with
        | Break st' => Some st'
        | Next st' => loop fuel' st'
        end
    end
  else Some st.

Definition initial : state :=
  searchAnsi {| lines := []; widths := []; bgUnclosed := []; line := [];
                lineWidth := 0; index := O; ansiFound := None |}.

(** The loop and the last [push]. *)
Definition run : option state := option_map push (loop (length str) initial).

End Loop.

Definition breakLine (str : ustring) (maxWidth : number) (opts : option Opts.t)
  : list ustring :=
  if (length str =? 0)%nat || negb (Number_isInteger maxWidth)
     || number_ltZ maxWidth 2
  then [str]
  else
    let tolerance := toleranceOf opts in
    let trimBreak := trimBreakOf opts in
    let str := lineBreak_replace str in
    match run str (number_toZ maxWidth) tolerance trimBreak with
    | Some st => lines st
    | None => []
    end.

Definition breakLines (lines : list ustring) (width : number) : list ustring :=
  concat (map (fun line => breakLine line width None) lines).

End Strings.

(** ** More of JavaScript's strings *)

(** [String.prototype.split] at the elements [sep] holds for: the pieces
    between separators; the empty text gives one empty piece. *)
Fixpoint splitOn {A : Type} (sep : A -> bool) (l : list A) : list (list A) :=
  match l with
  | [] => [[]]
  | u :: l' =>
      if sep u then [] :: splitOn sep l'
      else
        match splitOn sep l' with
        | p :: ps => (u :: p) :: ps
        | [] => [[u]]
        end
  end.

(** [str.split('\n')] *)
Definition splitLF (s : ustring) : list ustring :=
  splitOn (fun u => u =? 0x0A) s.

(** [Array.prototype.join('\n')] on an array of strings. *)
Fixpoint joinLF (ls : list ustring) : ustring :=
  match ls with
  | [] => []
  | l :: ls' =>
      match ls' with
      | [] => l
      | _ :: _ => l ++ 0x0A :: joinLF ls'
      end
  end.

(** Whether [s] starts with [p]. *)
Fixpoint startsWith (p s : ustring) : bool :=
  match p, s with
  | [], _ => true
  | a :: p', b :: s' => (a =? b) && startsWith p' s'
  | _ :: _, [] => false
  end.

(** [String.prototype.indexOf]: the first index at which [srch] occurs,
    -1 when it does not; [i] is the index of the head of [s]. *)
Fixpoint String_indexOf_from (srch s : ustring) (i : Z) : Z :=
  if startsWith srch s then i
  else
    match s with
    | [] => -1
    | _ :: s' => String_indexOf_from srch s' (i + 1)
    end.

Definition String_indexOf (s srch : ustring) : Z := String_indexOf_from srch s 0.

(** [String.prototype.lastIndexOf]: the last index at which [srch]
    occurs (the length, for the empty string), -1 when it does not. *)
Fixpoint String_lastIndexOf_from (srch s : ustring) (i : Z) : Z :=
  match s with
  | [] => if startsWith srch [] then i else -1
  | _ :: s' =>
      let later := String_lastIndexOf_from srch s' (i + 1) in
      if 0 <=? later then later
      else if startsWith srch s then i else -1
  end.

Definition String_lastIndexOf (s srch : ustring) : Z :=
  String_lastIndexOf_from srch s 0.

(** [String.prototype.slice(start, end)]: a negative index counts from the
    end, and both are clamped to the string; [None] is an omitted [end]. *)
Definition sliceIndex (len k : Z) : Z :=
  if k <? 0 then Z.max (len + k) 0 else Z.min k len.

Definition String_slice (s : ustring) (start : Z) (stop : option Z) : ustring :=
  let len := Z.of_nat (length s) in
  let from := sliceIndex len start in
  let to := match stop with Some e => sliceIndex len e | None => len end in
  firstn (Z.to_nat (to - from)) (skipn (Z.to_nat from) s).

(** ** More of [src/strings.ts] *)

(** [breakLines(content.split('\n'), width).flat().join('\n')]; the
    [flat()] of an array of strings is that array. *)
Definition forceLineReturn {R : Regexes} (content : ustring) (width : number)
  : ustring :=
  joinLF (breakLines (splitLF content) width).

(** [str.length - str.lastIndexOf(srch) === srch.length] *)
Definition endsWith (str srch : ustring) : bool :=
  Z.of_nat (length str) - String_lastIndexOf str srch =? Z.of_nat (length srch).

(** ** The error helpers ([getRawMessage], [parseStack]) *)

(** The error object as the two functions read it: [inspect] holds what
    [err.inspect()] returns when [err.inspect] is a function; [message] is
    [err.message] (its [toString()], a string being its own); [stack] is
    [err.stack]. [None] is an absent property. *)
Module Err.
Record t : Type := mk {
  inspect : option ustring;
  message : option ustring;
  stack : option ustring
}.
End Err.

(** The object [parseStack] returns. *)
Module Parsed.
Record t : Type := mk {
  stack : ustring;
  message : ustring;
  rawMessage : ustring
}.
End Parsed.

Definition getRawMessage (err : Err.t) : ustring :=
  match Err.inspect err with
  | Some shown => shown
  | None =>
      match Err.message err with
      | Some ((_ :: _) as m) => m
      | _ => []
      end
  end.

Definition parseStack (err : Err.t) : Parsed.t :=
  let rawMessage := getRawMessage err in
  let message : ustring := [] in
  let stack :=
    match Err.stack err with
    | Some ((_ :: _) as s) => s
    | _ => rawMessage
    end in
  match rawMessage with
  | _ :: _ =>
      let rawStart := String_indexOf stack rawMessage in
      if rawStart >? -1 then
        let rawEnd := rawStart + Z.of_nat (length rawMessage) in
        Parsed.mk (String_slice stack (rawEnd + 1) None)
          (message ++ String_slice stack 0 (Some rawEnd)) rawMessage
      else Parsed.mk stack message rawMessage
  | [] => Parsed.mk stack message rawMessage
  end.

(** * Vocabulary of the properties

    Concrete texts, the invariants of the loop, a reading of the loop on
    the tokens of the text for runs without escape sequences, and a reading
    on items, escape runs and tokens, for every run. None of it is used by
    the functions above. *)

(** ** Concrete texts and options *)

Definition bg41 : ustring := ESC :: utf16 "[41m".
Definition bg42 : ustring := ESC :: utf16 "[42m".

Definition defaultOpts : option Opts.t := None.
Definition trimOpts : option Opts.t := Some (Opts.mk None (Some true)).
Definition toleranceOpts (t : Z) : option Opts.t := Some (Opts.mk (Some t) None).

(** The state the loop starts from when the first search finds nothing. *)
Definition plainInitial : state :=
  {| lines := []; widths := []; bgUnclosed := []; line := [];
     lineWidth := 0; index := O; ansiFound := None |}.

(** ** Invariants of the loop *)

(** The bound of C10 on a width. *)
Definition within (maxWidth tolerance : Z) (w : Z) : Prop :=
  0 <= w <= maxWidth + tolerance.

(** [widths] records [lineWidth] at each [push]: the invariant says that
    the running width and every recorded one are within the bound, and that
    there is one recorded width per pushed line. *)
Definition WidthInv (maxWidth tolerance : Z) (st : state) : Prop :=
  within maxWidth tolerance (lineWidth st)
  /\ Forall (within maxWidth tolerance) (widths st)
  /\ length (widths st) = length (lines st).

(** The states of a run in which no escape run was found: nothing is
    pending and no background is open. *)
Definition PlainSt (st : state) : Prop :=
  ansiFound st = None /\ bgUnclosed st = [].

(** ** The loop on tokens *)

(** The loop reads text segment by segment. A token is one such reading:
    the code point [codePointAt] returns and the segment [buildSegment]
    makes of it; [tokens] reads the text that remains. *)
Definition token : Type := (Z * ustring)%type.

Fixpoint tokens (s : ustring) : list token :=
  match s with
  | [] => []
  | u :: s1 =>
      if isHighSurrogate u then
        match s1 with
        | lo :: s2 =>
            if isLowSurrogate lo then (pairValue u lo, [u; lo]) :: tokens s2
            else (u, [u]) :: tokens s1
        | [] => [(u, [u])]
        end
      else (u, [u]) :: tokens s1
  end.

(** The text a list of tokens spells. *)
Definition cat (T : list token) : ustring := concat (map snd T).

(** How the first token of a text is read. *)
Inductive head_token : ustring -> token -> ustring -> Prop :=
| head_pair (hi lo : Z) (s : ustring) :
    isHighSurrogate hi = true -> isLowSurrogate lo = true ->
    head_token (hi :: lo :: s) (pairValue hi lo, [hi; lo]) s
| head_unit (u : Z) (s : ustring) :
    isHighSurrogate u = false ->
    head_token (u :: s) (u, [u]) s
| head_lone_last (u : Z) :
    isHighSurrogate u = true ->
    head_token [u] (u, [u]) []
| head_lone (u v : Z) (s : ustring) :
    isHighSurrogate u = true -> isLowSurrogate v = false ->
    head_token (u :: v :: s) (u, [u]) (v :: s).

(** The width [buildSegment] gives to a code point. *)
Definition segmentWidth (code : Z) : Z :=
  if Codes.isSurrogate code then 2
  else if Codes.isCombining code || Codes.isControl code then 0
  else if Codes.isFullwidth code then 2
  else 1.

(** Whether text follows: [index < str.length - 1] at the last unit of a
    segment. *)
Definition more_after (rest : list token) : bool :=
  match rest with [] => false | _ => true end.

(** A JavaScript string: every code unit is at most 0xFFFF. *)
Definition units16 (s : ustring) : Prop :=
  Forall (fun u => Codes.isSurrogate u = false) s.

(** ** Widths of code points *)

(** What one iteration of the loop of [stringWidth] (lines 263 to 282) adds
    to the width for the code point it reads. *)
Definition contribution (cp : Z) : Z :=
  if Codes.isControl cp then 0
  else if Codes.isCombining cp then 0
  else (if Codes.isSurrogate cp then 1 else 0)
       + (if Codes.isFullwidth cp then 2 else 1).

(** The width of a text as [stringWidth] counts it, token by token. *)
Definition tokensWidth (T : list token) : Z :=
  fold_right (fun t acc => contribution (fst t) + acc) 0 T.

(** The width of a text as [breakLine] counts it, token by token. *)
Definition segSum (T : list token) : Z :=
  fold_right (fun t acc => segmentWidth (fst t) + acc) 0 T.

Definition textWidth (s : ustring) : Z := segSum (tokens s).

(** Whether putting [b] after [a] makes a surrogate pair of the last unit
    of [a] and the first of [b]. *)
Definition joinsPair (a b : ustring) : bool :=
  match b with
  | lo :: _ =>
      isLowSurrogate lo
      && match a with [] => false | _ :: _ => isHighSurrogate (last a 0) end
  | [] => false
  end.

(** ** The loop on tokens, for every tolerance and trim option

    A second reading of the loop of [breakLine] for runs in which no escape
    run is found: [wrapStep] is what one iteration does to the pushed
    lines, their recorded widths, the line buffer and its width. *)

Record wrapped : Type := mkWrapped {
  flushed : list ustring;
  flushedWidths : list Z;
  buffer : ustring;
  used : Z
}.

Definition wrapOf (st : state) : wrapped :=
  mkWrapped (lines st) (widths st) (line st) (lineWidth st).

Definition wrapStart : wrapped := mkWrapped [] [] [] 0.

Definition wpush (v : wrapped) : wrapped :=
  mkWrapped (flushed v ++ [buffer v]) (flushedWidths v ++ [used v]) [] 0.

Definition wappend (v : wrapped) (seg : ustring) (sw : Z) : wrapped :=
  mkWrapped (flushed v) (flushedWidths v) (buffer v ++ seg) (used v + sw).

Definition wdash (w : Z) (more : bool) (t : token) (v : wrapped) : wrapped :=
  if (used v >=? w) && more && Codes.isBreakingDash (fst t) then wpush v else v.

Definition wrapStep (w tol : Z) (trim more : bool) (t : token) (v : wrapped)
  : wrapped :=
  if fst t =? 0x0A then wpush v
  else
    let sw := segmentWidth (fst t) in
    if used v + sw >? w then
      let sp := Codes.isBreakingSpace (fst t) in
      let v1 := if sp || (used v + sw >? w + tol) then wpush v else v in
      wdash w more t
        (if trim && sp then wappend v1 [] 0 else wappend v1 (snd t) sw)
    else wdash w more t (wappend v (snd t) sw).

Fixpoint wrapRun (w tol : Z) (trim : bool) (toks : list token) (v : wrapped)
  : wrapped :=
  match toks with
  | [] => wpush v
  | t :: rest =>
      wrapRun w tol trim rest (wrapStep w tol trim (more_after rest) t v)
  end.

(** The text pushed or buffered so far. *)
Definition content (v : wrapped) : ustring := concat (flushed v) ++ buffer v.

(** A text without its line feeds. *)
Definition removeLF (s : ustring) : ustring :=
  filter (fun u => negb (u =? 0x0A)) s.

(** The tokens other than line feeds. *)
Definition kept (toks : list token) : list token :=
  filter (fun t => negb (fst t =? 0x0A)) toks.

(** A pushed line and its recorded width: the line spells a block of the
    tokens [all] of the text, free of line feeds, and the width is the sum
    of the widths of their segments. *)
Definition LineOK (all : list token) (l : ustring) (k : Z) : Prop :=
  exists A T B,
    all = A ++ T ++ B /\ l = cat T /\ k = segSum T
    /\ Forall (fun t => (fst t =? 0x0A) = false) T.

(** The invariant of the run on tokens: the buffer spells the block [T]
    read since the last push, [toks] is what remains to read. *)
Definition WrapInv (all toks : list token) (v : wrapped) : Prop :=
  exists A T,
    all = A ++ T ++ toks /\ buffer v = cat T /\ used v = segSum T
    /\ Forall (fun t => (fst t =? 0x0A) = false) T
    /\ Forall2 (LineOK all) (flushed v) (flushedWidths v).

(** The running width stays below [w] all along the tokens: nothing
    overflows and no dash is met with the line full. *)
Fixpoint roomy (w : Z) (toks : list token) (k : Z) : Prop :=
  match toks with
  | [] => True
  | t :: rest =>
      if fst t =? 0x0A then roomy w rest 0
      else k + segmentWidth (fst t) < w
           /\ roomy w rest (k + segmentWidth (fst t))
  end.

(** The pieces between line feeds, on tokens, the first one after [b]. *)
Fixpoint piecesFrom (b : ustring) (toks : list token) : list ustring :=
  match toks with
  | [] => [b]
  | t :: rest =>
      if fst t =? 0x0A then b :: piecesFrom [] rest
      else piecesFrom (b ++ snd t) rest
  end.

(** The tokens of a text, line by line. *)
Definition tokenLines (toks : list token) : list (list token) :=
  @splitOn token (fun t => fst t =? 0x0A) toks.

(** No token of the text is a fullwidth code point above 0xFFFF, the one
    case in which [stringWidth] and [breakLine] count differently. *)
Definition noWideAstral (s : ustring) : Prop :=
  Forall (fun t => Codes.isSurrogate (fst t) && Codes.isFullwidth (fst t) = false)
    (tokens s).

(** A line that needs no normalising and holds no escape run. *)
Definition plainLine {R : Regexes} (l : ustring) : Prop :=
  lineBreak_replace l = l /\ ansi_consec_match l = None.

(** ** Occurrences of a string in a string *)

(** [srch] occurs in [s] after the prefix [pre]. *)
Definition occursAt (srch s pre : ustring) : Prop :=
  exists rest, s = pre ++ srch ++ rest.

(** [err.stack || rawMessage], the text [parseStack] searches. *)
Definition effectiveStack (err : Err.t) : ustring :=
  match Err.stack err with
  | Some ((_ :: _) as s) => s
  | _ => getRawMessage err
  end.

(** A text without its breaking spaces and line feeds. *)
Definition unspaced (s : ustring) : ustring :=
  filter (fun u => negb ((u =? 0x0A) || Codes.isBreakingSpace u)) s.

(** A token read as a line feed or a breaking space holds nothing else. *)
Definition spaceToken (t : token) : Prop :=
  (fst t =? 0x0A) || Codes.isBreakingSpace (fst t) = true ->
  unspaced (snd t) = [].

(** ** Tactics *)

(** Boolean tests of the code point predicates as propositions. *)
Ltac bool_to_prop :=
  repeat (progress rewrite ?andb_true_iff, ?orb_true_iff, ?andb_false_iff,
            ?orb_false_iff, ?negb_true_iff, ?negb_false_iff, ?Z.leb_le,
            ?Z.leb_gt, ?Z.ltb_lt, ?Z.ltb_ge, ?Z.eqb_eq, ?Z.eqb_neq in *).


(** ** The loop on items: escape runs and tokens

    A third reading of the loop of [breakLine], for every text and every
    implementation of the regular expressions. [scan] follows the control
    of the loop only (the index and the pending match) and lists what each
    iteration reads: the escape run matched at the index, if any, and the
    token after it. [deskRun] is what the iterations do with these items
    to the lines, kept here with their structure, as [row]s. *)

Inductive item : Type :=
| Esc (ansi : ustring)
| Chr (t : token).

Definition itemText (it : item) : ustring :=
  match it with
  | Esc ansi => ansi
  | Chr t => snd t
  end.

Definition itemsText (its : list item) : ustring := concat (map itemText its).

(** The width the loop gives to an item: that of its segment for a token,
    none for an escape run. *)
Definition itemWidth (it : item) : Z :=
  match it with
  | Esc _ => 0
  | Chr t => segmentWidth (fst t)
  end.

Definition bodyWidth (its : list item) : Z :=
  fold_right (fun it acc => itemWidth it + acc) 0 its.

Definition isEsc (it : item) : bool :=
  match it with Esc _ => true | Chr _ => false end.

Definition isLineFeed (it : item) : bool :=
  match it with Esc _ => false | Chr t => fst t =? 0x0A end.

Section Scan.

Context {R : Regexes}.
Variable str : ustring.

(** The match [searchAnsi] leaves pending when called at index [i]. *)
Definition searchFrom (i : nat) : option (nat * ustring) :=
  match ansi_consec_match (skipn i str) with
  | Some (a, ansi) => Some ((a + i)%nat, ansi)
  | None => None
  end.

(** The token the body of the loop reads at index [i], and the index of
    its last unit. *)
Definition readChr (i : nat) : option (token * nat) :=
  match codePointAt str i with
  | None => None
  | Some code =>
      let '(segment, _, i') := buildSegment str i code in
      Some ((code, segment), i')
  end.

Definition scanChars (next : nat -> option (nat * ustring) -> list item * bool)
    (i : nat) (found : option (nat * ustring)) : list item * bool :=
  match readChr i with
  | None => next (S i) found
  | Some (t, i') =>
      let '(its, broke) := next (S i') found in (Chr t :: its, broke)
  end.

(** The items the loop reads from index [i] on with the match [found]
    pending, and whether it leaves through the [break] of line 103. *)
Fixpoint scan (fuel : nat) (i : nat) (found : option (nat * ustring))
  : list item * bool :=
  match fuel with
  | O => ([], false)
  | S fuel' =>
      if (i <? length str)%nat then
        match found with
        | Some (a, ansi) =>
            if (a =? i)%nat then
              let i1 := (i + length ansi)%nat in
              if (i1 =? length str)%nat then ([Esc ansi], true)
              else
                let '(its, broke) := scanChars (scan fuel') i1 (searchFrom i1) in
                (Esc ansi :: its, broke)
            else scanChars (scan fuel') i found
        | None => scanChars (scan fuel') i found
        end
      else ([], false)
  end.

(** The items of the whole text. *)
Definition items : list item * bool := scan (length str) 0 (searchFrom 0).

End Scan.

(** A line of the result with its structure: the background sequences
    reopened at its start, the items appended to it, the width the loop
    counted for it, and whether [ESC[49m] was appended when it was
    pushed. *)
Record row : Type := mkRow {
  reopen : list ustring;
  body : list item;
  rowWidth : Z;
  shut : bool
}.

Definition rowText (r : row) : ustring :=
  concat (reopen r) ++ itemsText (body r)
  ++ (if shut r then BG_CLOSE else []).

(** The lines pushed, the unclosed background sequences, and the line being
    filled. *)
Record desk : Type := mkDesk {
  rows : list row;
  tracked : list ustring;
  cur : row
}.

Definition deskStart : desk := mkDesk [] [] (mkRow [] [] 0 false).

Definition anyOpen (bg : list ustring) : bool :=
  match bg with [] => false | _ :: _ => true end.

Definition dpush (d : desk) : desk :=
  mkDesk
    (rows d
     ++ [mkRow (reopen (cur d)) (body (cur d)) (rowWidth (cur d))
           (anyOpen (tracked d))])
    (tracked d)
    (mkRow (tracked d) [] 0 false).

Definition dappend (d : desk) (its : list item) (sw : Z) : desk :=
  mkDesk (rows d) (tracked d)
    (mkRow (reopen (cur d)) (body (cur d) ++ its) (rowWidth (cur d) + sw)
       false).

Definition ddash (w : Z) (more : bool) (t : token) (d : desk) : desk :=
  if (rowWidth (cur d) >=? w) && more && Codes.isBreakingDash (fst t)
  then dpush d else d.

(** What the body of the loop does with the token [t]; [more] tells
    whether text follows it. *)
Definition stepChr (w tol : Z) (trim more : bool) (t : token) (d : desk)
  : desk :=
  if fst t =? 0x0A then dpush d
  else
    let sw := segmentWidth (fst t) in
    if rowWidth (cur d) + sw >? w then
      let sp := Codes.isBreakingSpace (fst t) in
      let d1 := if sp || (rowWidth (cur d) + sw >? w + tol) then dpush d else d in
      ddash w more t
        (if trim && sp then dappend d1 [] 0 else dappend d1 [Chr t] sw)
    else ddash w more t (dappend d [Chr t] sw).

(** What the loop does with a matched run. *)
Definition stepEsc {R : Regexes} (ansi : ustring) (d : desk) : desk :=
  mkDesk (rows d) (trackBackground ansi (tracked d))
    (mkRow (reopen (cur d)) (body (cur d) ++ [Esc ansi]) (rowWidth (cur d))
       false).

Definition moreItems (rest : list item) : bool :=
  match rest with [] => false | _ :: _ => true end.

Fixpoint deskRun {R : Regexes} (w tol : Z) (trim : bool) (its : list item)
    (d : desk) : desk :=
  match its with
  | [] => d
  | Esc ansi :: rest => deskRun w tol trim rest (stepEsc ansi d)
  | Chr t :: rest =>
      deskRun w tol trim rest (stepChr w tol trim (moreItems rest) t d)
  end.

(** Leaving through the [break] of line 103 forgets the unclosed
    sequences. *)
Definition forget (broke : bool) (d : desk) : desk :=
  if broke then mkDesk (rows d) [] (cur d) else d.

(** The rows of the run on a text: the loop, and the last [push]. *)
Definition rowsOf {R : Regexes} (str : ustring) (w tol : Z) (trim : bool)
  : list row :=
  rows (dpush (forget (snd (items str))
                 (deskRun w tol trim (fst (items str)) deskStart))).

(** A state of the loop and the desk that tells its lines, their recorded
    widths, the unclosed sequences, the buffer and its width. *)
Definition Sim (st : state) (d : desk) : Prop :=
  lines st = map rowText (rows d)
  /\ widths st = map rowWidth (rows d)
  /\ bgUnclosed st = tracked d
  /\ line st = concat (reopen (cur d)) ++ itemsText (body (cur d))
  /\ lineWidth st = rowWidth (cur d).

(** The width of a row is the sum of the widths of its items. *)
Definition RowSum (r : row) : Prop := rowWidth r = bodyWidth (body r).

(** The items appended so far, over all the rows. *)
Definition bodiesOf (d : desk) : list item :=
  concat (map body (rows d)) ++ body (cur d).

(** The unclosed background sequences after the runs among [its], read
    from left to right, starting from [bg]. *)
Definition trackFrom {R : Regexes} (bg : list ustring) (its : list item)
  : list ustring :=
  fold_left
    (fun bg it =>
       match it with
       | Esc ansi => trackBackground ansi bg
       | Chr _ => bg
       end)
    its bg.

(** Rows pushed one after the other, [pre] being the items appended to the
    rows before them: each starts with the sequences left unclosed by the
    runs read before it, and is closed with [ESC[49m] exactly when the runs
    read up to its end leave some unclosed. *)
Fixpoint Chained {R : Regexes} (pre : list item) (rs : list row) : Prop :=
  match rs with
  | [] => True
  | r :: rs' =>
      reopen r = trackFrom [] pre
      /\ shut r = anyOpen (trackFrom [] (pre ++ body r))
      /\ Chained (pre ++ body r) rs'
  end.

Definition DeskSum (d : desk) : Prop := Forall RowSum (rows d) /\ RowSum (cur d).

(** The invariant of the run on the sequences tracked. *)
Definition TrackInv {R : Regexes} (d : desk) : Prop :=
  Chained [] (rows d)
  /\ reopen (cur d) = trackFrom [] (concat (map body (rows d)))
  /\ tracked d = trackFrom [] (bodiesOf d).

(** Every item the loop reads is a run the scanner matched or a code
    point of the text with its segment. *)
Definition ReadFrom {R : Regexes} (str : ustring) (it : item) : Prop :=
  match it with
  | Esc ansi =>
      exists j i, ansi_consec_match (skipn j str) = Some (i, ansi)
  | Chr t =>
      exists i, codePointAt str i = Some (fst t)
                /\ fst (fst (buildSegment str i (fst t))) = snd t
  end.

(** The pending match of the loop comes from a search. *)
Definition Searched {R : Regexes} (str : ustring)
    (found : option (nat * ustring)) : Prop :=
  match found with
  | None => True
  | Some (_, ansi) =>
      exists j i, ansi_consec_match (skipn j str) = Some (i, ansi)
  end.

(** ** Wrapping a row again

    What the loop reads when it is given the text of a row: the sequences
    reopened at its start make one run with the run that follows them, if
    one does, and [ESC[49m] at its end one run with the run before it. *)
Definition withOpen (re : list ustring) (its : list item) : list item :=
  match re with
  | [] => its
  | _ :: _ =>
      match its with
      | Esc ansi :: rest => Esc (concat re ++ ansi) :: rest
      | _ => Esc (concat re) :: its
      end
  end.

Fixpoint withClose (its : list item) : list item :=
  match its with
  | [] => [Esc BG_CLOSE]
  | Esc ansi :: [] => [Esc (ansi ++ BG_CLOSE)]
  | it :: rest => it :: withClose rest
  end.

Definition expected (r : row) : list item :=
  let its := withOpen (reopen r) (body r) in
  if shut r then withClose its else its.

Definition endsInEsc (its : list item) : bool := isEsc (last its (Chr (0, []))).

(** Whether the last item of a row is a breaking dash that fills it. *)
Definition lastDash (w : Z) (r : row) : bool :=
  match last (body r) (Esc []) with
  | Chr t => (rowWidth r >=? w) && Codes.isBreakingDash (fst t)
  | Esc _ => false
  end.

(** A full row that ends in a breaking dash and was closed with
    [ESC[49m]: wrapped again, it is flushed after the dash. *)
Definition dashShut (w : Z) (r : row) : bool := shut r && lastDash w r.

(** When a row starts with reopened sequences and a run that closes the
    background, the joined run closes it too. *)
Definition BgStable {R : Regexes} (r : row) : Prop :=
  match reopen r, body r with
  | _ :: _, Esc ansi :: _ =>
      trackBackground ansi (reopen r) = [] ->
      trackBackground (concat (reopen r) ++ ansi) [] = []
  | _, _ => True
  end.

(** A row whose text is read again the way it was built: nothing is left
    to normalise in it, the loop reads from it the items it was made of,
    and the background it closes at its start stays closed. *)
Definition Reread {R : Regexes} (r : row) : Prop :=
  lineBreak_replace (rowText r) = rowText r
  /\ items (rowText r) = (expected r, endsInEsc (expected r))
  /\ BgStable r.

(** [fedWith after w its k]: the width after the items [its] have been
    appended to a row of width [k] at tolerance 0, when none of them causes
    a flush; [after] tells whether text follows the last of them. *)
Fixpoint fedWith (after : bool) (w : Z) (its : list item) (k : Z)
  : option Z :=
  match its with
  | [] => Some k
  | Esc _ :: rest => fedWith after w rest k
  | Chr t :: rest =>
      if fst t =? 0x0A then None
      else
        let sw := segmentWidth (fst t) in
        if k + sw >? w then None
        else if (k + sw >=? w) && (moreItems rest || after)
                && Codes.isBreakingDash (fst t)
        then None
        else fedWith after w rest (k + sw)
  end.

(** The invariant of the run at tolerance 0 and without trimming: no row
    holds an item that would have caused a flush before the row was
    pushed; [more] tells whether items remain to be read. *)
Definition FedInv (w : Z) (more : bool) (d : desk) : Prop :=
  Forall (fun r => fedWith false w (body r) 0 = Some (rowWidth r)) (rows d)
  /\ fedWith more w (body (cur d)) 0 = Some (rowWidth (cur d)).

(** A row pushed with no sequence unclosed, and not at a run, was left
    with none unclosed by its own runs. *)
Definition RowTrack {R : Regexes} (r : row) : Prop :=
  shut r = false -> endsInEsc (body r) = false ->
  trackFrom (reopen r) (body r) = [].

(** * Properties *)

(** ** The loop of [breakLine] ends

    Every iteration moves the index forward, so the loop leaves through its
    condition or a [break] within [length str] iterations: the fuel of
    [run] never runs out. *)
Section Termination.

Context {R : Regexes}.
Variables (str : ustring) (maxWidth tolerance : Z) (trimBreak : bool).

Lemma push_index (st : state) : index (push st) = index st.
Proof. reflexivity. Qed.

Lemma scanAnsi_index (st : state) :
  match scanAnsi str st with
  | Next st' | Break st' => (index st <= index st')%nat
  end.
Proof.
  unfold scanAnsi.
  destruct (ansiFound st) as [[ai ansi]|]; [|simpl; lia].
  destruct (ai =? index st)%nat; [|simpl; lia].
  destruct (index st + length ansi =? length str)%nat; simpl; lia.
Qed.

Lemma breakBefore_index (st : state) (code : Z) (seg : ustring) (sw : Z) :
  index (fst (fst (breakBefore maxWidth tolerance trimBreak st code seg sw)))
  = index st.
Proof.
  unfold breakBefore.
  destruct (lineWidth st + sw >? maxWidth); [|reflexivity].
  destruct (trimBreak && Codes.isBreakingSpace code);
    destruct (Codes.isBreakingSpace code || (lineWidth st + sw >? maxWidth + tolerance));
    reflexivity.
Qed.

Lemma dashBreak_index (st : state) (code : Z) :
  index (dashBreak str maxWidth st code) = index st.
Proof.
  unfold dashBreak.
  destruct ((lineWidth st >=? maxWidth) && (index st <? length str - 1)%nat);
    [destruct (Codes.isBreakingDash code)|]; reflexivity.
Qed.

Lemma buildSegment_index (i : nat) (code : Z) :
  (i <= snd (buildSegment str i code))%nat.
Proof.
  unfold buildSegment.
  destruct (Codes.isSurrogate code); [simpl; lia|].
  destruct (Codes.isCombining code || Codes.isControl code); [simpl; lia|].
  destruct (Codes.isFullwidth code); simpl; lia.
Qed.

Lemma scanChar_index (st : state) :
  (index st <= index (scanChar str maxWidth tolerance trimBreak st))%nat.
Proof.
  unfold scanChar.
  destruct (codePointAt str (index st)) as [code|]; [|lia].
  destruct (code =? 10); [simpl; lia|].
  pose proof (buildSegment_index (index st) code) as Hb.
  destruct (buildSegment str (index st) code) as [[seg sw] i'].
  pose proof (breakBefore_index (setIndex i' st) code seg sw) as Hbb.
  destruct (breakBefore maxWidth tolerance trimBreak (setIndex i' st) code seg sw)
    as [[st1 seg1] sw1].
  rewrite dashBreak_index. simpl in *. lia.
Qed.

Lemma iter_index (st st' : state) :
  iter str maxWidth tolerance trimBreak st = Next st' ->
  (index st < index st')%nat.
Proof.
  unfold iter. pose proof (scanAnsi_index st) as Ha.
  destruct (scanAnsi str st) as [st1|st1]; [|discriminate].
  intros [= <-].
  pose proof (scanChar_index st1). unfold advance. simpl. lia.
Qed.

Lemma loop_total (fuel : nat) :
  forall st, (length str - index st <= fuel)%nat ->
  exists st', loop str maxWidth tolerance trimBreak fuel st = Some st'.
Proof.
  induction fuel as [|fuel IH]; intros st Hf; simpl.
  - destruct (Nat.ltb_spec (index st) (length str)); [lia|eauto].
  - destruct (Nat.ltb_spec (index st) (length str)); [|eauto].
    destruct (iter str maxWidth tolerance trimBreak st) as [st1|st1] eqn:Hi;
      [|eauto].
    apply IH. apply iter_index in Hi. lia.
Qed.

Lemma run_total :
  exists st, run str maxWidth tolerance trimBreak = Some st.
Proof.
  unfold run.
  destruct (loop_total (length str) (initial str)) as [st Hst]; [lia|].
  rewrite Hst. simpl. eauto.
Qed.

End Termination.

(** ** Evaluation without escape runs *)

Section Evaluation.

Context {R : Regexes}.

(** When normalisation leaves the text as it is and the first search for an
    escape run fails, [breakLine] is the loop started without a match;
    nothing on that path calls a regular expression again. *)
Lemma breakLine_plain (str : ustring) (w : Z) (opts : option Opts.t) :
  str <> [] -> 2 <= w ->
  lineBreak_replace str = str ->
  ansi_consec_match str = None ->
  breakLine str (NInt w) opts =
  match
    option_map push
      (loop str w (toleranceOf opts) (trimBreakOf opts) (length str)
         plainInitial)
  with
  | Some st => lines st
  | None => []
  end.
Proof.
  intros Hne Hw Hn Ha. unfold breakLine.
  destruct str as [|u s]; [congruence|].
  replace (number_ltZ (NInt w) 2) with false
    by (symmetry; apply Z.ltb_ge; exact Hw).
  cbn [length Nat.eqb Number_isInteger negb orb].
  rewrite Hn. unfold run, initial, searchAnsi.
  cbn [index skipn]. rewrite Ha. reflexivity.
Qed.

End Evaluation.

(** ** C1 and C7: "hello world" at width 5 *)

Section HelloWorld.

Context {R : Regexes}.

(** C1, as the code has it: when the regular expressions find no line
    break to normalise and no escape run in "hello world",
    [breakLine("hello world", 5)] with default options is the three lines
    "hello", " worl" and "d". The break is forced at the overflowing space,
    the space is kept at the start of the second line, and that line, now
    one column longer, is broken again before the "d". *)
Theorem breakLine_hello_world_default :
  lineBreak_replace (utf16 "hello world") = utf16 "hello world" ->
  ansi_consec_match (utf16 "hello world") = None ->
  breakLine (utf16 "hello world") (NInt 5) defaultOpts
  = [utf16 "hello"; utf16 " worl"; utf16 "d"].
Proof.
  intros Hn Ha.
  rewrite (breakLine_plain _ 5 defaultOpts); [|discriminate|lia|exact Hn|exact Ha].
  vm_compute. reflexivity.
Qed.

(** C7: under the same two conditions,
    [breakLine("hello world", 5, {trimBreak: true})] is the two lines
    "hello" and "world": the overflowing space is dropped. *)
Theorem breakLine_hello_world_trim :
  lineBreak_replace (utf16 "hello world") = utf16 "hello world" ->
  ansi_consec_match (utf16 "hello world") = None ->
  breakLine (utf16 "hello world") (NInt 5) trimOpts
  = [utf16 "hello"; utf16 "world"].
Proof.
  intros Hn Ha.
  rewrite (breakLine_plain _ 5 trimOpts); [|discriminate|lia|exact Hn|exact Ha].
  vm_compute. reflexivity.
Qed.

End HelloWorld.

Lemma breakLine_hello_world_default_witness :
  @breakLine SpecRegexes.regexes (utf16 "hello world") (NInt 5) defaultOpts
  = [utf16 "hello"; utf16 " worl"; utf16 "d"].
Proof.
  apply (@breakLine_hello_world_default SpecRegexes.regexes); reflexivity.
Defined.

(** C1 as stated fails: the result is not the two lines "hello" and
    " world". *)
Lemma breakLine_hello_world_not_two_lines :
  @breakLine SpecRegexes.regexes (utf16 "hello world") (NInt 5) defaultOpts
  <> [utf16 "hello"; utf16 " world"].
Proof. vm_compute. discriminate. Qed.

Lemma breakLine_hello_world_trim_witness :
  @breakLine SpecRegexes.regexes (utf16 "hello world") (NInt 5) trimOpts
  = [utf16 "hello"; utf16 "world"].
Proof.
  apply (@breakLine_hello_world_trim SpecRegexes.regexes); reflexivity.
Defined.

(** ** C8: the guard of [breakLine] *)

Section Guard.

Context {R : Regexes}.

Lemma breakLine_guard (str : ustring) (maxWidth : number)
    (opts : option Opts.t) :
  str = [] \/ Number_isInteger maxWidth = false \/ number_ltZ maxWidth 2 = true ->
  breakLine str maxWidth opts = [str].
Proof.
  intros H. unfold breakLine. destruct H as [-> | [H | H]].
  - reflexivity.
  - rewrite H. cbn [negb]. rewrite orb_true_r. reflexivity.
  - rewrite H. rewrite orb_true_r. reflexivity.
Qed.

(** C8: if [str] is falsy (for a string: empty) or [maxWidth] is not an
    integer that is at least 2, [breakLine] returns the one-element list
    [[str]], the input untouched by normalisation or scanning; this covers
    Infinity, NaN, non-integers, 0 and 1. On every other input the loop ends
    within its fuel, so [breakLine] always returns. *)
Theorem breakLine_guard_identity :
  (forall (str : ustring) (maxWidth : number) (opts : option Opts.t),
     str = [] \/ Number_isInteger maxWidth = false \/ number_ltZ maxWidth 2 = true ->
     breakLine str maxWidth opts = [str])
  /\ (forall (str : ustring) (opts : option Opts.t) (f : Z),
        breakLine str NInfinity opts = [str]
        /\ breakLine str NNaN opts = [str]
        /\ breakLine str (NFrac f) opts = [str]
        /\ breakLine str (NInt 0) opts = [str]
        /\ breakLine str (NInt 1) opts = [str])
  /\ (forall (str : ustring) (maxWidth tolerance : Z) (trimBreak : bool),
        exists st, run str maxWidth tolerance trimBreak = Some st).
Proof.
  split; [exact breakLine_guard|]. split.
  - intros str opts f. repeat split; apply breakLine_guard; right; auto.
  - intros. apply run_total.
Qed.

End Guard.

Lemma breakLine_guard_identity_witness :
  @breakLine SpecRegexes.regexes [0x61; 0x0D; 0x0A; 0x62] NInfinity defaultOpts
  = [[0x61; 0x0D; 0x0A; 0x62]]
  /\ @breakLine SpecRegexes.regexes [] (NInt 5) defaultOpts = [[]].
Proof.
  split.
  - apply (proj1 (@breakLine_guard_identity SpecRegexes.regexes)).
    right. left. reflexivity.
  - apply (proj1 (@breakLine_guard_identity SpecRegexes.regexes)).
    left. reflexivity.
Defined.

(** ** C9: [stringWidth] and [stripAnsi] *)

Section StripInvariance.

Context {R : Regexes}.

(** C9, as the code has it: [stringWidth] is 0 on the empty string and on
    every value that is not a string, and [stringWidth(s)] is the sum of the
    loop over [stripAnsi(s)], one pass of removal. It equals
    [stringWidth(stripAnsi(s))] whenever that one pass leaves nothing for a
    second pass to remove, [stripAnsi(stripAnsi(s)) = stripAnsi(s)] (and
    the empty string strips to itself). *)
Theorem stringWidth_stripAnsi (s : ustring) :
  stripAnsi [] = [] ->
  stripAnsi (stripAnsi s) = stripAnsi s ->
  stringWidth (JString []) = 0
  /\ (forall v, (forall t, v <> JString t) -> stringWidth v = 0)
  /\ stringWidth (JString s) = stringWidth (JString (stripAnsi s)).
Proof.
  intros H0 Hs. split; [reflexivity|]. split.
  - intros v Hv. destruct v; try reflexivity. exfalso. eapply Hv. reflexivity.
  - unfold stringWidth. rewrite Hs.
    destruct s as [|u s].
    + rewrite H0. reflexivity.
    + cbn [length Nat.eqb].
      destruct (length (stripAnsi (u :: s)) =? 0)%nat; reflexivity.
Qed.

End StripInvariance.

Lemma stringWidth_stripAnsi_witness :
  @stringWidth SpecRegexes.regexes (JString []) = 0
  /\ (forall v, (forall t, v <> JString t) ->
      @stringWidth SpecRegexes.regexes v = 0)
  /\ @stringWidth SpecRegexes.regexes (JString (bg41 ++ utf16 "hi" ++ BG_CLOSE))
     = @stringWidth SpecRegexes.regexes
         (JString (@stripAnsi SpecRegexes.regexes (bg41 ++ utf16 "hi" ++ BG_CLOSE))).
Proof.
  apply (@stringWidth_stripAnsi SpecRegexes.regexes
           (bg41 ++ utf16 "hi" ++ BG_CLOSE)); reflexivity.
Defined.

(** C9 as stated fails: removing the sequence inside
    [ESC ESC [ 3 1 m [ 3 1 m] leaves the sequence [ESC [ 3 1 m], which the
    single pass of [stringWidth] measures (width 4) and a second pass
    removes (width 0). *)
Lemma stringWidth_not_strip_invariant :
  @stringWidth SpecRegexes.regexes (JString (ESC :: ESC :: utf16 "[31m[31m"))
  <> @stringWidth SpecRegexes.regexes
       (JString (@stripAnsi SpecRegexes.regexes (ESC :: ESC :: utf16 "[31m[31m"))).
Proof. vm_compute. discriminate. Qed.

(** ** C6: code points above 0xFFFF in [stringWidth] *)

Lemma pairValue_astral (hi lo : Z) :
  isHighSurrogate hi = true -> isLowSurrogate lo = true ->
  0x10000 <= pairValue hi lo <= 0x10FFFF.
Proof.
  unfold isHighSurrogate, isLowSurrogate, pairValue. intros Hh Hl.
  apply andb_prop in Hh. apply andb_prop in Hl.
  destruct Hh as [H1 H2]. destruct Hl as [H3 H4].
  apply Z.leb_le in H1, H2, H3, H4. lia.
Qed.

Lemma codePointAt_pair (str : ustring) (i : nat) (hi lo : Z) :
  nth_error str i = Some hi -> nth_error str (S i) = Some lo ->
  isHighSurrogate hi = true -> isLowSurrogate lo = true ->
  codePointAt str i = Some (pairValue hi lo).
Proof.
  intros Hi Hl Hh Hlo. unfold codePointAt. rewrite Hi, Hh, Hl, Hlo. reflexivity.
Qed.

Lemma astral_not_skipped (cp : Z) :
  0xFFFF < cp ->
  Codes.isControl cp = false /\ Codes.isCombining cp = false
  /\ Codes.isSurrogate cp = true.
Proof.
  intros H. unfold Codes.isControl, Codes.isCombining, Codes.isSurrogate.
  repeat split.
  - apply orb_false_iff. split; [apply Z.leb_gt; lia|].
    apply andb_false_iff. right. apply Z.leb_gt. lia.
  - apply andb_false_iff. right. apply Z.leb_gt. lia.
  - apply Z.ltb_lt. lia.
Qed.

(** The loop of [stringWidth] ends within [length str] iterations. *)
Lemma widthLoop_total (fuel : nat) :
  forall (str : ustring) (i : nat) (width : Z),
  (length str - i <= fuel)%nat ->
  exists total, widthLoop fuel str i width = Some total.
Proof.
  induction fuel as [|fuel IH]; intros str i width Hf; cbn [widthLoop];
    destruct (Nat.ltb_spec i (length str)) as [Hlt|Hge]; eauto; [lia|].
  destruct (codePointAt str i) as [cp|]; [|apply IH; lia].
  destruct (Codes.isControl cp); [apply IH; lia|].
  destruct (Codes.isCombining cp); [apply IH; lia|].
  destruct (Codes.isSurrogate cp); apply IH; lia.
Qed.

Section Astral.

Context {R : Regexes}.

(** C6: an iteration of the loop of [stringWidth] that reads a surrogate
    pair reads a code point above 0xFFFF, adds 1 for the pair and then 2 if
    the code point is fullwidth and 1 otherwise, and goes on two units
    later: the low surrogate is consumed and adds nothing. So the pair adds
    2, and 3 when fullwidth, which every code point of 0x20000..0x3FFFD is;
    a text that is just the pair, with nothing for [stripAnsi] to remove,
    has that width. With fuel for the rest of the text the iteration and
    what follows it give a result. *)
Theorem stringWidth_astral (str : ustring) (i : nat) (hi lo : Z) (fuel : nat)
    (width : Z) :
  nth_error str i = Some hi -> nth_error str (S i) = Some lo ->
  isHighSurrogate hi = true -> isLowSurrogate lo = true ->
  let cp := pairValue hi lo in
  codePointAt str i = Some cp
  /\ 0xFFFF < cp
  /\ widthLoop (S fuel) str i width
     = widthLoop fuel str (i + 2)
         (width + 1 + (if Codes.isFullwidth cp then 2 else 1))
  /\ (Codes.isFullwidth cp = false ->
      widthLoop (S fuel) str i width = widthLoop fuel str (i + 2) (width + 2))
  /\ (0x20000 <= cp <= 0x3FFFD ->
      Codes.isFullwidth cp = true
      /\ widthLoop (S fuel) str i width = widthLoop fuel str (i + 2) (width + 3))
  /\ (stripAnsi [hi; lo] = [hi; lo] ->
      stringWidth (JString [hi; lo]) = if Codes.isFullwidth cp then 3 else 2)
  /\ ((length str - i <= S fuel)%nat ->
      exists total, widthLoop (S fuel) str i width = Some total).
Proof.
  intros Hi Hl Hh Hlo cp.
  pose proof (pairValue_astral hi lo Hh Hlo) as Hcp. fold cp in Hcp.
  assert (Hc : codePointAt str i = Some cp) by (apply codePointAt_pair; assumption).
  destruct (astral_not_skipped cp) as (Hctl & Hcmb & Hsur); [lia|].
  assert (Hlt : (i <? length str)%nat = true).
  { apply Nat.ltb_lt. apply nth_error_Some. congruence. }
  assert (Hstep : forall f w,
             widthLoop (S f) str i w
             = widthLoop f str (i + 2)
                 (w + 1 + (if Codes.isFullwidth cp then 2 else 1))).
  { intros f w. cbn [widthLoop]. rewrite Hlt, Hc, Hctl, Hcmb, Hsur.
    replace (i + 2)%nat with (S (S i)) by lia. reflexivity. }
  split; [exact Hc|]. split; [lia|]. split; [apply Hstep|].
  split; [|split; [|split]]; [| | |apply widthLoop_total].
  - intros Hfw. rewrite Hstep, Hfw. f_equal. lia.
  - intros Hr.
    assert (Hfw : Codes.isFullwidth cp = true).
    { unfold Codes.isFullwidth.
      replace (0x1100 <=? cp) with true by (symmetry; apply Z.leb_le; lia).
      replace ((0x20000 <=? cp) && (cp <=? 0x3FFFD)) with true.
      - cbn [andb]. rewrite !orb_true_r. reflexivity.
      - symmetry. apply andb_true_iff. split; apply Z.leb_le; lia. }
    split; [exact Hfw|]. rewrite Hstep, Hfw. f_equal. lia.
  - intros Hs. unfold stringWidth. cbn [length Nat.eqb]. rewrite Hs.
    cbn [length Nat.eqb widthLoop Nat.ltb Nat.leb].
    assert (Hc2 : codePointAt [hi; lo] 0 = Some cp)
      by (apply codePointAt_pair; auto).
    rewrite Hc2, Hctl, Hcmb, Hsur.
    destruct (Codes.isFullwidth cp); reflexivity.
Qed.

End Astral.

Lemma stringWidth_astral_witness :
  widthLoop 3 [0x61; 0xD83D; 0xDE00] 1 1
  = widthLoop 2 [0x61; 0xD83D; 0xDE00] (1 + 2) (1 + 2)
  /\ @stringWidth SpecRegexes.regexes (JString [0xD83D; 0xDE00]) = 2.
Proof.
  pose proof (@stringWidth_astral SpecRegexes.regexes [0x61; 0xD83D; 0xDE00]
                1%nat 0xD83D 0xDE00 2%nat 1 eq_refl eq_refl eq_refl eq_refl)
    as H.
  cbv zeta in H. destruct H as (_ & _ & _ & Hnarrow & _ & Htotal & _). split.
  - apply Hnarrow. reflexivity.
  - apply Htotal. reflexivity.
Defined.

(** ** C2: the break decision *)

Section BreakDecision.

Context {R : Regexes}.

Lemma run_plain (str : ustring) (w t : Z) (b : bool) :
  ansi_consec_match str = None ->
  run str w t b = option_map push (loop str w t b (length str) plainInitial).
Proof.
  intros Ha. unfold run, initial, searchAnsi. cbn [index skipn].
  rewrite Ha. reflexivity.
Qed.

(** C2: with [thisWidth] the width of the line plus that of the segment,
    the code of lines 142 to 152 flushes the line, before the segment is
    appended, exactly as follows. When [thisWidth] exceeds [maxWidth]: a
    breaking space always flushes, whatever the tolerance; any other segment
    flushes when [thisWidth] exceeds [maxWidth + tolerance] and is kept on
    the line, unchanged, when it does not. When [thisWidth] is within
    [maxWidth] nothing is flushed. Every iteration of the loop on a
    character other than a line feed takes this decision between building
    the segment and appending it. With tolerance 1, "abcdef" at width 3
    (nothing to normalise, no escape run) gives "abcd", of width 4, then
    "ef". *)
Theorem break_decision (str : ustring) (maxWidth tolerance : Z)
    (trimBreak : bool) (st : state) (code : Z) (segment : ustring)
    (segmentWidth : Z) :
  lineBreak_replace (utf16 "abcdef") = utf16 "abcdef" ->
  ansi_consec_match (utf16 "abcdef") = None ->
  let thisWidth := lineWidth st + segmentWidth in
  let decided :=
    breakBefore maxWidth tolerance trimBreak st code segment segmentWidth in
  (thisWidth > maxWidth -> Codes.isBreakingSpace code = true ->
   fst (fst decided) = push st)
  /\ (thisWidth > maxWidth -> Codes.isBreakingSpace code = false ->
      thisWidth > maxWidth + tolerance ->
      decided = (push st, segment, segmentWidth))
  /\ (thisWidth > maxWidth -> Codes.isBreakingSpace code = false ->
      thisWidth <= maxWidth + tolerance ->
      decided = (st, segment, segmentWidth))
  /\ (thisWidth <= maxWidth -> decided = (st, segment, segmentWidth))
  /\ (codePointAt str (index st) = Some code -> code <> 0x0A ->
      scanChar str maxWidth tolerance trimBreak st
      = let '(seg, sw, i) := buildSegment str (index st) code in
        let '(st1, seg1, sw1) :=
          breakBefore maxWidth tolerance trimBreak (setIndex i st) code seg sw in
        dashBreak str maxWidth (appendSegment st1 seg1 sw1) code)
  /\ (exists fin,
        run (utf16 "abcdef") 3 1 false = Some fin
        /\ breakLine (utf16 "abcdef") (NInt 3) (toleranceOpts 1) = lines fin
        /\ lines fin = [utf16 "abcd"; utf16 "ef"]
        /\ widths fin = [4; 2]).
Proof.
  intros Hn Ha thisWidth decided. subst thisWidth decided.
  unfold breakBefore. repeat split.
  - intros Hgt Hsp.
    replace (lineWidth st + segmentWidth >? maxWidth) with true
      by (symmetry; apply Z.gtb_lt; lia).
    rewrite Hsp. cbn [orb]. destruct (trimBreak && true); reflexivity.
  - intros Hgt Hsp Htol.
    replace (lineWidth st + segmentWidth >? maxWidth) with true
      by (symmetry; apply Z.gtb_lt; lia).
    rewrite Hsp, andb_false_r. cbn [orb].
    replace (lineWidth st + segmentWidth >? maxWidth + tolerance) with true
      by (symmetry; apply Z.gtb_lt; lia).
    reflexivity.
  - intros Hgt Hsp Htol.
    replace (lineWidth st + segmentWidth >? maxWidth) with true
      by (symmetry; apply Z.gtb_lt; lia).
    rewrite Hsp, andb_false_r. cbn [orb].
    replace (lineWidth st + segmentWidth >? maxWidth + tolerance) with false
      by (symmetry; rewrite Z.gtb_ltb; apply Z.ltb_ge; lia).
    reflexivity.
  - intros Hle.
    replace (lineWidth st + segmentWidth >? maxWidth) with false
      by (symmetry; rewrite Z.gtb_ltb; apply Z.ltb_ge; lia).
    reflexivity.
  - intros Hc Hnl. unfold scanChar. rewrite Hc.
    replace (code =? 10) with false by (symmetry; apply Z.eqb_neq; exact Hnl).
    reflexivity.
  - rewrite (breakLine_plain _ 3 (toleranceOpts 1));
      [|discriminate|lia|exact Hn|exact Ha].
    rewrite (run_plain _ 3 1 false Ha).
    eexists. split; [vm_compute; reflexivity|]. vm_compute. auto.
Qed.

End BreakDecision.

Lemma break_decision_witness :
  let st := {| lines := [utf16 "abc"]; widths := [3]; bgUnclosed := [];
               line := utf16 "def"; lineWidth := 3; index := 6%nat;
               ansiFound := None |} in
  fst (fst (breakBefore 3 1 false st 0x20 (utf16 " ") 1)) = push st
  /\ breakBefore 3 1 false st 0x67 (utf16 "g") 1 = (st, utf16 "g", 1)
  /\ exists fin,
       @run SpecRegexes.regexes (utf16 "abcdef") 3 1 false = Some fin
       /\ @breakLine SpecRegexes.regexes (utf16 "abcdef") (NInt 3)
            (toleranceOpts 1) = lines fin
       /\ lines fin = [utf16 "abcd"; utf16 "ef"]
       /\ widths fin = [4; 2].
Proof.
  intros st.
  pose proof (@break_decision SpecRegexes.regexes (utf16 "abc def") 3 1 false
                st 0x20 (utf16 " ") 1 eq_refl eq_refl) as Hspace.
  pose proof (@break_decision SpecRegexes.regexes (utf16 "abcdefg") 3 1 false
                st 0x67 (utf16 "g") 1 eq_refl eq_refl) as Hchar.
  cbv zeta in Hspace, Hchar.
  destruct Hspace as (Hflush & _ & _ & _ & _ & Hrun).
  destruct Hchar as (_ & _ & Hkeep & _).
  split; [apply Hflush; reflexivity|].
  split; [apply Hkeep; [reflexivity|reflexivity|discriminate]|].
  exact Hrun.
Defined.

(** ** C3: background sequences of a run *)

Lemma lastIndexOf_from_app (x : ustring) (l1 l2 : list ustring) :
  forall i found,
  lastIndexOf_from x (l1 ++ l2) i found
  = lastIndexOf_from x l2 (i + Z.of_nat (length l1))
      (lastIndexOf_from x l1 i found).
Proof.
  induction l1 as [|y l1 IH]; intros i found.
  - cbn [app length lastIndexOf_from]. rewrite Z.add_0_r. reflexivity.
  - cbn [app lastIndexOf_from]. rewrite IH. f_equal.
    cbn [length]. lia.
Qed.

Lemma lastIndexOf_from_absent (x : ustring) (l : list ustring) :
  ~ In x l -> forall i found, lastIndexOf_from x l i found = found.
Proof.
  induction l as [|y l IH]; intros Hn i found; [reflexivity|].
  cbn [lastIndexOf_from].
  destruct (ustring_eq_dec y x) as [->|_].
  - exfalso. apply Hn. left. reflexivity.
  - apply IH. intros H. apply Hn. right. exact H.
Qed.

Lemma lastIndexOf_last_occurrence (x : ustring) (pre post : list ustring) :
  ~ In x post ->
  lastIndexOf (pre ++ x :: post) x = Z.of_nat (length pre).
Proof.
  intros Hn. unfold lastIndexOf. rewrite lastIndexOf_from_app.
  cbn [lastIndexOf_from]. rewrite lastIndexOf_from_absent by exact Hn.
  destruct (ustring_eq_dec x x); [lia|congruence].
Qed.

Section Background.

Context {R : Regexes}.

(** C3, what the code does: let the background sequences of a run be
    [pre], then the last reset [ESC[49m], then [post]. When the reset is the
    last of them ([post] empty) the list of unclosed sequences is emptied.
    When sequences follow the reset, they are appended to the list as it
    was: the sequences tracked before the run stay in it. *)
Theorem trackBackground_reset (ansi : ustring) (pre post bg : list ustring) :
  ansi_bgGlobal_match ansi = Some (pre ++ BG_CLOSE :: post) ->
  ~ In BG_CLOSE post ->
  (post = [] -> trackBackground ansi bg = [])
  /\ (post <> [] -> trackBackground ansi bg = bg ++ post).
Proof.
  intros Hm Hn. unfold trackBackground. rewrite Hm.
  rewrite lastIndexOf_last_occurrence by exact Hn.
  rewrite length_app. cbn [length]. split.
  - intros ->. cbn [length].
    replace (Z.of_nat (length pre) + 1 =? Z.of_nat (length pre + 1)) with true
      by (symmetry; apply Z.eqb_eq; lia).
    reflexivity.
  - intros Hp.
    replace (Z.of_nat (length pre) + 1 =? Z.of_nat (length pre + S (length post)))
      with false.
    + replace (Z.to_nat (Z.of_nat (length pre) + 1)) with (length pre + 1)%nat
        by lia.
      rewrite skipn_app.
      rewrite (skipn_all2 pre) by lia.
      replace (length pre + 1 - length pre)%nat with 1%nat by lia.
      reflexivity.
    + symmetry. apply Z.eqb_neq. destruct post; [congruence|cbn [length]; lia].
Qed.

End Background.

(** C3 at a concrete text: red background, "ab", then a run that resets the
    background and sets it to green, then "cd", at width 2. After the second
    run the list holds the red sequence still, so the second line reopens
    red and green, not green alone. *)
Lemma trackBackground_reset_witness :
  @trackBackground SpecRegexes.regexes (BG_CLOSE ++ bg42) [bg41] = [bg41; bg42]
  /\ @breakLine SpecRegexes.regexes
       (bg41 ++ utf16 "ab" ++ BG_CLOSE ++ bg42 ++ utf16 "cd") (NInt 2) defaultOpts
     = [bg41 ++ utf16 "ab" ++ BG_CLOSE ++ bg42 ++ BG_CLOSE;
        bg41 ++ bg42 ++ utf16 "cd" ++ BG_CLOSE].
Proof.
  split.
  - apply (proj2 (@trackBackground_reset SpecRegexes.regexes (BG_CLOSE ++ bg42)
                    [] [bg42] [bg41] eq_refl
                    ltac:(intros [H|[]]; discriminate H))).
    discriminate.
  - vm_compute. reflexivity.
Defined.

(** The list after that run is not the green sequence alone. *)
Lemma trackBackground_keeps_closed :
  @trackBackground SpecRegexes.regexes (BG_CLOSE ++ bg42) [bg41] <> [bg42].
Proof. vm_compute. discriminate. Qed.

(** ** C10: the width of a line stays within the budget

    [widths] records [lineWidth] at each [push]; the invariant below holds
    at every point of the loop where [push] can be called. *)
Section WidthBound.

Context {R : Regexes}.
Variables (str : ustring) (maxWidth tolerance : Z) (trimBreak : bool).
Hypothesis maxWidth_valid : 2 <= maxWidth.
Hypothesis tolerance_valid : 0 <= tolerance.

Lemma WidthInv_push (st : state) :
  WidthInv maxWidth tolerance st -> WidthInv maxWidth tolerance (push st).
Proof using maxWidth_valid tolerance_valid.
  intros (Hw & Hall & Hlen). unfold WidthInv, push. cbn.
  split; [unfold within; lia|]. split.
  - apply Forall_app. split; [exact Hall|]. constructor; [exact Hw|constructor].
  - rewrite !length_app. cbn. lia.
Qed.

Lemma WidthInv_scanAnsi (st : state) :
  WidthInv maxWidth tolerance st ->
  match scanAnsi str st with
  | Next st' | Break st' => WidthInv maxWidth tolerance st'
  end.
Proof.
  intros H. unfold scanAnsi.
  destruct (ansiFound st) as [[ai ansi]|]; [|exact H].
  destruct (ai =? index st)%nat; [|exact H].
  destruct (index st + length ansi =? length str)%nat; exact H.
Qed.

Lemma buildSegment_width (i : nat) (code : Z) :
  0 <= snd (fst (buildSegment str i code)) <= 2.
Proof.
  unfold buildSegment.
  destruct (Codes.isSurrogate code); [cbn; lia|].
  destruct (Codes.isCombining code || Codes.isControl code); [cbn; lia|].
  destruct (Codes.isFullwidth code); cbn; lia.
Qed.

Lemma WidthInv_breakBefore_append (st : state) (code : Z) (seg : ustring)
    (sw : Z) :
  WidthInv maxWidth tolerance st -> 0 <= sw <= 2 ->
  WidthInv maxWidth tolerance
    (let '(st1, seg1, sw1) :=
       breakBefore maxWidth tolerance trimBreak st code seg sw in
     appendSegment st1 seg1 sw1).
Proof using maxWidth_valid tolerance_valid.
  intros H Hsw. unfold breakBefore.
  destruct (Z.gtb_spec (lineWidth st + sw) maxWidth) as [Hgt|Hle].
  - destruct (Codes.isBreakingSpace code) eqn:Hsp; cbn [orb andb].
    + apply WidthInv_push in H. destruct H as (Hw & Hall & Hlen).
      destruct trimBreak; cbn [andb]; unfold WidthInv, appendSegment; cbn;
        (split; [unfold within; lia|split; assumption]).
    + rewrite andb_false_r.
      destruct (Z.gtb_spec (lineWidth st + sw) (maxWidth + tolerance)) as [Hg2|Hl2].
      * apply WidthInv_push in H. destruct H as (Hw & Hall & Hlen).
        unfold WidthInv, appendSegment; cbn.
        split; [unfold within; lia|split; assumption].
      * destruct H as (Hw & Hall & Hlen).
        unfold WidthInv, appendSegment; cbn.
        split; [unfold within in *; lia|split; assumption].
  - destruct H as (Hw & Hall & Hlen).
    unfold WidthInv, appendSegment; cbn.
    split; [unfold within in *; lia|split; assumption].
Qed.

Lemma WidthInv_dashBreak (st : state) (code : Z) :
  WidthInv maxWidth tolerance st ->
  WidthInv maxWidth tolerance (dashBreak str maxWidth st code).
Proof using maxWidth_valid tolerance_valid.
  intros H. unfold dashBreak.
  destruct ((lineWidth st >=? maxWidth) && (index st <? length str - 1)%nat);
    [|exact H].
  destruct (Codes.isBreakingDash code); [apply WidthInv_push|]; exact H.
Qed.

Lemma WidthInv_scanChar (st : state) :
  WidthInv maxWidth tolerance st ->
  WidthInv maxWidth tolerance (scanChar str maxWidth tolerance trimBreak st).
Proof using maxWidth_valid tolerance_valid.
  intros H. unfold scanChar.
  destruct (codePointAt str (index st)) as [code|]; [|exact H].
  destruct (code =? 10); [apply WidthInv_push; exact H|].
  pose proof (buildSegment_width (index st) code) as Hsw.
  destruct (buildSegment str (index st) code) as [[seg sw] i']. cbn in Hsw.
  assert (Hi : WidthInv maxWidth tolerance (setIndex i' st)) by exact H.
  pose proof (WidthInv_breakBefore_append (setIndex i' st) code seg sw Hi Hsw) as Hb.
  destruct (breakBefore maxWidth tolerance trimBreak (setIndex i' st) code seg sw)
    as [[st1 seg1] sw1].
  apply WidthInv_dashBreak. exact Hb.
Qed.

Lemma WidthInv_iter (st : state) :
  WidthInv maxWidth tolerance st ->
  match iter str maxWidth tolerance trimBreak st with
  | Next st' | Break st' => WidthInv maxWidth tolerance st'
  end.
Proof using maxWidth_valid tolerance_valid.
  intros H. unfold iter. pose proof (WidthInv_scanAnsi st H) as Ha.
  destruct (scanAnsi str st) as [st1|st1]; [|exact Ha].
  apply (WidthInv_scanChar st1) in Ha. exact Ha.
Qed.

Lemma WidthInv_loop (fuel : nat) :
  forall st fin,
  WidthInv maxWidth tolerance st ->
  loop str maxWidth tolerance trimBreak fuel st = Some fin ->
  WidthInv maxWidth tolerance fin.
Proof using maxWidth_valid tolerance_valid.
  induction fuel as [|fuel IH]; intros st fin H; cbn [loop].
  - destruct (index st <? length str)%nat; [discriminate|].
    intros [= <-]. exact H.
  - destruct (index st <? length str)%nat; [|intros [= <-]; exact H].
    pose proof (WidthInv_iter st H) as Hi.
    destruct (iter str maxWidth tolerance trimBreak st) as [st1|st1].
    + apply IH. exact Hi.
    + intros [= <-]. exact Hi.
Qed.

Lemma WidthInv_run (fin : state) :
  run str maxWidth tolerance trimBreak = Some fin -> WidthInv maxWidth tolerance fin.
Proof using maxWidth_valid tolerance_valid.
  unfold run.
  destruct (loop str maxWidth tolerance trimBreak (length str) (initial str))
    as [st|] eqn:Hl; [|discriminate].
  intros [= <-]. apply WidthInv_push.
  eapply WidthInv_loop; [|exact Hl].
  unfold WidthInv, initial, searchAnsi, within. cbn.
  split; [lia|]. split; [constructor|reflexivity].
Qed.

End WidthBound.

(** ** The text as tokens

    The loop reads text segment by segment. [tokens] is that reading, made
    on the text that remains: each token is the code point [codePointAt]
    returns and the segment [buildSegment] makes of it. *)

Lemma cat_app (A B : list token) : cat (A ++ B) = cat A ++ cat B.
Proof. unfold cat. rewrite map_app, concat_app. reflexivity. Qed.

Lemma ustring_ind2 (P : ustring -> Prop) :
  P [] ->
  (forall u s, P s -> (forall v s', s = v :: s' -> P s') -> P (u :: s)) ->
  forall s, P s.
Proof.
  intros H0 Hstep s.
  enough (H : P s /\ (forall v s', s = v :: s' -> P s')) by apply H.
  induction s as [|u s [IH1 IH2]].
  - split; [exact H0|discriminate].
  - split; [apply Hstep; assumption|].
    intros v s' [= -> ->]. exact IH1.
Qed.

Lemma cat_tokens (s : ustring) : cat (tokens s) = s.
Proof.
  induction s as [|u s IH1 IH2] using ustring_ind2; [reflexivity|].
  cbn [tokens]. destruct (isHighSurrogate u).
  - destruct s as [|lo s2]; [reflexivity|].
    destruct (isLowSurrogate lo).
    + unfold cat in *. cbn. f_equal. f_equal. apply (IH2 lo s2). reflexivity.
    + unfold cat in *. cbn. f_equal. exact IH1.
  - unfold cat in *. cbn. f_equal. exact IH1.
Qed.

Lemma head_token_tokens (s : ustring) (t : token) (s' : ustring) :
  head_token s t s' -> tokens s = t :: tokens s' /\ s = snd t ++ s'.
Proof.
  intros H. destruct H as [hi lo s Hh Hl|u s Hh|u Hh|u v s Hh Hl]; cbn [tokens snd].
  - rewrite Hh, Hl. auto.
  - rewrite Hh. auto.
  - rewrite Hh. auto.
  - rewrite Hh, Hl. auto.
Qed.

Lemma head_token_exists (u : Z) (s : ustring) :
  exists t s', head_token (u :: s) t s'.
Proof.
  destruct (isHighSurrogate u) eqn:Hh.
  - destruct s as [|v s].
    + eexists. eexists. apply head_lone_last. exact Hh.
    + destruct (isLowSurrogate v) eqn:Hl.
      * eexists. eexists. apply head_pair; assumption.
      * eexists. eexists. apply head_lone; assumption.
  - eexists. eexists. apply head_unit. exact Hh.
Qed.

Lemma tokens_cons_inv (s : ustring) (t : token) (X : list token) :
  tokens s = t :: X -> exists s', head_token s t s' /\ X = tokens s'.
Proof.
  destruct s as [|u s]; [discriminate|].
  destruct (head_token_exists u s) as (t' & s' & H).
  destruct (head_token_tokens _ _ _ H) as [Ht _].
  rewrite Ht. intros [= <- <-]. exists s'. auto.
Qed.

(** Reading the text of a suffix of a reading gives that suffix. *)
Lemma tokens_suffix (A : list token) :
  forall s B, tokens s = A ++ B -> tokens (cat B) = B.
Proof.
  induction A as [|t A IH]; intros s B H.
  - cbn in H. rewrite <- H, cat_tokens. reflexivity.
  - cbn in H. apply tokens_cons_inv in H. destruct H as (s' & _ & H).
    apply (IH s'). symmetry. exact H.
Qed.

(** And so does reading the text of a prefix. *)
Lemma tokens_prefix (A : list token) :
  forall s B, tokens s = A ++ B -> tokens (cat A) = A.
Proof.
  induction A as [|t A IH]; intros s B H; [reflexivity|].
  cbn in H. apply tokens_cons_inv in H. destruct H as (s' & Hh & H).
  symmetry in H. pose proof (IH s' B H) as IHA.
  assert (Hs' : s' = cat A ++ cat B).
  { rewrite <- cat_app, <- H, cat_tokens. reflexivity. }
  change (cat (t :: A)) with (snd t ++ cat A).
  assert (Hhead : head_token (snd t ++ cat A) t (cat A)).
  { destruct Hh as [hi lo s Hhi Hlo|u s Hu|u Hu|u v s Hu Hv]; cbn [snd app].
    - apply head_pair; assumption.
    - apply head_unit; assumption.
    - destruct (cat A) as [|x y]; [|destruct (cat B); discriminate].
      apply head_lone_last. exact Hu.
    - destruct (cat A) as [|x y] eqn:HcA.
      + apply head_lone_last. exact Hu.
      + cbn in Hs'. injection Hs' as <- _. apply head_lone; assumption. }
  apply head_token_tokens in Hhead. destruct Hhead as [Ht _].
  rewrite Ht, IHA. reflexivity.
Qed.

Lemma tokens_block (s : ustring) (A T B : list token) :
  tokens s = A ++ T ++ B -> tokens (cat T) = T.
Proof.
  intros H. apply tokens_suffix in H. apply tokens_prefix in H. exact H.
Qed.

Lemma segmentWidth_range (code : Z) : 0 <= segmentWidth code <= 2.
Proof.
  unfold segmentWidth.
  destruct (Codes.isSurrogate code); [lia|].
  destruct (Codes.isCombining code || Codes.isControl code); [lia|].
  destruct (Codes.isFullwidth code); lia.
Qed.

Lemma skipn_nth_error (s : ustring) :
  forall i u, nth_error s i = Some u -> skipn i s = u :: skipn (S i) s.
Proof.
  induction s as [|x s IH]; intros [|i] u H; try discriminate.
  - injection H as ->. reflexivity.
  - cbn in H. apply IH in H. exact H.
Qed.

Lemma units16_nth (s : ustring) (i : nat) (u : Z) :
  units16 s -> nth_error s i = Some u -> Codes.isSurrogate u = false.
Proof.
  intros Hwf H. apply nth_error_In in H.
  unfold units16 in Hwf. rewrite Forall_forall in Hwf. apply Hwf. exact H.
Qed.

Lemma buildSegment_unit (str : ustring) (i : nat) (u : Z) :
  nth_error str i = Some u -> Codes.isSurrogate u = false ->
  buildSegment str i u = ([u], segmentWidth u, i).
Proof.
  intros Hn Hs. unfold buildSegment, segmentWidth, charAt. rewrite Hn, Hs.
  destruct (Codes.isCombining u || Codes.isControl u); [reflexivity|].
  destruct (Codes.isFullwidth u); reflexivity.
Qed.

(** The token at index [i], as the loop reads it. *)
Lemma head_token_at (str : ustring) (i : nat) :
  units16 str -> (i < length str)%nat ->
  exists (t : token) (i' : nat),
    head_token (skipn i str) t (skipn (S i') str)
    /\ codePointAt str i = Some (fst t)
    /\ buildSegment str i (fst t) = (snd t, segmentWidth (fst t), i')
    /\ (i <= i' < length str)%nat.
Proof.
  intros Hwf Hlt.
  destruct (nth_error str i) as [u|] eqn:Hu;
    [|apply nth_error_None in Hu; lia].
  pose proof (units16_nth _ _ _ Hwf Hu) as Hsu.
  pose proof (skipn_nth_error _ _ _ Hu) as Hsk.
  destruct (isHighSurrogate u) eqn:Hh.
  - destruct (nth_error str (S i)) as [v|] eqn:Hv.
    + pose proof (skipn_nth_error _ _ _ Hv) as Hsk2.
      destruct (isLowSurrogate v) eqn:Hl.
      * exists (pairValue u v, [u; v]), (S i). cbn [fst snd].
        pose proof (pairValue_astral u v Hh Hl) as Hpv.
        assert (Hsur : Codes.isSurrogate (pairValue u v) = true)
          by (apply Z.ltb_lt; lia).
        split; [rewrite Hsk, Hsk2; apply head_pair; assumption|].
        split; [apply codePointAt_pair; assumption|].
        split.
        -- unfold buildSegment, segmentWidth, charAt. rewrite Hsur, Hu, Hv.
           reflexivity.
        -- split; [lia|]. apply nth_error_Some. congruence.
      * exists (u, [u]), i. cbn [fst snd].
        split; [rewrite Hsk, Hsk2; apply head_lone; assumption|].
        split; [unfold codePointAt; rewrite Hu, Hh, Hv, Hl; reflexivity|].
        split; [apply buildSegment_unit; assumption|lia].
    + exists (u, [u]), i. cbn [fst snd].
      assert (Hend : skipn (S i) str = []).
      { apply skipn_all2. apply nth_error_None. exact Hv. }
      split; [rewrite Hsk, Hend; apply head_lone_last; assumption|].
      split; [unfold codePointAt; rewrite Hu, Hh, Hv; reflexivity|].
      split; [apply buildSegment_unit; assumption|lia].
  - exists (u, [u]), i. cbn [fst snd].
    split; [rewrite Hsk; apply head_unit; assumption|].
    split; [unfold codePointAt; rewrite Hu, Hh; reflexivity|].
    split; [apply buildSegment_unit; assumption|lia].
Qed.

Lemma tokens_nonempty (u : Z) (s : ustring) : tokens (u :: s) <> [].
Proof.
  destruct (head_token_exists u s) as (t & s' & H).
  apply head_token_tokens in H. destruct H as [H _]. rewrite H. discriminate.
Qed.

Lemma more_after_skipn (str : ustring) (i : nat) :
  (i < length str)%nat ->
  more_after (tokens (skipn (S i) str)) = (i <? length str - 1)%nat.
Proof.
  intros Hi. destruct (Nat.ltb_spec i (length str - 1)) as [Hlt|Hge].
  - destruct (nth_error str (S i)) as [u|] eqn:Hu;
      [|apply nth_error_None in Hu; lia].
    rewrite (skipn_nth_error _ _ _ Hu).
    pose proof (tokens_nonempty u (skipn (S (S i)) str)) as Hne.
    destruct (tokens (u :: skipn (S (S i)) str)); [congruence|reflexivity].
  - rewrite skipn_all2 by lia. reflexivity.
Qed.

Lemma concat_map_singleton {A : Type} (f : A -> list A) (l : list A) :
  (forall x, In x l -> f x = [x]) -> concat (map f l) = l.
Proof.
  induction l as [|x l IH]; intros H; [reflexivity|].
  cbn. rewrite (H x) by (left; reflexivity). cbn. f_equal.
  apply IH. intros y Hy. apply H. right. exact Hy.
Qed.

Lemma units16_block (s : ustring) (A T B : list token) :
  units16 s -> tokens s = A ++ T ++ B -> units16 (cat T).
Proof.
  intros Hwf Ht. rewrite <- (cat_tokens s), Ht, !cat_app in Hwf.
  unfold units16 in *. apply Forall_app in Hwf. destruct Hwf as [_ Hwf].
  apply Forall_app in Hwf. apply Hwf.
Qed.

(** C5 as stated fails: a red background, "ab-cd", at width 3. The first
    line is flushed after the dash and closed with [ESC[49m]; wrapped
    again, the dash is no longer the last character of its text, so the
    line is flushed after the dash once more and the closing sequence makes
    a line of its own. *)
Lemma rewrap_not_idempotent :
  @breakLines SpecRegexes.regexes
    (@breakLine SpecRegexes.regexes (bg41 ++ utf16 "ab-cd") (NInt 3) None)
    (NInt 3)
  <> @breakLine SpecRegexes.regexes (bg41 ++ utf16 "ab-cd") (NInt 3) None.
Proof. vm_compute. discriminate. Qed.

Lemma rewrap_not_idempotent_lines :
  @breakLine SpecRegexes.regexes (bg41 ++ utf16 "ab-cd") (NInt 3) None
  = [bg41 ++ utf16 "ab-" ++ BG_CLOSE; bg41 ++ utf16 "cd" ++ BG_CLOSE]
  /\ @breakLines SpecRegexes.regexes
       [bg41 ++ utf16 "ab-" ++ BG_CLOSE; bg41 ++ utf16 "cd" ++ BG_CLOSE]
       (NInt 3)
     = [bg41 ++ utf16 "ab-" ++ BG_CLOSE; bg41 ++ BG_CLOSE;
        bg41 ++ utf16 "cd" ++ BG_CLOSE].
Proof. split; vm_compute; reflexivity. Qed.

(** * Further properties *)

(** ** The code point predicates *)

Lemma control_not_wide (cp : Z) :
  Codes.isControl cp = true ->
  Codes.isCombining cp = false /\ Codes.isFullwidth cp = false
  /\ Codes.isSurrogate cp = false.
Proof.
  unfold Codes.isControl, Codes.isCombining, Codes.isFullwidth,
    Codes.isSurrogate.
  intros H. bool_to_prop. lia.
Qed.

Lemma combining_not_wide (cp : Z) :
  Codes.isCombining cp = true ->
  Codes.isControl cp = false /\ Codes.isFullwidth cp = false
  /\ Codes.isSurrogate cp = false.
Proof.
  unfold Codes.isControl, Codes.isCombining, Codes.isFullwidth,
    Codes.isSurrogate.
  intros H. bool_to_prop. lia.
Qed.

Lemma breakingSpace_classes (cp : Z) :
  Codes.isBreakingSpace cp = true ->
  Codes.isNonBreakingSpace cp = false /\ Codes.isBreakingDash cp = false
  /\ Codes.isControl cp = false /\ Codes.isCombining cp = false
  /\ Codes.isSurrogate cp = false.
Proof.
  unfold Codes.isBreakingSpace, Codes.isNonBreakingSpace, Codes.isBreakingDash,
    Codes.isControl, Codes.isCombining, Codes.isSurrogate.
  intros H. bool_to_prop. lia.
Qed.

Lemma breakingDash_classes (cp : Z) :
  Codes.isBreakingDash cp = true ->
  Codes.isBreakingSpace cp = false /\ Codes.isNonBreakingSpace cp = false
  /\ Codes.isControl cp = false /\ Codes.isCombining cp = false.
Proof.
  unfold Codes.isBreakingSpace, Codes.isNonBreakingSpace, Codes.isBreakingDash,
    Codes.isControl, Codes.isCombining.
  intros H. bool_to_prop. lia.
Qed.

Lemma segmentWidth_buildSegment (str : ustring) (i : nat) (cp : Z) :
  snd (fst (buildSegment str i cp)) = segmentWidth cp
  /\ snd (buildSegment str i cp) = if Codes.isSurrogate cp then S i else i.
Proof.
  unfold buildSegment, segmentWidth.
  destruct (Codes.isSurrogate cp); [auto|].
  destruct (Codes.isCombining cp || Codes.isControl cp); [auto|].
  destruct (Codes.isFullwidth cp); auto.
Qed.

Lemma widthLoop_step (str : ustring) (i : nat) (cp : Z) (fuel : nat) (width : Z) :
  codePointAt str i = Some cp ->
  widthLoop (S fuel) str i width
  = widthLoop fuel str (S (if Codes.isSurrogate cp then S i else i))
      (width + contribution cp).
Proof.
  intros Hc.
  assert (Hlt : (i <? length str)%nat = true).
  { apply Nat.ltb_lt. apply nth_error_Some. unfold codePointAt in Hc.
    destruct (nth_error str i); [discriminate|discriminate Hc]. }
  cbn [widthLoop]. rewrite Hlt, Hc. unfold contribution.
  destruct (Codes.isControl cp) eqn:Hctl.
  - destruct (control_not_wide cp Hctl) as (_ & _ & ->).
    rewrite Z.add_0_r. reflexivity.
  - destruct (Codes.isCombining cp) eqn:Hcmb.
    + destruct (combining_not_wide cp Hcmb) as (_ & _ & ->).
      rewrite Z.add_0_r. reflexivity.
    + destruct (Codes.isSurrogate cp); f_equal; lia.
Qed.

Lemma contribution_segmentWidth (cp : Z) :
  contribution cp
  = segmentWidth cp
    + (if Codes.isSurrogate cp && Codes.isFullwidth cp then 1 else 0).
Proof.
  unfold contribution, segmentWidth.
  destruct (Codes.isControl cp) eqn:Hctl.
  - destruct (control_not_wide cp Hctl) as (-> & -> & ->). reflexivity.
  - destruct (Codes.isCombining cp) eqn:Hcmb.
    + destruct (combining_not_wide cp Hcmb) as (_ & -> & ->). reflexivity.
    + cbn [orb]. destruct (Codes.isSurrogate cp), (Codes.isFullwidth cp);
        reflexivity.
Qed.

(** X1: [breakLine] and [stringWidth] measure a code point alike up to
    0xFFFF. At a code point [cp] read by [codePointAt], the loop of
    [stringWidth] adds [contribution cp] and [buildSegment] gives the
    segment the width [segmentWidth cp]; the two are equal unless [cp] is
    above 0xFFFF and fullwidth, where [stringWidth] counts 3 and
    [breakLine] counts 2. *)
Theorem width_measures_agree (str : ustring) (i : nat) (cp : Z) (fuel : nat)
    (width : Z) :
  codePointAt str i = Some cp ->
  widthLoop (S fuel) str i width
  = widthLoop fuel str (S (if Codes.isSurrogate cp then S i else i))
      (width + contribution cp)
  /\ snd (fst (buildSegment str i cp)) = segmentWidth cp
  /\ (Codes.isSurrogate cp = false -> contribution cp = segmentWidth cp)
  /\ (Codes.isSurrogate cp = true -> Codes.isFullwidth cp = false ->
      contribution cp = 2 /\ segmentWidth cp = 2)
  /\ (Codes.isSurrogate cp = true -> Codes.isFullwidth cp = true ->
      contribution cp = 3 /\ segmentWidth cp = 2).
Proof.
  intros Hc. split; [apply widthLoop_step; exact Hc|].
  split; [apply segmentWidth_buildSegment|].
  pose proof (contribution_segmentWidth cp) as H.
  repeat split.
  - intros Hs. rewrite H, Hs. cbn. lia.
  - rewrite H, H0, H1. unfold segmentWidth. rewrite H0. reflexivity.
  - unfold segmentWidth. rewrite H0. reflexivity.
  - rewrite H, H0, H1. unfold segmentWidth. rewrite H0. reflexivity.
  - unfold segmentWidth. rewrite H0. reflexivity.
Qed.

Lemma width_measures_agree_witness :
  widthLoop 2 [0xD840; 0xDC00] 0 0 = widthLoop 1 [0xD840; 0xDC00] 2 (0 + 3)
  /\ snd (fst (buildSegment [0xD840; 0xDC00] 0 0x20000)) = 2.
Proof.
  pose proof (width_measures_agree [0xD840; 0xDC00] 0%nat 0x20000 1%nat 0
                eq_refl) as (Hloop & Hseg & _ & _ & Hwide).
  destruct (Hwide eq_refl eq_refl) as [Hc Hs]. split.
  - rewrite Hloop, Hc. reflexivity.
  - rewrite Hseg. exact Hs.
Defined.

(** X2: the code points at which [breakLine] may break. A breaking space
    is never a non-breaking space nor a breaking dash, no word-breaking code
    point is a control or combining character, and so [breakLine] gives
    each of them the width 1 or 2, never 0. *)
Theorem wordBreaking_has_width (cp : Z) :
  Codes.isWordBreaking cp = true ->
  (Codes.isBreakingSpace cp = true ->
   Codes.isNonBreakingSpace cp = false /\ Codes.isBreakingDash cp = false)
  /\ Codes.isNonBreakingSpace cp = false
  /\ Codes.isControl cp = false /\ Codes.isCombining cp = false
  /\ 1 <= segmentWidth cp <= 2.
Proof.
  unfold Codes.isWordBreaking. intros H. apply orb_true_iff in H.
  assert (Hz : Codes.isNonBreakingSpace cp = false
               /\ Codes.isControl cp = false /\ Codes.isCombining cp = false).
  { destruct H as [H|H].
    - destruct (breakingSpace_classes cp H) as (? & ? & ? & ? & ?). auto.
    - destruct (breakingDash_classes cp H) as (? & ? & ? & ?). auto. }
  destruct Hz as (Hn & Hctl & Hcmb).
  split; [|split; [exact Hn|split; [exact Hctl|split; [exact Hcmb|]]]].
  - intros Hs. destruct (breakingSpace_classes cp Hs) as (? & ? & _). auto.
  - unfold segmentWidth. rewrite Hctl, Hcmb. cbn [orb].
    destruct (Codes.isSurrogate cp); [lia|].
    destruct (Codes.isFullwidth cp); lia.
Qed.

Lemma wordBreaking_has_width_witness :
  Codes.isNonBreakingSpace 0x3000 = false /\ Codes.isBreakingDash 0x3000 = false
  /\ 1 <= segmentWidth 0x3000 <= 2.
Proof.
  pose proof (wordBreaking_has_width 0x3000 eq_refl)
    as (Hsp & _ & _ & _ & Hw).
  destruct (Hsp eq_refl) as [Hn Hd]. auto.
Defined.

(** ** [stringWidth] on the tokens of the text *)

Lemma widthLoop_tokens (str : ustring) :
  units16 str ->
  forall (fuel i : nat) (width : Z),
  (length str - i <= fuel)%nat -> (i <= length str)%nat ->
  widthLoop fuel str i width
  = Some (width + tokensWidth (tokens (skipn i str))).
Proof.
  intros Hwf. induction fuel as [|fuel IH]; intros i width Hf Hi.
  - assert (i = length str) by lia. subst i.
    cbn [widthLoop]. rewrite Nat.ltb_irrefl, skipn_all. cbn.
    rewrite Z.add_0_r. reflexivity.
  - destruct (Nat.ltb_spec i (length str)) as [Hlt|Hge].
    + destruct (head_token_at str i Hwf Hlt) as (t & i' & Hh & Hc & Hb & Hr).
      rewrite (widthLoop_step _ _ _ _ _ Hc).
      destruct (segmentWidth_buildSegment str i (fst t)) as [_ Hnext].
      rewrite Hb in Hnext. cbn [snd] in Hnext. rewrite <- Hnext.
      rewrite IH by lia.
      apply head_token_tokens in Hh. destruct Hh as [Ht _]. rewrite Ht.
      cbn [tokensWidth fold_right]. f_equal. unfold tokensWidth. lia.
    + assert (i = length str) by lia. subst i.
      cbn [widthLoop]. rewrite Nat.ltb_irrefl, skipn_all. cbn.
      rewrite Z.add_0_r. reflexivity.
Qed.

Section StringWidthTokens.

Context {R : Regexes}.

Lemma stringWidth_tokensWidth (s : ustring) :
  s <> [] -> units16 (stripAnsi s) ->
  stringWidth (JString s) = tokensWidth (tokens (stripAnsi s)).
Proof.
  intros Hne Hwf. unfold stringWidth.
  destruct s as [|u s]; [congruence|]. cbn [length Nat.eqb].
  destruct (stripAnsi (u :: s)) as [|v s'] eqn:Hs; [reflexivity|].
  cbn [length Nat.eqb].
  rewrite (widthLoop_tokens _ Hwf) by (cbn; lia). reflexivity.
Qed.

End StringWidthTokens.

Lemma contribution_range (cp : Z) :
  0 <= contribution cp <= 3
  /\ (Codes.isSurrogate cp = false -> contribution cp <= 2).
Proof.
  unfold contribution.
  destruct (Codes.isControl cp); [split; [lia|intros; lia]|].
  destruct (Codes.isCombining cp); [split; [lia|intros; lia]|].
  destruct (Codes.isSurrogate cp), (Codes.isFullwidth cp);
    (split; [lia|intros; try discriminate; lia]).
Qed.

Lemma tokensWidth_bound (s : ustring) :
  units16 s -> 0 <= tokensWidth (tokens s) <= 2 * Z.of_nat (length s).
Proof.
  induction s as [|u s IH1 IH2] using ustring_ind2; intros Hwf; [cbn; lia|].
  unfold units16 in *. apply Forall_cons_iff in Hwf. destruct Hwf as [Hu Hwf].
  specialize (IH1 Hwf). cbn [tokens].
  destruct (contribution_range u) as [Hr Hr2]. specialize (Hr2 Hu).
  destruct (isHighSurrogate u).
  - destruct s as [|lo s2]; [cbn; lia|].
    destruct (isLowSurrogate lo).
    + apply Forall_cons_iff in Hwf. destruct Hwf as [_ Hwf2].
      specialize (IH2 lo s2 eq_refl Hwf2).
      destruct (contribution_range (pairValue u lo)) as [Hp _].
      cbn [tokensWidth fold_right fst length] in *.
      unfold tokensWidth in IH2. lia.
    + cbn [tokensWidth fold_right fst length] in *.
      unfold tokensWidth in IH1. lia.
  - cbn [tokensWidth fold_right fst length] in *.
    unfold tokensWidth in IH1. lia.
Qed.

Lemma tokens_ascii (s : ustring) :
  Forall (fun u => 0x20 <= u <= 0x7E) s ->
  tokensWidth (tokens s) = Z.of_nat (length s).
Proof.
  induction 1 as [|u s Hu Hs IH]; [reflexivity|].
  cbn [tokens].
  assert (Hh : isHighSurrogate u = false).
  { unfold isHighSurrogate. apply andb_false_iff. left. apply Z.leb_gt. lia. }
  rewrite Hh. cbn [tokensWidth fold_right fst length].
  unfold tokensWidth in IH. rewrite IH.
  assert (Hc : contribution u = 1).
  { unfold contribution, Codes.isControl, Codes.isCombining, Codes.isSurrogate,
      Codes.isFullwidth.
    replace (u <=? 31) with false by (symmetry; apply Z.leb_gt; lia).
    replace (127 <=? u) with false by (symmetry; apply Z.leb_gt; lia).
    replace (768 <=? u) with false by (symmetry; apply Z.leb_gt; lia).
    replace (65535 <? u) with false by (symmetry; apply Z.ltb_ge; lia).
    replace (4352 <=? u) with false by (symmetry; apply Z.leb_gt; lia).
    reflexivity. }
  rewrite Hc. lia.
Qed.

Lemma tokensWidth_app (A B : list token) :
  tokensWidth (A ++ B) = tokensWidth A + tokensWidth B.
Proof.
  induction A as [|t A IH]; [reflexivity|].
  unfold tokensWidth in *. cbn [app fold_right]. rewrite IH. lia.
Qed.

Lemma joinsPair_tail (u v : Z) (s b : ustring) :
  joinsPair (u :: v :: s) b = joinsPair (v :: s) b.
Proof. destruct b; reflexivity. Qed.

Lemma joinsPair_drop (v : Z) (s b : ustring) :
  joinsPair (v :: s) b = false -> joinsPair s b = false.
Proof.
  destruct s as [|x s]; [|rewrite joinsPair_tail; auto].
  intros _. destruct b; [reflexivity|]. cbn. apply andb_false_r.
Qed.

(** Reading a text made of two parts is reading the parts, unless the seam
    makes a surrogate pair. *)
Lemma tokens_app (a : ustring) :
  forall b, joinsPair a b = false -> tokens (a ++ b) = tokens a ++ tokens b.
Proof.
  induction a as [|u s IH1 IH2] using ustring_ind2; intros b Hj; [reflexivity|].
  destruct s as [|v s'].
  - cbn [app tokens]. destruct (isHighSurrogate u) eqn:Hh; [|reflexivity].
    destruct b as [|lo b']; [reflexivity|].
    cbn in Hj. rewrite Hh, andb_true_r in Hj. rewrite Hj. reflexivity.
  - rewrite joinsPair_tail in Hj.
    change ((u :: v :: s') ++ b) with (u :: v :: (s' ++ b)).
    destruct (isHighSurrogate u) eqn:Hh; [destruct (isLowSurrogate v) eqn:Hl|].
    + rewrite (proj1 (head_token_tokens _ _ _ (head_pair u v (s' ++ b) Hh Hl))).
      rewrite (proj1 (head_token_tokens _ _ _ (head_pair u v s' Hh Hl))).
      rewrite (IH2 v s' eq_refl b (joinsPair_drop _ _ _ Hj)). reflexivity.
    + rewrite (proj1 (head_token_tokens _ _ _ (head_lone u v (s' ++ b) Hh Hl))).
      rewrite (proj1 (head_token_tokens _ _ _ (head_lone u v s' Hh Hl))).
      change (v :: s' ++ b) with ((v :: s') ++ b).
      rewrite (IH1 b Hj). reflexivity.
    + rewrite (proj1 (head_token_tokens _ _ _ (head_unit u (v :: s' ++ b) Hh))).
      rewrite (proj1 (head_token_tokens _ _ _ (head_unit u (v :: s') Hh))).
      change (v :: s' ++ b) with ((v :: s') ++ b).
      rewrite (IH1 b Hj). reflexivity.
Qed.

Section StringWidthLaws.

Context {R : Regexes}.

Lemma stringWidth_plain (s : ustring) :
  stripAnsi s = s -> units16 s ->
  stringWidth (JString s) = tokensWidth (tokens s).
Proof.
  intros Hs Hwf. destruct s as [|u s]; [reflexivity|].
  rewrite stringWidth_tokensWidth; rewrite ?Hs; [reflexivity|discriminate|exact Hwf].
Qed.

(** X3: the width [stringWidth] returns is never negative and never more
    than two columns per code unit of the text left by [stripAnsi] (a
    JavaScript string: every code unit at most 0xFFFF). *)
Theorem stringWidth_bounds (s : ustring) :
  units16 (stripAnsi s) ->
  0 <= stringWidth (JString s) <= 2 * Z.of_nat (length (stripAnsi s)).
Proof.
  intros Hwf. destruct s as [|u s];
    [unfold stringWidth; cbn [length Nat.eqb]; lia|].
  rewrite stringWidth_tokensWidth by (try discriminate; exact Hwf).
  apply tokensWidth_bound. exact Hwf.
Qed.

(** X4: a text of printable ASCII characters that holds no escape sequence
    ([stripAnsi] leaves it as it is) is as wide as it is long. *)
Theorem stringWidth_ascii (s : ustring) :
  Forall (fun u => 0x20 <= u <= 0x7E) s ->
  stripAnsi s = s ->
  stringWidth (JString s) = Z.of_nat (length s).
Proof.
  intros Ha Hs. rewrite stringWidth_plain; [apply tokens_ascii; exact Ha|exact Hs|].
  unfold units16. eapply Forall_impl; [|exact Ha].
  cbn. intros u Hu. apply Z.ltb_ge. lia.
Qed.

(** X5: [stringWidth] adds up over concatenation: for two texts without
    escape sequences, whose concatenation has none either and does not join
    a high surrogate at the end of the first to a low surrogate at the start
    of the second, the width of the concatenation is the sum of the
    widths. *)
Theorem stringWidth_concat (a b : ustring) :
  stripAnsi a = a -> stripAnsi b = b -> stripAnsi (a ++ b) = a ++ b ->
  units16 a -> units16 b -> joinsPair a b = false ->
  stringWidth (JString (a ++ b))
  = stringWidth (JString a) + stringWidth (JString b).
Proof.
  intros Ha Hb Hab Hwa Hwb Hj.
  rewrite !stringWidth_plain; try assumption.
  - rewrite tokens_app by exact Hj. apply tokensWidth_app.
  - unfold units16 in *. apply Forall_app. auto.
Qed.

End StringWidthLaws.

Lemma stringWidth_bounds_witness :
  0 <= @stringWidth SpecRegexes.regexes (JString (bg41 ++ [0x4E2D; 0x301; 0x61]))
  <= 2 * Z.of_nat
         (length (@stripAnsi SpecRegexes.regexes (bg41 ++ [0x4E2D; 0x301; 0x61]))).
Proof.
  apply (@stringWidth_bounds SpecRegexes.regexes). vm_compute. repeat constructor.
Defined.

Lemma stringWidth_ascii_witness :
  @stringWidth SpecRegexes.regexes (JString (utf16 "hello, world")) = 12.
Proof.
  apply (@stringWidth_ascii SpecRegexes.regexes (utf16 "hello, world")).
  - vm_compute. repeat constructor; discriminate.
  - vm_compute. reflexivity.
Defined.

Lemma stringWidth_concat_witness :
  @stringWidth SpecRegexes.regexes (JString ([0x4E2D; 0xD83D] ++ [0x61; 0xDE00]))
  = @stringWidth SpecRegexes.regexes (JString [0x4E2D; 0xD83D])
    + @stringWidth SpecRegexes.regexes (JString [0x61; 0xDE00]).
Proof.
  apply (@stringWidth_concat SpecRegexes.regexes);
    try (vm_compute; reflexivity); vm_compute; repeat constructor.
Defined.

(** ** The loop of [breakLine] without escape runs, on tokens *)

Section WrapSimulation.

Context {R : Regexes}.
Variables (str : ustring) (w tol : Z) (trim : bool).
Hypothesis str_units16 : units16 str.

Lemma scanChar_wrap (st : state) :
  PlainSt st -> (index st < length str)%nat ->
  exists (t : token) (i' : nat),
    head_token (skipn (index st) str) t (skipn (S i') str)
    /\ (i' < length str)%nat
    /\ PlainSt (scanChar str w tol trim st)
    /\ index (scanChar str w tol trim st) = i'
    /\ wrapOf (scanChar str w tol trim st)
       = wrapStep w tol trim (i' <? length str - 1)%nat t (wrapOf st).
Proof using str_units16.
  intros [Ha Hbg] Hlt.
  destruct (head_token_at str (index st) str_units16 Hlt)
    as (t & i' & Hh & Hc & Hb & Hr).
  exists t, i'. split; [exact Hh|]. split; [lia|].
  unfold scanChar. rewrite Hc. destruct t as [code seg]. cbn [fst snd] in *.
  unfold wrapStep, wrapOf. cbn [fst snd used].
  destruct (code =? 10) eqn:Hnl.
  - apply Z.eqb_eq in Hnl. subst code.
    unfold buildSegment in Hb.
    change (Codes.isSurrogate 10) with false in Hb.
    change (Codes.isCombining 10 || Codes.isControl 10) with true in Hb.
    cbn iota in Hb. apply (f_equal snd) in Hb. cbn [snd] in Hb. subst i'.
    unfold PlainSt, push, wpush. cbn. rewrite Hbg. cbn. rewrite app_nil_r. auto.
  - rewrite Hb. unfold breakBefore. cbn [lineWidth setIndex].
    destruct (lineWidth st + segmentWidth code >? w) eqn:Hgt.
    + destruct (Codes.isBreakingSpace code), trim,
        (lineWidth st + segmentWidth code >? w + tol);
        unfold dashBreak, wdash, wappend, wpush, appendSegment, push, PlainSt;
        cbn -[Nat.ltb Nat.sub Z.add]; rewrite ?Hbg; cbn -[Nat.ltb Nat.sub Z.add];
        match goal with
        | |- context [(?a >=? w) && (i' <? length str - 1)%nat] =>
            destruct (a >=? w), (i' <? length str - 1)%nat,
              (Codes.isBreakingDash code)
        end;
        cbn -[Nat.ltb Nat.sub Z.add]; rewrite ?Hbg, ?app_nil_r; auto.
    + unfold dashBreak, wdash, wappend, wpush, appendSegment, push, PlainSt.
      cbn -[Nat.ltb Nat.sub Z.add]. rewrite ?Hbg.
      destruct (lineWidth st + segmentWidth code >=? w),
        (i' <? length str - 1)%nat, (Codes.isBreakingDash code);
        cbn -[Nat.ltb Nat.sub Z.add]; rewrite ?Hbg, ?app_nil_r; auto.
Qed.

Lemma loop_wrap (fuel : nat) :
  forall st fin,
  PlainSt st -> (index st <= length str)%nat ->
  loop str w tol trim fuel st = Some fin ->
  wrapOf (push fin)
  = wrapRun w tol trim (tokens (skipn (index st) str)) (wrapOf st).
Proof using str_units16.
  induction fuel as [|fuel IH]; intros st fin Hp Hle; cbn [loop];
    destruct (Nat.ltb_spec (index st) (length str)) as [Hlt|Hge];
    try discriminate.
  - intros [= <-]. rewrite skipn_all2 by lia. destruct Hp as [_ Hbg].
    unfold wrapOf, push, wpush. cbn. rewrite Hbg, app_nil_r. reflexivity.
  - unfold iter, scanAnsi. rewrite (proj1 Hp).
    destruct (scanChar_wrap st Hp Hlt) as (t & i' & Hh & Hi & Hp' & Hidx & Hv).
    intros Hl. apply IH in Hl.
    + rewrite Hl. apply head_token_tokens in Hh. destruct Hh as [Ht _].
      rewrite Ht. cbn [wrapRun]. rewrite (more_after_skipn str i' Hi), <- Hv.
      unfold advance. cbn [index setIndex]. rewrite Hidx. reflexivity.
    + exact Hp'.
    + unfold advance. cbn [index setIndex]. lia.
  - intros [= <-]. rewrite skipn_all2 by lia. destruct Hp as [_ Hbg].
    unfold wrapOf, push, wpush. cbn. rewrite Hbg, app_nil_r. reflexivity.
Qed.

End WrapSimulation.

Section WrapRun.

Context {R : Regexes}.

(** With nothing for the escape scanner to find, the lines of [breakLine]
    and the widths recorded for them are those of the run on the tokens of
    the normalised text. *)
Lemma breakLine_wrapRun (s : ustring) (w : Z) (opts : option Opts.t) :
  s <> [] -> 2 <= w ->
  ansi_consec_match (lineBreak_replace s) = None ->
  units16 (lineBreak_replace s) ->
  exists fin,
    run (lineBreak_replace s) w (toleranceOf opts) (trimBreakOf opts) = Some fin
    /\ breakLine s (NInt w) opts = lines fin
    /\ wrapOf fin
       = wrapRun w (toleranceOf opts) (trimBreakOf opts)
           (tokens (lineBreak_replace s)) wrapStart.
Proof.
  intros Hne Hw Ha Hwf.
  set (str := lineBreak_replace s) in *.
  destruct (loop_total str w (toleranceOf opts) (trimBreakOf opts) (length str)
              plainInitial) as [fin Hfin]; [lia|].
  exists (push fin).
  assert (Hrun : run str w (toleranceOf opts) (trimBreakOf opts)
                 = Some (push fin)).
  { rewrite (run_plain str _ _ _ Ha), Hfin. reflexivity. }
  split; [exact Hrun|]. split.
  - unfold breakLine. destruct s as [|u s']; [congruence|].
    replace (number_ltZ (NInt w) 2) with false
      by (symmetry; apply Z.ltb_ge; exact Hw).
    cbn [length Nat.eqb Number_isInteger negb orb number_toZ].
    fold str. rewrite Hrun. reflexivity.
  - apply (loop_wrap str w _ _ Hwf _ _ _) in Hfin.
    + exact Hfin.
    + split; reflexivity.
    + cbn. lia.
Qed.

End WrapRun.

(** *** What the run keeps of the text *)

Lemma content_wpush (v : wrapped) :
  concat (flushed (wpush v)) = content v /\ content (wpush v) = content v.
Proof.
  unfold content, wpush. cbn. rewrite concat_app. cbn.
  rewrite !app_nil_r. auto.
Qed.

Lemma content_wappend (v : wrapped) (seg : ustring) (sw : Z) :
  content (wappend v seg sw) = content v ++ seg.
Proof. unfold content, wappend. cbn. rewrite app_assoc. reflexivity. Qed.

Lemma content_wdash (w : Z) (more : bool) (t : token) (v : wrapped) :
  content (wdash w more t v) = content v.
Proof.
  unfold wdash.
  destruct ((used v >=? w) && more && Codes.isBreakingDash (fst t));
    [apply content_wpush|reflexivity].
Qed.

Lemma content_wrapStep (w tol : Z) (more : bool) (t : token) (v : wrapped) :
  content (wrapStep w tol false more t v)
  = content v ++ (if fst t =? 0x0A then [] else snd t).
Proof.
  unfold wrapStep. destruct (fst t =? 10).
  - rewrite app_nil_r. apply content_wpush.
  - cbn [andb].
    destruct (used v + segmentWidth (fst t) >? w).
    + rewrite content_wdash, content_wappend.
      destruct (Codes.isBreakingSpace (fst t)
                || (used v + segmentWidth (fst t) >? w + tol));
        [rewrite (proj2 (content_wpush v))|]; reflexivity.
    + rewrite content_wdash, content_wappend. reflexivity.
Qed.

Lemma wrapRun_content (w tol : Z) (toks : list token) :
  forall v,
  concat (flushed (wrapRun w tol false toks v)) = content v ++ cat (kept toks).
Proof.
  induction toks as [|t rest IH]; intros v.
  - cbn [wrapRun kept filter]. rewrite (proj1 (content_wpush v)).
    unfold cat. cbn. rewrite app_nil_r. reflexivity.
  - cbn [wrapRun]. rewrite IH, content_wrapStep. cbn [kept filter].
    destruct (fst t =? 10); cbn [negb].
    + rewrite app_nil_r. reflexivity.
    + unfold cat. cbn. rewrite <- app_assoc. reflexivity.
Qed.

Lemma cat_kept_tokens (s : ustring) : cat (kept (tokens s)) = removeLF s.
Proof.
  induction s as [|u s IH1 IH2] using ustring_ind2; [reflexivity|].
  destruct (head_token_exists u s) as (t & s' & Hh).
  destruct (head_token_tokens _ _ _ Hh) as [Ht _]. rewrite Ht.
  inversion Hh as [hi lo s0 Hhi Hlo|u0 s0 Hu|u0 Hu|u0 v s0 Hu Hv]; subst.
  - pose proof (pairValue_astral u lo Hhi Hlo) as Hp.
    unfold isHighSurrogate, isLowSurrogate in Hhi, Hlo. bool_to_prop.
    cbn [kept filter fst removeLF].
    replace (pairValue u lo =? 10) with false by (symmetry; apply Z.eqb_neq; lia).
    replace (u =? 10) with false by (symmetry; apply Z.eqb_neq; lia).
    replace (lo =? 10) with false by (symmetry; apply Z.eqb_neq; lia).
    cbn [negb]. unfold cat. cbn. f_equal. f_equal.
    apply (IH2 lo s' eq_refl).
  - cbn [kept filter fst removeLF]. destruct (u =? 10); cbn [negb].
    + exact IH1.
    + unfold cat. cbn. f_equal. exact IH1.
  - cbn [kept filter fst removeLF]. destruct (u =? 10); reflexivity.
  - cbn [kept filter fst]. change (removeLF (u :: v :: s0))
      with (if negb (u =? 10) then u :: removeLF (v :: s0) else removeLF (v :: s0)).
    destruct (u =? 10); cbn [negb].
    + exact IH1.
    + unfold cat. cbn. f_equal. exact IH1.
Qed.

(** *** The lines the run pushes *)

Lemma segSum_app (A B : list token) : segSum (A ++ B) = segSum A + segSum B.
Proof.
  induction A as [|t A IH]; [reflexivity|].
  unfold segSum in *. cbn [app fold_right]. rewrite IH. lia.
Qed.

Lemma segSum_nonneg (T : list token) : 0 <= segSum T.
Proof.
  induction T as [|t T IH]; [cbn; lia|].
  unfold segSum in *. cbn [fold_right].
  pose proof (segmentWidth_range (fst t)). lia.
Qed.

Lemma cat_snoc (T : list token) (t : token) : cat (T ++ [t]) = cat T ++ snd t.
Proof. rewrite cat_app. unfold cat. cbn. rewrite app_nil_r. reflexivity. Qed.

Section WrapInvariant.

Variables (all : list token) (w tol : Z) (trim : bool).

Lemma LineOK_buffer (A T rest : list token) (v : wrapped) :
  all = A ++ T ++ rest -> buffer v = cat T -> used v = segSum T ->
  Forall (fun t => (fst t =? 0x0A) = false) T ->
  LineOK all (buffer v) (used v).
Proof. intros. exists A, T, rest. auto. Qed.

Lemma WrapInv_wpush (toks : list token) (v : wrapped) :
  WrapInv all toks v -> WrapInv all toks (wpush v).
Proof.
  intros (A & T & Hall & Hb & Hu & Hnl & Hl).
  exists (A ++ T), []. cbn [wpush buffer used flushed flushedWidths app].
  split; [rewrite Hall, <- app_assoc; reflexivity|].
  split; [reflexivity|]. split; [reflexivity|]. split; [constructor|].
  apply Forall2_app; [exact Hl|]. constructor; [|constructor].
  eapply LineOK_buffer; eassumption.
Qed.

Lemma WrapInv_drop (t : token) (toks : list token) (v : wrapped) :
  WrapInv all (t :: toks) v -> WrapInv all toks (wpush v).
Proof.
  intros (A & T & Hall & Hb & Hu & Hnl & Hl).
  exists (A ++ T ++ [t]), []. cbn [wpush buffer used flushed flushedWidths app].
  split; [rewrite Hall, <- !app_assoc; reflexivity|].
  split; [reflexivity|]. split; [reflexivity|]. split; [constructor|].
  apply Forall2_app; [exact Hl|]. constructor; [|constructor].
  eapply LineOK_buffer; eassumption.
Qed.

Lemma WrapInv_wappend (t : token) (toks : list token) (v : wrapped) :
  WrapInv all (t :: toks) v -> (fst t =? 0x0A) = false ->
  WrapInv all toks (wappend v (snd t) (segmentWidth (fst t))).
Proof.
  intros (A & T & Hall & Hb & Hu & Hnl & Hl) Ht.
  exists A, (T ++ [t]). cbn [wappend buffer used flushed flushedWidths].
  split; [rewrite Hall, <- app_assoc; reflexivity|].
  split; [rewrite Hb, cat_snoc; reflexivity|].
  split; [rewrite Hu, segSum_app; unfold segSum; cbn; lia|].
  split; [|exact Hl].
  apply Forall_app. split; [exact Hnl|]. constructor; [exact Ht|constructor].
Qed.

Lemma WrapInv_wdash (more : bool) (t : token) (toks : list token)
    (v : wrapped) :
  WrapInv all toks v -> WrapInv all toks (wdash w more t v).
Proof.
  intros H. unfold wdash.
  destruct ((used v >=? w) && more && Codes.isBreakingDash (fst t));
    [apply WrapInv_wpush|]; exact H.
Qed.

Lemma WrapInv_wrapStep (more : bool) (t : token) (toks : list token)
    (v : wrapped) :
  WrapInv all (t :: toks) v ->
  WrapInv all toks (wrapStep w tol trim more t v).
Proof.
  intros H. unfold wrapStep.
  destruct (fst t =? 10) eqn:Hnl; [apply (WrapInv_drop t); exact H|].
  destruct (used v + segmentWidth (fst t) >? w);
    [|apply WrapInv_wdash, WrapInv_wappend; assumption].
  apply WrapInv_wdash.
  destruct (Codes.isBreakingSpace (fst t)); cbn [orb andb].
  - destruct trim.
    + change (wappend (wpush v) [] 0) with (wpush v).
      apply (WrapInv_drop t). exact H.
    + apply WrapInv_wappend; [apply WrapInv_wpush; exact H|exact Hnl].
  - rewrite andb_false_r.
    destruct (used v + segmentWidth (fst t) >? w + tol);
      apply WrapInv_wappend; try apply WrapInv_wpush; assumption.
Qed.

Lemma wrapRun_LineOK (toks : list token) :
  forall v,
  WrapInv all toks v ->
  Forall2 (LineOK all) (flushed (wrapRun w tol trim toks v))
    (flushedWidths (wrapRun w tol trim toks v)).
Proof.
  induction toks as [|t rest IH]; intros v H.
  - apply WrapInv_wpush in H. destruct H as (_ & _ & _ & _ & _ & _ & H).
    exact H.
  - cbn [wrapRun]. apply IH. apply WrapInv_wrapStep. exact H.
Qed.

Lemma WrapInv_start : WrapInv all all wrapStart.
Proof.
  exists [], []. cbn. repeat split; constructor.
Qed.

End WrapInvariant.

Lemma Forall2_pick {A B : Type} (P : A -> B -> Prop) (Q : B -> Prop)
    (la : list A) (lb : list B) :
  Forall2 P la lb -> Forall Q lb ->
  forall a, In a la -> exists b, P a b /\ Q b.
Proof.
  induction 1 as [|a b la lb Hab H IH]; intros HQ x Hx; [destruct Hx|].
  apply Forall_cons_iff in HQ. destruct HQ as [Hb HQ].
  destruct Hx as [<-|Hx]; [exists b; auto|apply IH; assumption].
Qed.

Lemma kept_all (T : list token) :
  Forall (fun t => (fst t =? 0x0A) = false) T -> kept T = T.
Proof.
  induction 1 as [|t T Ht H IH]; [reflexivity|].
  cbn [kept filter]. rewrite Ht. cbn [negb]. f_equal. exact IH.
Qed.

(** What a pushed line is, in terms of the text. *)
Lemma LineOK_text (s l : ustring) (k : Z) :
  LineOK (tokens s) l k ->
  textWidth l = k /\ ~ In 0x0A l /\ (units16 s -> units16 l)
  /\ (noWideAstral s -> tokensWidth (tokens l) = k).
Proof.
  intros (A & T & B & Hall & Hl & Hk & Hnl).
  pose proof (tokens_block _ _ _ _ Hall) as Htok. rewrite <- Hl in Htok.
  split; [unfold textWidth; rewrite Htok; auto|]. split; [|split].
  - assert (Hr : removeLF l = l).
    { rewrite <- cat_kept_tokens, Htok, (kept_all T Hnl). auto. }
    intros Hin. rewrite <- Hr in Hin. apply filter_In in Hin.
    destruct Hin as [_ Hin]. discriminate Hin.
  - intros Hwf. rewrite Hl. apply (units16_block _ _ _ _ Hwf Hall).
  - intros Hna. unfold noWideAstral in Hna. rewrite Hall in Hna.
    apply Forall_app in Hna. destruct Hna as [_ Hna].
    apply Forall_app in Hna. destruct Hna as [Hna _].
    rewrite Htok, Hk. clear -Hna.
    induction Hna as [|t T Ht H IH]; [reflexivity|].
    unfold tokensWidth, segSum in *. cbn [fold_right].
    rewrite IH, contribution_segmentWidth, Ht. lia.
Qed.

Section BreakLineText.

Context {R : Regexes}.

(** X6: wrapping loses nothing but line feeds. For text in which the
    escape scanner finds no run, at a valid width and without the
    [trimBreak] option (any tolerance), the lines of [breakLine] put end
    to end are the normalised text with its line feeds removed. *)
Theorem breakLine_keeps_text (s : ustring) (w : Z) (opts : option Opts.t) :
  s <> [] -> 2 <= w -> trimBreakOf opts = false ->
  ansi_consec_match (lineBreak_replace s) = None ->
  units16 (lineBreak_replace s) ->
  concat (breakLine s (NInt w) opts) = removeLF (lineBreak_replace s).
Proof.
  intros Hne Hw Htrim Ha Hwf.
  destruct (breakLine_wrapRun s w opts Hne Hw Ha Hwf) as (fin & _ & Hb & Hv).
  rewrite Hb. change (lines fin) with (flushed (wrapOf fin)).
  rewrite Hv, Htrim, wrapRun_content, cat_kept_tokens. reflexivity.
Qed.

(** The lines of [breakLine] and the widths recorded for them, as blocks
    of the tokens of the normalised text. *)
Lemma breakLine_LineOK (s : ustring) (w : Z) (opts : option Opts.t) :
  s <> [] -> 2 <= w ->
  ansi_consec_match (lineBreak_replace s) = None ->
  units16 (lineBreak_replace s) ->
  exists fin,
    run (lineBreak_replace s) w (toleranceOf opts) (trimBreakOf opts) = Some fin
    /\ breakLine s (NInt w) opts = lines fin
    /\ Forall2 (LineOK (tokens (lineBreak_replace s))) (lines fin) (widths fin).
Proof.
  intros Hne Hw Ha Hwf.
  destruct (breakLine_wrapRun s w opts Hne Hw Ha Hwf) as (fin & Hrun & Hb & Hv).
  exists fin. split; [exact Hrun|]. split; [exact Hb|].
  pose proof (wrapRun_LineOK (tokens (lineBreak_replace s)) w (toleranceOf opts)
                (trimBreakOf opts) _ _ (WrapInv_start _)) as H2.
  rewrite <- Hv in H2. exact H2.
Qed.

Lemma Forall_True {A : Type} (l : list A) : Forall (fun _ => True) l.
Proof. apply Forall_forall. auto. Qed.

(** X7: at an integer width of at least 2, for a non-empty text in which
    the escape scanner finds no run, no line of [breakLine] holds a line
    feed, whatever the options: every line feed of the normalised text ends
    a line and is dropped. (At another width [breakLine] returns the text
    as it is, line feeds included.) *)
Theorem breakLine_lines_without_LF (s : ustring) (w : Z)
    (opts : option Opts.t) :
  s <> [] -> 2 <= w ->
  ansi_consec_match (lineBreak_replace s) = None ->
  units16 (lineBreak_replace s) ->
  forall l, In l (breakLine s (NInt w) opts) -> ~ In 0x0A l.
Proof.
  intros Hne Hw Ha Hwf l Hl.
  destruct (breakLine_LineOK s w opts Hne Hw Ha Hwf) as (fin & _ & Hb & H2).
  rewrite Hb in Hl.
  destruct (Forall2_pick _ _ _ _ H2 (Forall_True _) l Hl) as (k & Hk & _).
  apply (LineOK_text _ _ _ Hk).
Qed.

(** X8: the lines fit. For text in which the escape scanner finds no run,
    at a valid width and a tolerance of at least 0, every line of
    [breakLine] has a width of at most [maxWidth + tolerance] as
    [breakLine] counts it ([textWidth]); and as [stringWidth] measures it
    too, when the text has no fullwidth code point above 0xFFFF and
    [stripAnsi] leaves the line as it is. *)
Theorem breakLine_lines_fit (s : ustring) (w : Z) (opts : option Opts.t) :
  s <> [] -> 2 <= w -> 0 <= toleranceOf opts ->
  ansi_consec_match (lineBreak_replace s) = None ->
  units16 (lineBreak_replace s) ->
  forall l, In l (breakLine s (NInt w) opts) ->
  0 <= textWidth l <= w + toleranceOf opts
  /\ (noWideAstral (lineBreak_replace s) -> stripAnsi l = l ->
      0 <= stringWidth (JString l) <= w + toleranceOf opts).
Proof.
  intros Hne Hw Ht Ha Hwf l Hl.
  destruct (breakLine_LineOK s w opts Hne Hw Ha Hwf) as (fin & Hrun & Hb & H2).
  rewrite Hb in Hl.
  destruct (WidthInv_run _ _ _ _ Hw Ht fin Hrun) as (_ & Hall & _).
  destruct (Forall2_pick _ _ _ _ H2 Hall l Hl) as (k & Hk & Hin).
  destruct (LineOK_text _ _ _ Hk) as (Htw & _ & Hu & Hsw).
  unfold within in Hin. split; [lia|].
  intros Hna Hs. rewrite stringWidth_plain by auto. rewrite (Hsw Hna). lia.
Qed.

End BreakLineText.

(** Checking the side conditions on a concrete text by evaluation. *)
Lemma units16_check (s : ustring) :
  forallb (fun u => negb (Codes.isSurrogate u)) s = true -> units16 s.
Proof.
  intros H. apply Forall_forall. intros u Hu.
  rewrite forallb_forall in H. apply negb_true_iff. exact (H u Hu).
Qed.

Lemma noWideAstral_check (s : ustring) :
  forallb (fun t => negb (Codes.isSurrogate (fst t) && Codes.isFullwidth (fst t)))
    (tokens s) = true ->
  noWideAstral s.
Proof.
  intros H. apply Forall_forall. intros t Ht.
  rewrite forallb_forall in H. apply negb_true_iff. exact (H t Ht).
Qed.

Lemma breakLine_keeps_text_witness :
  concat (@breakLine SpecRegexes.regexes
            (utf16 "ab-cd efgh" ++ [0x0D; 0x0A] ++ utf16 "ij") (NInt 3)
            (toleranceOpts 1))
  = removeLF (@lineBreak_replace SpecRegexes.regexes
                (utf16 "ab-cd efgh" ++ [0x0D; 0x0A] ++ utf16 "ij")).
Proof.
  apply (@breakLine_keeps_text SpecRegexes.regexes);
    [discriminate|lia|reflexivity|vm_compute; reflexivity|].
  apply units16_check. vm_compute. reflexivity.
Defined.

Lemma breakLine_lines_without_LF_witness :
  In (utf16 "efg")
    (@breakLine SpecRegexes.regexes
       (utf16 "ab-cd efgh" ++ [0x0D; 0x0A] ++ utf16 "ij") (NInt 3) None)
  /\ ~ In 0x0A (utf16 "efg").
Proof.
  assert (E : @breakLine SpecRegexes.regexes
                (utf16 "ab-cd efgh" ++ [0x0D; 0x0A] ++ utf16 "ij") (NInt 3) None
              = [utf16 "ab-"; utf16 "cd "; utf16 "efg"; utf16 "h"; utf16 "ij"])
    by (vm_compute; reflexivity).
  split; [rewrite E; right; right; left; reflexivity|].
  apply (@breakLine_lines_without_LF SpecRegexes.regexes
           (utf16 "ab-cd efgh" ++ [0x0D; 0x0A] ++ utf16 "ij") 3 None);
    [discriminate|lia|vm_compute; reflexivity|apply units16_check; vm_compute; reflexivity|].
  rewrite E. right. right. left. reflexivity.
Defined.

Lemma breakLine_lines_fit_witness :
  0 <= textWidth [0x4E2D; 0x61; 0x62] <= 3 + 1
  /\ 0 <= @stringWidth SpecRegexes.regexes (JString [0x4E2D; 0x61; 0x62])
     <= 3 + 1.
Proof.
  assert (E : @breakLine SpecRegexes.regexes
                ([0x4E2D] ++ utf16 "abcd") (NInt 3) (toleranceOpts 1)
              = [[0x4E2D; 0x61; 0x62]; utf16 "cd"])
    by (vm_compute; reflexivity).
  pose proof (@breakLine_lines_fit SpecRegexes.regexes
                ([0x4E2D] ++ utf16 "abcd") 3 (toleranceOpts 1)) as H.
  destruct (H ltac:(discriminate) ltac:(lia) ltac:(cbn; lia)
              ltac:(vm_compute; reflexivity)
              ltac:(apply units16_check; vm_compute; reflexivity)
              [0x4E2D; 0x61; 0x62]
              ltac:(rewrite E; left; reflexivity)) as [Ht Hs].
  split; [exact Ht|]. apply Hs.
  - apply noWideAstral_check. vm_compute. reflexivity.
  - vm_compute. reflexivity.
Defined.

(** *** Text that fits is only split at its line feeds *)

Lemma wrapRun_roomy (w tol : Z) (trim : bool) (toks : list token) :
  forall v,
  roomy w toks (used v) ->
  flushed (wrapRun w tol trim toks v)
  = flushed v ++ piecesFrom (buffer v) toks.
Proof.
  induction toks as [|t rest IH]; intros v Hr; [reflexivity|].
  cbn [wrapRun roomy piecesFrom] in *. unfold wrapStep.
  destruct (fst t =? 10).
  - rewrite IH by exact Hr. cbn. rewrite <- app_assoc. reflexivity.
  - destruct Hr as [Hlt Hr].
    replace (used v + segmentWidth (fst t) >? w) with false
      by (symmetry; rewrite Z.gtb_ltb; apply Z.ltb_ge; lia).
    unfold wdash. cbn [wappend used].
    replace (used v + segmentWidth (fst t) >=? w) with false
      by (symmetry; rewrite Z.geb_leb; apply Z.leb_gt; lia).
    cbn [andb]. rewrite IH by exact Hr. reflexivity.
Qed.

Lemma splitOn_cons {A : Type} (sep : A -> bool) (u : A) (l : list A) :
  splitOn sep (u :: l)
  = if sep u then [] :: splitOn sep l
    else (u :: hd [] (splitOn sep l)) :: tl (splitOn sep l).
Proof.
  cbn [splitOn]. destruct (sep u); [reflexivity|].
  destruct (splitOn sep l) eqn:Hs; [|reflexivity].
  destruct l as [|x l]; cbn in Hs; [discriminate|].
  destruct (sep x); [discriminate|destruct (splitOn sep l); discriminate].
Qed.

Lemma splitOn_hd_tl {A : Type} (sep : A -> bool) (l : list A) :
  splitOn sep l = hd [] (splitOn sep l) :: tl (splitOn sep l).
Proof.
  destruct l as [|u l]; [reflexivity|].
  rewrite splitOn_cons. destruct (sep u); reflexivity.
Qed.

Lemma splitOn_none {A : Type} (sep : A -> bool) (l : list A) :
  Forall (fun u => sep u = false) l -> splitOn sep l = [l].
Proof.
  induction 1 as [|u l Hu _ IH]; [reflexivity|].
  rewrite splitOn_cons, Hu, IH. reflexivity.
Qed.

Lemma splitOn_pieces {A : Type} (sep : A -> bool) (l : list A) :
  Forall (fun p => Forall (fun u => sep u = false /\ In u l) p) (splitOn sep l).
Proof.
  induction l as [|u l IH]; [repeat constructor|].
  assert (IH' : Forall (fun p => Forall (fun x => sep x = false /\ In x (u :: l)) p)
                  (splitOn sep l)).
  { eapply Forall_impl; [|exact IH]. intros p Hp.
    eapply Forall_impl; [|exact Hp]. intros x [H1 H2]. split; [exact H1|].
    right. exact H2. }
  rewrite splitOn_cons. rewrite (splitOn_hd_tl sep l) in IH'.
  inversion IH' as [|p ps Hp Hps]; subst.
  destruct (sep u) eqn:Hu.
  - constructor; [constructor|]. rewrite (splitOn_hd_tl sep l).
    constructor; assumption.
  - constructor; [|exact Hps]. constructor; [|exact Hp].
    split; [exact Hu|left; reflexivity].
Qed.

Lemma concat_splitOn {A : Type} (sep : A -> bool) (l : list A) :
  concat (splitOn sep l) = filter (fun u => negb (sep u)) l.
Proof.
  induction l as [|u l IH]; [reflexivity|].
  rewrite splitOn_cons. cbn [filter]. rewrite <- IH.
  destruct (sep u); cbn [negb]; [reflexivity|].
  rewrite (splitOn_hd_tl sep l) at 3. reflexivity.
Qed.

Lemma joinLF_cons (l : ustring) (ls : list ustring) :
  ls <> [] -> joinLF (l :: ls) = l ++ 0x0A :: joinLF ls.
Proof. destruct ls; [congruence|reflexivity]. Qed.

Lemma splitLF_nonempty (s : ustring) : splitLF s <> [].
Proof. unfold splitLF. rewrite splitOn_hd_tl. discriminate. Qed.

(** Splitting at line feeds and joining with line feeds gives the text
    back. *)
Lemma joinLF_splitLF (s : ustring) : joinLF (splitLF s) = s.
Proof.
  induction s as [|u s IH]; [reflexivity|].
  unfold splitLF in *. rewrite splitOn_cons.
  destruct (u =? 10) eqn:Hu.
  - apply Z.eqb_eq in Hu. subst u.
    rewrite joinLF_cons by apply splitLF_nonempty. rewrite IH. reflexivity.
  - destruct (splitOn (fun u => u =? 10) s) as [|h ts];
      [cbn in *; rewrite <- IH; reflexivity|].
    cbn [hd tl]. rewrite <- IH. destruct ts; reflexivity.
Qed.

Lemma splitOn_app_sep {A : Type} (sep : A -> bool) (l : list A) (x : A)
    (rest : list A) :
  Forall (fun u => sep u = false) l -> sep x = true ->
  splitOn sep (l ++ x :: rest) = l :: splitOn sep rest.
Proof.
  intros Hl Hx. induction Hl as [|u l Hu _ IH]; cbn [app]; rewrite splitOn_cons.
  - rewrite Hx. reflexivity.
  - rewrite Hu, IH. reflexivity.
Qed.

(** Joining lines free of line feeds and splitting again gives the lines
    back. *)
Lemma splitLF_joinLF (ls : list ustring) :
  ls <> [] -> Forall (fun l => ~ In 0x0A l) ls -> splitLF (joinLF ls) = ls.
Proof.
  intros Hne Hall. revert Hne.
  induction Hall as [|l ls Hl Hall IH]; intros Hne;
    [exfalso; apply Hne; reflexivity|].
  assert (Hl' : Forall (fun u => (u =? 10) = false) l).
  { apply Forall_forall. intros u Hu. apply Z.eqb_neq. intros ->. auto. }
  destruct ls as [|l2 ls].
  - cbn [joinLF]. apply splitOn_none. exact Hl'.
  - rewrite joinLF_cons by discriminate. unfold splitLF in *.
    rewrite splitOn_app_sep by (exact Hl' || reflexivity).
    rewrite IH by discriminate. reflexivity.
Qed.

(** The tokens of the lines of a text are the lines of its tokens: no line
    feed is half of a surrogate pair. *)
Lemma tokens_splitLF (s : ustring) :
  map tokens (splitLF s) = tokenLines (tokens s).
Proof.
  unfold splitLF, tokenLines.
  induction s as [|u s IH1 IH2] using ustring_ind2; [reflexivity|].
  destruct (head_token_exists u s) as (t & s' & Hh).
  rewrite (proj1 (head_token_tokens _ _ _ Hh)).
  inversion Hh as [hi lo s0 Hhi Hlo|u0 s0 Hhi|u0 Hhi|u0 v s0 Hhi Hlo]; subst.
  - assert (Hu : (u =? 10) = false).
    { apply Z.eqb_neq. intros ->. discriminate. }
    assert (Hl : (lo =? 10) = false).
    { apply Z.eqb_neq. intros ->. discriminate. }
    assert (Hp : (pairValue u lo =? 10) = false).
    { apply Z.eqb_neq. pose proof (pairValue_astral u lo Hhi Hlo). lia. }
    rewrite !splitOn_cons. cbn [fst]. rewrite Hu, Hl, Hp. cbn [hd tl map].
    rewrite <- (IH2 lo s' eq_refl).
    destruct (splitOn (fun u => u =? 10) s') as [|h ts]; cbn [map hd tl];
      f_equal; cbn [tokens]; rewrite Hhi, Hlo; reflexivity.
  - rewrite !splitOn_cons. cbn [fst]. rewrite <- IH1.
    destruct (u =? 10); [reflexivity|].
    destruct (splitOn (fun u => u =? 10) s') as [|h ts]; cbn [map hd tl];
      f_equal; cbn [tokens]; rewrite Hhi; reflexivity.
  - assert (Hu : (u =? 10) = false).
    { apply Z.eqb_neq. intros ->. discriminate. }
    rewrite !splitOn_cons. cbn [fst]. rewrite Hu.
    cbn [tokens splitOn hd tl map]. rewrite Hhi. reflexivity.
  - assert (Hu : (u =? 10) = false).
    { apply Z.eqb_neq. intros ->. discriminate. }
    rewrite (splitOn_cons _ u), (@splitOn_cons token _ (u, [u])). cbn [fst].
    rewrite Hu, <- IH1. rewrite (splitOn_cons _ v).
    destruct (v =? 10); cbn [map hd tl]; f_equal; cbn [tokens]; rewrite Hhi;
      [reflexivity|rewrite Hlo; reflexivity].
Qed.

Lemma piecesFrom_tokenLines (toks : list token) :
  forall b,
  piecesFrom b toks
  = (b ++ cat (hd [] (tokenLines toks))) :: map cat (tl (tokenLines toks)).
Proof.
  unfold tokenLines.
  induction toks as [|t rest IH]; intros b.
  - cbn. rewrite app_nil_r. reflexivity.
  - cbn [piecesFrom]. rewrite splitOn_cons. destruct (fst t =? 10).
    + rewrite IH. cbn [hd tl map app]. rewrite app_nil_r.
      rewrite (splitOn_hd_tl _ rest) at 3. reflexivity.
    + rewrite IH. cbn [hd tl]. rewrite <- app_assoc. reflexivity.
Qed.

Lemma roomy_tokenLines (w : Z) (toks : list token) :
  forall k,
  k + segSum (hd [] (tokenLines toks)) < w ->
  Forall (fun T => segSum T < w) (tl (tokenLines toks)) ->
  roomy w toks k.
Proof.
  unfold tokenLines.
  induction toks as [|t rest IH]; intros k Hk Hall; [exact I|].
  cbn [roomy]. rewrite splitOn_cons in Hk, Hall. destruct (fst t =? 10).
  - cbn [hd tl] in Hk, Hall. rewrite (splitOn_hd_tl _ rest) in Hall.
    inversion Hall; subst. apply IH; [lia|assumption].
  - cbn [hd tl] in Hk, Hall. set (h := hd [] _) in *.
    change (segSum (t :: h)) with (segmentWidth (fst t) + segSum h) in Hk.
    pose proof (segSum_nonneg h).
    split; [lia|]. apply IH; [lia|assumption].
Qed.

Section BreakLineFits.

Context {R : Regexes}.

(** Text whose lines all stay below the width comes back split at its line
    feeds. *)
Lemma breakLine_roomy (s : ustring) (w : Z) (opts : option Opts.t) :
  s <> [] -> 2 <= w ->
  ansi_consec_match (lineBreak_replace s) = None ->
  units16 (lineBreak_replace s) ->
  roomy w (tokens (lineBreak_replace s)) 0 ->
  breakLine s (NInt w) opts = piecesFrom [] (tokens (lineBreak_replace s)).
Proof.
  intros Hne Hw Ha Hwf Hr.
  destruct (breakLine_wrapRun s w opts Hne Hw Ha Hwf) as (fin & _ & Hb & Hv).
  rewrite Hb. change (lines fin) with (flushed (wrapOf fin)).
  rewrite Hv, wrapRun_roomy by exact Hr. reflexivity.
Qed.

Lemma roomy_text (s : ustring) (w : Z) :
  Forall (fun l => textWidth l < w) (splitLF s) -> roomy w (tokens s) 0.
Proof.
  intros H. apply Forall_map with (f := tokens) (P := fun T => segSum T < w) in H.
  rewrite tokens_splitLF in H. unfold tokenLines in H.
  rewrite splitOn_hd_tl in H. inversion H; subst.
  apply roomy_tokenLines; [unfold tokenLines; lia|assumption].
Qed.

Lemma piecesFrom_text (s : ustring) : piecesFrom [] (tokens s) = splitLF s.
Proof.
  rewrite piecesFrom_tokenLines, <- tokens_splitLF.
  rewrite (splitOn_hd_tl _ s : splitLF s = _) at 3.
  unfold splitLF. rewrite (splitOn_hd_tl _ s) at 1 2. cbn [map hd tl app].
  rewrite cat_tokens. f_equal. rewrite map_map.
  rewrite <- (map_id (tl _)) at 2. apply map_ext. intros l. apply cat_tokens.
Qed.

(** X9: text that fits is left alone. At an integer width of at least 2,
    for a non-empty text in which the escape scanner finds no run, if every
    line of the normalised text is narrower than the width, [breakLine]
    returns exactly those lines, whatever the options: it breaks at the
    line feeds and nowhere else. *)
Theorem breakLine_fitting_text (s : ustring) (w : Z) (opts : option Opts.t) :
  s <> [] -> 2 <= w ->
  ansi_consec_match (lineBreak_replace s) = None ->
  units16 (lineBreak_replace s) ->
  Forall (fun l => textWidth l < w) (splitLF (lineBreak_replace s)) ->
  breakLine s (NInt w) opts = splitLF (lineBreak_replace s).
Proof.
  intros Hne Hw Ha Hwf Hfit.
  rewrite (breakLine_roomy s w opts Hne Hw Ha Hwf (roomy_text _ _ Hfit)).
  apply piecesFrom_text.
Qed.

End BreakLineFits.

Lemma breakLine_fitting_text_witness :
  @breakLine SpecRegexes.regexes
    (utf16 "ab cd" ++ [0x0D; 0x0A] ++ utf16 "efgh") (NInt 6) trimOpts
  = splitLF (@lineBreak_replace SpecRegexes.regexes
               (utf16 "ab cd" ++ [0x0D; 0x0A] ++ utf16 "efgh")).
Proof.
  apply (@breakLine_fitting_text SpecRegexes.regexes);
    [discriminate|lia|vm_compute; reflexivity
    |apply units16_check; vm_compute; reflexivity|].
  assert (E : splitLF (@lineBreak_replace SpecRegexes.regexes
                         (utf16 "ab cd" ++ [0x0D; 0x0A] ++ utf16 "efgh"))
              = [utf16 "ab cd"; utf16 "efgh"]) by (vm_compute; reflexivity).
  rewrite E. repeat (constructor; [vm_compute; reflexivity|]). constructor.
Defined.

(** *** [breakLine] always returns a line *)

Section NeverEmpty.

Context {R : Regexes}.

Lemma run_lines_nonempty (str : ustring) (w tol : Z) (trim : bool) :
  match run str w tol trim with Some st => lines st | None => [] end <> [].
Proof.
  destruct (run_total str w tol trim) as [fin Hfin]. rewrite Hfin.
  unfold run in Hfin. destruct (loop _ _ _ _ _ _) as [st|]; [|discriminate].
  injection Hfin as <-. cbn [push lines]. intros H.
  apply app_eq_nil in H. destruct H as [_ H]. discriminate H.
Qed.

(** X10: [breakLine] never returns an empty list, whatever the text, the
    width, the options and the escape sequences: the guard returns one
    element, and the loop ends, within its bound, with a [push]. *)
Theorem breakLine_never_empty (s : ustring) (width : number)
    (opts : option Opts.t) :
  breakLine s width opts <> [].
Proof.
  unfold breakLine.
  destruct ((length s =? 0)%nat || negb (Number_isInteger width)
            || number_ltZ width 2); [discriminate|].
  apply run_lines_nonempty.
Qed.

End NeverEmpty.

(** *** [forceLineReturn] *)

Lemma textWidth_nil : textWidth [] = 0.
Proof. reflexivity. Qed.

Lemma removeLF_none (l : ustring) : ~ In 0x0A l -> removeLF l = l.
Proof.
  intros H. unfold removeLF. induction l as [|u l IH]; [reflexivity|].
  cbn [filter]. destruct (u =? 10) eqn:Hu.
  - apply Z.eqb_eq in Hu. subst u. exfalso. apply H. left. reflexivity.
  - cbn [negb]. f_equal. apply IH. intros Hin. apply H. right. exact Hin.
Qed.

Lemma units16_piece (c l : ustring) :
  units16 c -> In l (splitLF c) -> units16 l /\ ~ In 0x0A l.
Proof.
  intros Hwf Hl. pose proof (splitOn_pieces (fun u => u =? 10) c) as H.
  rewrite Forall_forall in H. specialize (H l Hl).
  unfold units16 in *. rewrite Forall_forall in H, Hwf. split.
  - apply Forall_forall. intros u Hu. apply Hwf. apply (H u Hu).
  - intros Hin. destruct (H _ Hin) as [Hn _]. discriminate Hn.
Qed.

Section ForceLineReturn.

Context {R : Regexes}.

(** What [breakLine] with the default options makes of one plain line. *)
Lemma breakLine_plainLine (l : ustring) (w : Z) :
  2 <= w -> plainLine l -> units16 l ->
  concat (breakLine l (NInt w) None) = removeLF l
  /\ Forall (fun x => ~ In 0x0A x /\ 0 <= textWidth x <= w)
       (breakLine l (NInt w) None).
Proof.
  intros Hw [Hn Ha] Hwf. destruct l as [|u l].
  - rewrite breakLine_guard by auto. split; [reflexivity|].
    constructor; [|constructor]. split; [auto|rewrite textWidth_nil; lia].
  - assert (Hne : u :: l <> []) by discriminate.
    rewrite <- Hn in Ha, Hwf.
    destruct (breakLine_wrapRun _ w None Hne Hw Ha Hwf) as (fin & Hrun & Hb & Hv).
    destruct (breakLine_LineOK _ w None Hne Hw Ha Hwf) as (fin' & Hrun' & _ & H2).
    rewrite Hrun in Hrun'. injection Hrun' as <-.
    rewrite Hb. split.
    + change (lines fin) with (flushed (wrapOf fin)).
      rewrite Hv. cbn [trimBreakOf]. rewrite wrapRun_content, cat_kept_tokens.
      rewrite Hn. reflexivity.
    + destruct (WidthInv_run _ w 0 false Hw (Z.le_refl 0) fin Hrun)
        as (_ & Hall & _).
      apply Forall_forall. intros x Hx.
      destruct (Forall2_pick _ _ _ _ H2 Hall x Hx) as (k & Hk & Hin).
      destruct (LineOK_text _ _ _ Hk) as (Htw & Hnl & _).
      unfold within in Hin. split; [exact Hnl|lia].
Qed.

(** The lines of the result are the wrapped lines of the content. *)
Lemma forceLineReturn_lines (c : ustring) (w : Z) :
  2 <= w -> units16 c -> Forall plainLine (splitLF c) ->
  splitLF (forceLineReturn c (NInt w)) = breakLines (splitLF c) (NInt w)
  /\ Forall (fun x => ~ In 0x0A x /\ 0 <= textWidth x <= w)
       (breakLines (splitLF c) (NInt w)).
Proof.
  intros Hw Hwf Hp.
  assert (Hall : Forall (fun x => ~ In 0x0A x /\ 0 <= textWidth x <= w)
                   (breakLines (splitLF c) (NInt w))).
  { unfold breakLines. apply Forall_concat. apply Forall_map.
    apply Forall_forall. intros l Hl.
    rewrite Forall_forall in Hp.
    apply (breakLine_plainLine l w Hw (Hp l Hl)).
    apply (units16_piece c l Hwf Hl). }
  split; [|exact Hall].
  unfold forceLineReturn. apply splitLF_joinLF.
  - unfold breakLines. pose proof (splitLF_nonempty c) as Hne.
    destruct (splitLF c) as [|l ls]; [exfalso; apply Hne; reflexivity|].
    cbn [map concat]. intros H. apply app_eq_nil in H. destruct H as [H _].
    revert H. unfold breakLine.
    destruct ((length l =? 0)%nat || negb (Number_isInteger (NInt w))
              || number_ltZ (NInt w) 2); [discriminate|].
    apply run_lines_nonempty.
  - eapply Forall_impl; [|exact Hall]. intros x [H _]. exact H.
Qed.

(** X11: a width that is not an integer of at least 2 switches
    [forceLineReturn] off: the content comes back unchanged, whatever the
    escape sequences and line breaks in it. *)
Theorem forceLineReturn_invalid_width (c : ustring) (width : number) :
  Number_isInteger width = false \/ number_ltZ width 2 = true ->
  forceLineReturn c width = c.
Proof.
  intros H. unfold forceLineReturn, breakLines.
  rewrite concat_map_singleton; [apply joinLF_splitLF|].
  intros l _. apply breakLine_guard. right. exact H.
Qed.

(** X12: content that fits comes back unchanged. If every line of the
    content is plain (nothing to normalise, no escape run) and narrower
    than the width, [forceLineReturn] returns the content itself. *)
Theorem forceLineReturn_fitting (c : ustring) (w : Z) :
  2 <= w -> units16 c ->
  Forall (fun l => plainLine l /\ textWidth l < w) (splitLF c) ->
  forceLineReturn c (NInt w) = c.
Proof.
  intros Hw Hwf Hall. unfold forceLineReturn, breakLines.
  rewrite concat_map_singleton; [apply joinLF_splitLF|].
  intros l Hl. rewrite Forall_forall in Hall.
  destruct (Hall l Hl) as [[Hn Ha] Hfit].
  destruct (units16_piece c l Hwf Hl) as [Hwl Hnl].
  destruct l as [|u l]; [apply breakLine_guard; auto|].
  assert (Hs : splitLF (u :: l) = [u :: l]).
  { apply splitOn_none. apply Forall_forall. intros x Hx.
    apply Z.eqb_neq. intros ->. auto. }
  rewrite breakLine_roomy; rewrite ?Hn;
    [rewrite piecesFrom_text; exact Hs|discriminate|exact Hw|exact Ha|exact Hwl|].
  apply roomy_text. rewrite Hs. constructor; [exact Hfit|constructor].
Qed.

(** X13: after [forceLineReturn] at an integer width of at least 2, every
    line fits. If every line of the content is plain, each line of the
    result (the pieces between its line feeds) has a width between 0 and
    the width asked for. *)
Theorem forceLineReturn_lines_fit (c : ustring) (w : Z) :
  2 <= w -> units16 c -> Forall plainLine (splitLF c) ->
  forall l, In l (splitLF (forceLineReturn c (NInt w))) ->
  0 <= textWidth l <= w.
Proof.
  intros Hw Hwf Hp l Hl.
  destruct (forceLineReturn_lines c w Hw Hwf Hp) as [E Hall].
  rewrite E in Hl. rewrite Forall_forall in Hall. apply (Hall l Hl).
Qed.

(** X14: [forceLineReturn] only adds line feeds. If every line of the
    content is plain, the result and the content are the same text once
    the line feeds are removed from both. *)
Theorem forceLineReturn_keeps_text (c : ustring) (w : Z) :
  2 <= w -> units16 c -> Forall plainLine (splitLF c) ->
  removeLF (forceLineReturn c (NInt w)) = removeLF c.
Proof.
  intros Hw Hwf Hp.
  destruct (forceLineReturn_lines c w Hw Hwf Hp) as [E _].
  unfold removeLF. rewrite <- !(concat_splitOn (fun u => u =? 10)).
  change (splitOn (fun u => u =? 10)) with splitLF. rewrite E.
  assert (Hpieces : Forall (fun l => concat (breakLine l (NInt w) None) = l)
                      (splitLF c)).
  { apply Forall_forall. intros l Hl. rewrite Forall_forall in Hp.
    destruct (units16_piece c l Hwf Hl) as [Hwl Hnl].
    destruct (breakLine_plainLine l w Hw (Hp l Hl) Hwl) as [Hc _].
    rewrite Hc. apply removeLF_none. exact Hnl. }
  unfold breakLines. clear E Hp.
  induction Hpieces as [|l ls Hl _ IH]; [reflexivity|].
  cbn [map concat]. rewrite concat_app, Hl, IH. reflexivity.
Qed.

End ForceLineReturn.

Lemma forceLineReturn_invalid_width_witness :
  @forceLineReturn SpecRegexes.regexes
    (utf16 "hello world" ++ [0x0D; 0x0A] ++ bg41 ++ utf16 "foo") (NInt 1)
  = utf16 "hello world" ++ [0x0D; 0x0A] ++ bg41 ++ utf16 "foo".
Proof.
  apply (@forceLineReturn_invalid_width SpecRegexes.regexes).
  right. reflexivity.
Defined.

Lemma forceLineReturn_fitting_witness :
  @forceLineReturn SpecRegexes.regexes
    (utf16 "ab cd" ++ [0x0A] ++ utf16 "efgh") (NInt 6)
  = utf16 "ab cd" ++ [0x0A] ++ utf16 "efgh".
Proof.
  apply (@forceLineReturn_fitting SpecRegexes.regexes);
    [lia|apply units16_check; vm_compute; reflexivity|].
  assert (E : splitLF (utf16 "ab cd" ++ [0x0A] ++ utf16 "efgh")
              = [utf16 "ab cd"; utf16 "efgh"]) by (vm_compute; reflexivity).
  rewrite E.
  repeat (constructor;
          [split; [split|]; vm_compute; reflexivity|]).
  constructor.
Defined.

Lemma forceLineReturn_lines_fit_witness :
  0 <= textWidth (utf16 " worl") <= 5.
Proof.
  assert (E : splitLF (@forceLineReturn SpecRegexes.regexes
                         (utf16 "hello world" ++ [0x0A] ++ utf16 "ab") (NInt 5))
              = [utf16 "hello"; utf16 " worl"; utf16 "d"; utf16 "ab"])
    by (vm_compute; reflexivity).
  assert (S : splitLF (utf16 "hello world" ++ [0x0A] ++ utf16 "ab")
              = [utf16 "hello world"; utf16 "ab"]) by (vm_compute; reflexivity).
  apply (@forceLineReturn_lines_fit SpecRegexes.regexes
           (utf16 "hello world" ++ [0x0A] ++ utf16 "ab") 5);
    [lia|apply units16_check; vm_compute; reflexivity| |].
  - rewrite S. repeat (constructor; [split; vm_compute; reflexivity|]).
    constructor.
  - rewrite E. right. left. reflexivity.
Defined.

Lemma forceLineReturn_keeps_text_witness :
  removeLF (@forceLineReturn SpecRegexes.regexes
              (utf16 "hello world" ++ [0x0A] ++ utf16 "ab") (NInt 5))
  = removeLF (utf16 "hello world" ++ [0x0A] ++ utf16 "ab").
Proof.
  assert (S : splitLF (utf16 "hello world" ++ [0x0A] ++ utf16 "ab")
              = [utf16 "hello world"; utf16 "ab"]) by (vm_compute; reflexivity).
  apply (@forceLineReturn_keeps_text SpecRegexes.regexes);
    [lia|apply units16_check; vm_compute; reflexivity|].
  rewrite S. repeat (constructor; [split; vm_compute; reflexivity|]).
  constructor.
Defined.

(** ** Searching in strings: [endsWith] and [parseStack] *)

Lemma startsWith_spec (p s : ustring) :
  startsWith p s = true <-> exists rest, s = p ++ rest.
Proof.
  revert s. induction p as [|a p IH]; intros s; cbn [startsWith].
  - split; [intros _; exists s; reflexivity|reflexivity].
  - destruct s as [|b s].
    + split; [discriminate|intros [rest H]; discriminate H].
    + rewrite andb_true_iff, Z.eqb_eq, IH. split.
      * intros [-> [rest ->]]. exists rest. reflexivity.
      * intros [rest [= -> ->]]. split; [reflexivity|exists rest; reflexivity].
Qed.

Lemma occursAt_nil (srch s : ustring) :
  occursAt srch s [] <-> startsWith srch s = true.
Proof. unfold occursAt. cbn [app]. symmetry. apply startsWith_spec. Qed.

Lemma occursAt_cons (srch s pre : ustring) (a b : Z) :
  occursAt srch (a :: s) (b :: pre) <-> a = b /\ occursAt srch s pre.
Proof.
  unfold occursAt. cbn [app]. split.
  - intros [rest [= -> ->]]. split; [reflexivity|exists rest; reflexivity].
  - intros [-> [rest ->]]. exists rest. reflexivity.
Qed.

Lemma occursAt_in_nil (srch pre : ustring) :
  occursAt srch [] pre -> pre = [] /\ srch = [].
Proof.
  intros [rest H]. symmetry in H. apply app_eq_nil in H. destruct H as [-> H].
  apply app_eq_nil in H. destruct H as [-> _]. auto.
Qed.

(** [indexOf] finds the first occurrence, and answers -1 exactly when
    there is none. *)
Lemma String_indexOf_from_spec (srch s : ustring) :
  forall i, 0 <= i ->
  (String_indexOf_from srch s i = -1 /\ forall pre, ~ occursAt srch s pre)
  \/ exists pre,
       occursAt srch s pre
       /\ String_indexOf_from srch s i = i + Z.of_nat (length pre)
       /\ forall pre2, occursAt srch s pre2 -> (length pre <= length pre2)%nat.
Proof.
  induction s as [|a s IH]; intros i Hi; cbn [String_indexOf_from].
  - destruct (startsWith srch []) eqn:Hs.
    + right. exists []. rewrite occursAt_nil. cbn [length].
      split; [exact Hs|]. split; [lia|intros; lia].
    + left. split; [reflexivity|]. intros pre H.
      destruct (occursAt_in_nil _ _ H) as [-> ->]. discriminate Hs.
  - destruct (startsWith srch (a :: s)) eqn:Hs.
    + right. exists []. rewrite occursAt_nil. cbn [length].
      split; [exact Hs|]. split; [lia|intros; lia].
    + destruct (IH (i + 1) ltac:(lia)) as [[He Hno]|(pre & Hocc & He & Hmin)].
      * left. split; [exact He|]. intros [|b pre] H.
        -- apply occursAt_nil in H. congruence.
        -- apply occursAt_cons in H. apply (Hno pre), H.
      * right. exists (a :: pre). rewrite occursAt_cons. cbn [length].
        split; [auto|]. split; [lia|].
        intros [|b pre2] H.
        -- apply occursAt_nil in H. congruence.
        -- apply occursAt_cons in H. cbn [length].
           apply le_n_S. apply Hmin, H.
Qed.

(** [lastIndexOf] finds the last occurrence, and answers -1 exactly when
    there is none. *)
Lemma String_lastIndexOf_from_spec (srch s : ustring) :
  forall i, 0 <= i ->
  (String_lastIndexOf_from srch s i = -1 /\ forall pre, ~ occursAt srch s pre)
  \/ exists pre,
       occursAt srch s pre
       /\ String_lastIndexOf_from srch s i = i + Z.of_nat (length pre)
       /\ forall pre2, occursAt srch s pre2 -> (length pre2 <= length pre)%nat.
Proof.
  induction s as [|a s IH]; intros i Hi; cbn [String_lastIndexOf_from].
  - destruct (startsWith srch []) eqn:Hs.
    + right. exists []. rewrite occursAt_nil. cbn [length].
      split; [exact Hs|]. split; [lia|].
      intros pre2 H. destruct (occursAt_in_nil _ _ H) as [-> _]. cbn. lia.
    + left. split; [reflexivity|]. intros pre H.
      destruct (occursAt_in_nil _ _ H) as [-> ->]. discriminate Hs.
  - cbv zeta.
    destruct (IH (i + 1) ltac:(lia)) as [[He Hno]|(pre & Hocc & He & Hmax)].
    + rewrite He. cbn [Z.leb Z.compare].
      destruct (startsWith srch (a :: s)) eqn:Hs.
      * right. exists []. rewrite occursAt_nil. cbn [length].
        split; [exact Hs|]. split; [lia|].
        intros [|b pre2] H; [cbn; lia|].
        apply occursAt_cons in H. exfalso. apply (Hno pre2), H.
      * left. split; [reflexivity|]. intros [|b pre] H.
        -- apply occursAt_nil in H. congruence.
        -- apply occursAt_cons in H. apply (Hno pre), H.
    + rewrite He.
      replace (0 <=? i + 1 + Z.of_nat (length pre)) with true
        by (symmetry; apply Z.leb_le; lia).
      right. exists (a :: pre). rewrite occursAt_cons. cbn [length].
      split; [auto|]. split; [lia|].
      intros [|b pre2] H; [cbn; lia|].
      apply occursAt_cons in H. cbn [length]. apply le_n_S. apply Hmax, H.
Qed.

Lemma String_indexOf_absent (s srch : ustring) :
  String_indexOf s srch = -1 -> forall pre, ~ occursAt srch s pre.
Proof.
  unfold String_indexOf. intros H.
  destruct (String_indexOf_from_spec srch s 0 ltac:(lia))
    as [[_ Hno]|(pre & _ & He & _)]; [exact Hno|lia].
Qed.

Lemma occursAt_length (srch s pre : ustring) :
  occursAt srch s pre -> (length pre + length srch <= length s)%nat.
Proof. intros [rest ->]. rewrite !length_app. lia. Qed.

(** X15: what [endsWith] answers. It is true when the text ends with the
    searched string, as documented (every text ends with the empty
    string), and also whenever the searched string is exactly one unit
    longer than the text, whatever the two hold: [lastIndexOf] then
    answers -1 and [str.length + 1] equals [srch.length]. It is false in
    all other cases. *)
Theorem endsWith_true_iff (str srch : ustring) :
  endsWith str srch = true
  <-> (exists pre, str = pre ++ srch) \/ length srch = S (length str).
Proof.
  unfold endsWith, String_lastIndexOf. rewrite Z.eqb_eq.
  destruct (String_lastIndexOf_from_spec srch str 0 ltac:(lia))
    as [[He Hno]|(pre & Hocc & He & Hmax)]; rewrite He.
  - split.
    + intros H. right. lia.
    + intros [[pre ->]|H]; [|lia].
      exfalso. apply (Hno pre). exists []. rewrite app_nil_r. reflexivity.
  - pose proof (occursAt_length _ _ _ Hocc) as Hlen. split.
    + intros H. left. exists pre. destruct Hocc as [rest ->].
      rewrite !length_app in H. destruct rest; [|cbn [length] in H; lia].
      rewrite app_nil_r. reflexivity.
    + intros [[pre2 ->]|H]; [|lia].
      assert (H2 : occursAt srch (pre2 ++ srch) pre2).
      { exists []. rewrite app_nil_r. reflexivity. }
      apply Hmax in H2. rewrite length_app in *. lia.
Qed.

Lemma String_slice_prefix (s : ustring) (n : nat) :
  (n <= length s)%nat -> String_slice s 0 (Some (Z.of_nat n)) = firstn n s.
Proof.
  intros H. unfold String_slice, sliceIndex. cbv zeta. cbn [Z.ltb Z.compare].
  replace (Z.of_nat n <? 0) with false by (symmetry; apply Z.ltb_ge; lia).
  rewrite !Z.min_l by lia.
  cbn [Z.to_nat skipn]. rewrite Z.sub_0_r, Nat2Z.id. reflexivity.
Qed.

Lemma String_slice_from (s : ustring) (n : nat) :
  String_slice s (Z.of_nat n) None = skipn n s.
Proof.
  unfold String_slice, sliceIndex. cbv zeta.
  replace (Z.of_nat n <? 0) with false by (symmetry; apply Z.ltb_ge; lia).
  destruct (Nat.le_gt_cases n (length s)) as [H|H].
  - rewrite Z.min_l by lia. rewrite Nat2Z.id.
    apply firstn_all2. rewrite length_skipn. lia.
  - rewrite Z.min_r by lia. rewrite Z.sub_diag, Nat2Z.id. cbn [Z.to_nat firstn].
    symmetry. apply skipn_all2. lia.
Qed.

Lemma skipn_after (pre rest : ustring) :
  skipn (length pre + 1) (pre ++ rest) = tl rest.
Proof.
  rewrite skipn_app, Nat.add_comm.
  replace (1 + length pre - length pre)%nat with 1%nat by lia.
  rewrite skipn_all2 by lia. destruct rest; reflexivity.
Qed.

(** X16: [parseStack] cuts the stack after the first occurrence of the
    raw message. When the raw message is not empty and occurs in the stack
    ([err.stack], or the raw message itself when there is none), the
    message returned is the stack up to the end of that first occurrence,
    and the stack returned is what follows it less its first code unit,
    dropped whatever it is. *)
Theorem parseStack_found (err : Err.t) (at0 : ustring) :
  getRawMessage err <> [] ->
  occursAt (getRawMessage err) (effectiveStack err) at0 ->
  exists pre rest,
    effectiveStack err = pre ++ getRawMessage err ++ rest
    /\ (forall pre2, occursAt (getRawMessage err) (effectiveStack err) pre2 ->
        (length pre <= length pre2)%nat)
    /\ Parsed.message (parseStack err) = pre ++ getRawMessage err
    /\ Parsed.stack (parseStack err) = tl rest
    /\ Parsed.rawMessage (parseStack err) = getRawMessage err.
Proof.
  intros Hne Hocc0. unfold parseStack. cbv zeta.
  fold (effectiveStack err).
  destruct (getRawMessage err) as [|a raw] eqn:Hraw; [congruence|].
  unfold String_indexOf.
  destruct (String_indexOf_from_spec (a :: raw) (effectiveStack err) 0 ltac:(lia))
    as [[_ Hno]|(pre & Hocc & He & Hmin)]; [exfalso; apply (Hno at0 Hocc0)|].
  rewrite He. destruct Hocc as [rest HS].
  replace (0 + Z.of_nat (length pre) >? -1) with true
    by (symmetry; rewrite Z.gtb_ltb; apply Z.ltb_lt; lia).
  exists pre, rest. cbn [Parsed.message Parsed.stack Parsed.rawMessage].
  split; [exact HS|]. split; [exact Hmin|].
  replace (0 + Z.of_nat (length pre) + Z.of_nat (length (a :: raw)))
    with (Z.of_nat (length (pre ++ a :: raw))) by (rewrite length_app; lia).
  split; [|split; [|reflexivity]].
  - rewrite String_slice_prefix by (rewrite HS, !length_app; cbn [length]; lia).
    rewrite HS. cbn [app].
    change (pre ++ a :: raw ++ rest) with (pre ++ (a :: raw) ++ rest).
    rewrite app_assoc, firstn_app, Nat.sub_diag, firstn_all. cbn [firstn].
    rewrite app_nil_r. reflexivity.
  - replace (Z.of_nat (length (pre ++ a :: raw)) + 1)
      with (Z.of_nat (length (pre ++ a :: raw) + 1)) by lia.
    rewrite String_slice_from, HS.
    change (pre ++ (a :: raw) ++ rest) with (pre ++ (a :: raw) ++ rest).
    rewrite app_assoc. apply skipn_after.
Qed.

(** X17: an error without a stack. When [err.stack] is missing or empty
    and the raw message is not empty, the message returned is the raw
    message and the stack returned is empty. *)
Theorem parseStack_without_stack (err : Err.t) :
  getRawMessage err <> [] ->
  Err.stack err = None \/ Err.stack err = Some [] ->
  Parsed.message (parseStack err) = getRawMessage err
  /\ Parsed.stack (parseStack err) = [].
Proof.
  intros Hne Hs.
  assert (HS : effectiveStack err = getRawMessage err).
  { unfold effectiveStack. destruct Hs as [-> | ->]; reflexivity. }
  unfold parseStack. cbv zeta. fold (effectiveStack err). rewrite HS.
  destruct (getRawMessage err) as [|a raw]; [congruence|].
  unfold String_indexOf. cbn [String_indexOf_from].
  assert (Hst : startsWith (a :: raw) (a :: raw) = true).
  { apply startsWith_spec. exists []. rewrite app_nil_r. reflexivity. }
  rewrite Hst. cbn [Z.gtb Z.compare Parsed.message Parsed.stack].
  rewrite Z.add_0_l. split.
  - rewrite String_slice_prefix by lia. apply firstn_all.
  - replace (Z.of_nat (length (a :: raw)) + 1)
      with (Z.of_nat (length (a :: raw) + 1)) by lia.
    rewrite String_slice_from. apply skipn_all2. lia.
Qed.

(** X18: nothing to cut. When the raw message is empty, or does not occur
    in the stack, the message returned is empty and the stack is returned
    as it is. *)
Theorem parseStack_not_found (err : Err.t) :
  getRawMessage err = []
  \/ (forall pre, ~ occursAt (getRawMessage err) (effectiveStack err) pre) ->
  Parsed.message (parseStack err) = []
  /\ Parsed.stack (parseStack err) = effectiveStack err.
Proof.
  intros H. unfold parseStack. cbv zeta. fold (effectiveStack err).
  destruct (getRawMessage err) as [|a raw] eqn:Hraw; [split; reflexivity|].
  destruct H as [H|Hno]; [discriminate H|].
  unfold String_indexOf.
  destruct (String_indexOf_from_spec (a :: raw) (effectiveStack err) 0 ltac:(lia))
    as [[He _]|(pre & Hocc & _)]; [|exfalso; apply (Hno pre Hocc)].
  rewrite He. split; reflexivity.
Qed.

Lemma parseStack_found_witness :
  exists pre rest,
    effectiveStack
      (Err.mk None (Some (utf16 "boom"))
         (Some (utf16 "Error: boom" ++ [0x0A] ++ utf16 "at boom")))
    = pre ++ getRawMessage
               (Err.mk None (Some (utf16 "boom"))
                  (Some (utf16 "Error: boom" ++ [0x0A] ++ utf16 "at boom")))
          ++ rest
    /\ (forall pre2,
          occursAt
            (getRawMessage
               (Err.mk None (Some (utf16 "boom"))
                  (Some (utf16 "Error: boom" ++ [0x0A] ++ utf16 "at boom"))))
            (effectiveStack
               (Err.mk None (Some (utf16 "boom"))
                  (Some (utf16 "Error: boom" ++ [0x0A] ++ utf16 "at boom"))))
            pre2 ->
          (length pre <= length pre2)%nat)
    /\ Parsed.message
         (parseStack
            (Err.mk None (Some (utf16 "boom"))
               (Some (utf16 "Error: boom" ++ [0x0A] ++ utf16 "at boom"))))
       = pre ++ getRawMessage
                  (Err.mk None (Some (utf16 "boom"))
                     (Some (utf16 "Error: boom" ++ [0x0A] ++ utf16 "at boom")))
    /\ Parsed.stack
         (parseStack
            (Err.mk None (Some (utf16 "boom"))
               (Some (utf16 "Error: boom" ++ [0x0A] ++ utf16 "at boom"))))
       = tl rest
    /\ Parsed.rawMessage
         (parseStack
            (Err.mk None (Some (utf16 "boom"))
               (Some (utf16 "Error: boom" ++ [0x0A] ++ utf16 "at boom"))))
       = getRawMessage
           (Err.mk None (Some (utf16 "boom"))
              (Some (utf16 "Error: boom" ++ [0x0A] ++ utf16 "at boom"))).
Proof.
  apply (parseStack_found
           (Err.mk None (Some (utf16 "boom"))
              (Some (utf16 "Error: boom" ++ [0x0A] ++ utf16 "at boom")))
           (utf16 "Error: boom" ++ [0x0A] ++ utf16 "at ")).
  - discriminate.
  - exists []. vm_compute. reflexivity.
Defined.

Lemma parseStack_without_stack_witness :
  Parsed.message (parseStack (Err.mk None (Some (utf16 "boom")) None))
  = getRawMessage (Err.mk None (Some (utf16 "boom")) None)
  /\ Parsed.stack (parseStack (Err.mk None (Some (utf16 "boom")) None)) = [].
Proof.
  apply parseStack_without_stack; [discriminate|left; reflexivity].
Defined.

Lemma parseStack_not_found_witness :
  Parsed.message
    (parseStack (Err.mk None (Some (utf16 "boom")) (Some (utf16 "Error: bang"))))
  = []
  /\ Parsed.stack
       (parseStack (Err.mk None (Some (utf16 "boom")) (Some (utf16 "Error: bang"))))
     = effectiveStack
         (Err.mk None (Some (utf16 "boom")) (Some (utf16 "Error: bang"))).
Proof.
  apply parseStack_not_found. right.
  apply String_indexOf_absent. vm_compute. reflexivity.
Defined.

(** ** What [trimBreak] can drop *)

Lemma unspaced_app (a b : ustring) :
  unspaced (a ++ b) = unspaced a ++ unspaced b.
Proof. apply filter_app. Qed.

Lemma tokens_spaceToken (s : ustring) : Forall spaceToken (tokens s).
Proof.
  induction s as [|u s IH1 IH2] using ustring_ind2; [constructor|].
  destruct (head_token_exists u s) as (t & s' & Hh).
  rewrite (proj1 (head_token_tokens _ _ _ Hh)).
  assert (Hunit : forall x, spaceToken (x, [x])).
  { intros x H. cbn [fst snd] in *. unfold unspaced. cbn [filter].
    rewrite H. reflexivity. }
  inversion Hh as [hi lo s0 Hhi Hlo|u0 s0 Hu|u0 Hu|u0 v s0 Hu Hv]; subst.
  - constructor; [|apply (IH2 lo s' eq_refl)].
    intros H. cbn [fst] in H. exfalso.
    pose proof (pairValue_astral u lo Hhi Hlo) as Hp.
    unfold Codes.isBreakingSpace in H. bool_to_prop. lia.
  - constructor; [apply Hunit|exact IH1].
  - constructor; [apply Hunit|constructor].
  - constructor; [apply Hunit|exact IH1].
Qed.

Lemma unspaced_wrapStep (w tol : Z) (trim more : bool) (t : token)
    (v : wrapped) :
  spaceToken t ->
  unspaced (content (wrapStep w tol trim more t v))
  = unspaced (content v) ++ unspaced (snd t).
Proof.
  intros Ht. unfold wrapStep. unfold spaceToken in Ht.
  destruct (fst t =? 10).
  - rewrite Ht by reflexivity. rewrite app_nil_r.
    rewrite (proj2 (content_wpush v)). reflexivity.
  - cbn [orb] in Ht.
    assert (Hv1 : forall c : bool,
              content (if c then wpush v else v) = content v).
    { intros [|]; [apply content_wpush|reflexivity]. }
    destruct (used v + segmentWidth (fst t) >? w).
    + rewrite content_wdash.
      destruct (trim && Codes.isBreakingSpace (fst t)) eqn:Hts.
      * apply andb_true_iff in Hts. destruct Hts as [_ Hsp].
        rewrite content_wappend, Hv1, app_nil_r, (Ht Hsp), app_nil_r.
        reflexivity.
      * rewrite content_wappend, Hv1. apply unspaced_app.
    + rewrite content_wdash, content_wappend. apply unspaced_app.
Qed.

Lemma unspaced_wrapRun (w tol : Z) (trim : bool) (toks : list token) :
  Forall spaceToken toks ->
  forall v,
  unspaced (concat (flushed (wrapRun w tol trim toks v)))
  = unspaced (content v) ++ unspaced (cat toks).
Proof.
  induction 1 as [|t rest Ht _ IH]; intros v.
  - cbn [wrapRun]. rewrite (proj1 (content_wpush v)).
    unfold cat. cbn. rewrite app_nil_r. reflexivity.
  - cbn [wrapRun]. rewrite IH, unspaced_wrapStep by exact Ht.
    change (t :: rest) with ([t] ++ rest). rewrite cat_app, unspaced_app.
    change (cat [t]) with (snd t ++ []). rewrite app_nil_r, app_assoc.
    reflexivity.
Qed.

Section TrimBreak.

Context {R : Regexes}.

(** X19: whatever the options, [trimBreak] included, wrapping at an
    integer width of at least 2 drops only line feeds and breaking spaces.
    For a non-empty text in which the escape scanner finds no run, the
    lines of [breakLine] put end to end and the normalised text are the
    same once breaking spaces and line feeds are removed from both: every
    other code unit is kept, in order. *)
Theorem breakLine_keeps_words (s : ustring) (w : Z) (opts : option Opts.t) :
  s <> [] -> 2 <= w ->
  ansi_consec_match (lineBreak_replace s) = None ->
  units16 (lineBreak_replace s) ->
  unspaced (concat (breakLine s (NInt w) opts))
  = unspaced (lineBreak_replace s).
Proof.
  intros Hne Hw Ha Hwf.
  destruct (breakLine_wrapRun s w opts Hne Hw Ha Hwf) as (fin & _ & Hb & Hv).
  rewrite Hb. change (lines fin) with (flushed (wrapOf fin)).
  rewrite Hv, unspaced_wrapRun by apply tokens_spaceToken.
  rewrite cat_tokens. reflexivity.
Qed.

End TrimBreak.

Lemma breakLine_keeps_words_witness :
  unspaced (concat (@breakLine SpecRegexes.regexes
                      (utf16 "hello world") (NInt 5) trimOpts))
  = unspaced (@lineBreak_replace SpecRegexes.regexes (utf16 "hello world")).
Proof.
  apply (@breakLine_keeps_words SpecRegexes.regexes);
    [discriminate|lia|vm_compute; reflexivity
    |apply units16_check; vm_compute; reflexivity].
Defined.

(** * The loop on items *)

Section DeskSimulation.

Context {R : Regexes}.
Variables (str : ustring) (w tol : Z) (trim : bool).

Lemma itemsText_app (a b : list item) :
  itemsText (a ++ b) = itemsText a ++ itemsText b.
Proof. unfold itemsText. rewrite map_app, concat_app. reflexivity. Qed.

Lemma Sim_push (st : state) (d : desk) : Sim st d -> Sim (push st) (dpush d).
Proof.
  intros (Hl & Hw & Hb & Hline & Hk). unfold Sim, push, dpush. cbn -[itemsText rowText].
  rewrite !map_app, Hl, Hw, Hb, Hline, Hk. cbn [map].
  unfold rowText at 2. cbn [reopen body shut rowWidth].
  rewrite app_nil_r, <- app_assoc.
  repeat split. destruct (tracked d); reflexivity.
Qed.

Lemma Sim_append (st : state) (d : desk) (its : list item) (sw : Z) :
  Sim st d ->
  Sim (appendSegment st (itemsText its) sw) (dappend d its sw).
Proof.
  intros (Hl & Hw & Hb & Hline & Hk). unfold Sim, appendSegment, dappend.
  cbn -[itemsText].
  rewrite itemsText_app, app_assoc, <- Hline, Hk. auto.
Qed.

Lemma Sim_setIndex (i : nat) (st : state) (d : desk) :
  Sim st d -> Sim (setIndex i st) d.
Proof. intros H. exact H. Qed.

Lemma Sim_dash (st : state) (d : desk) (t : token) :
  Sim st d ->
  Sim (dashBreak str w st (fst t))
    (ddash w (index st <? length str - 1)%nat t d).
Proof.
  intros H. unfold dashBreak, ddash. rewrite <- (proj2 (proj2 (proj2 (proj2 H)))).
  destruct ((lineWidth st >=? w) && (index st <? length str - 1)%nat);
    [|exact H].
  cbn [andb]. destruct (Codes.isBreakingDash (fst t));
    [apply Sim_push|]; exact H.
Qed.

(** The body of the loop from the read of the code point on. *)
Lemma scanChar_desk (st : state) (d : desk) :
  Sim st d ->
  match readChr str (index st) with
  | None => scanChar str w tol trim st = st
  | Some (t, i') =>
      Sim (scanChar str w tol trim st)
        (stepChr w tol trim (i' <? length str - 1)%nat t d)
      /\ index (scanChar str w tol trim st) = i'
      /\ ansiFound (scanChar str w tol trim st) = ansiFound st
  end.
Proof.
  intros H. unfold readChr, scanChar.
  destruct (codePointAt str (index st)) as [code|]; [|reflexivity].
  pose proof (segmentWidth_buildSegment str (index st) code) as [Hsw Hi].
  destruct (buildSegment str (index st) code) as [[seg sw] i'] eqn:Hb.
  cbn [fst snd] in Hsw, Hi. subst sw.
  unfold stepChr. cbn [fst snd].
  destruct (code =? 10) eqn:Hnl.
  - apply Z.eqb_eq in Hnl. subst code.
    change (Codes.isSurrogate 10) with false in Hi. cbn iota in Hi. subst i'.
    split; [apply Sim_push; exact H|]. split; reflexivity.
  - pose proof H as (Hl & Hw & Hbg & Hline & Hk).
    unfold breakBefore. cbn [lineWidth setIndex]. rewrite Hk.
    assert (Hseg : seg = itemsText [Chr (code, seg)]).
    { unfold itemsText. cbn. rewrite app_nil_r. reflexivity. }
    assert (Hnil : @nil Z = itemsText []) by reflexivity.
    destruct (rowWidth (cur d) + segmentWidth code >? w).
    + destruct (trim && Codes.isBreakingSpace code);
        destruct (Codes.isBreakingSpace code
                  || (rowWidth (cur d) + segmentWidth code >? w + tol)).
      * split; [|split; unfold dashBreak;
                   destruct (_ && _); try destruct (Codes.isBreakingDash code);
                   reflexivity].
        rewrite Hnil.
        apply (Sim_dash _ _ (code, seg)
                 (Sim_append _ _ [] 0 (Sim_push _ _ (Sim_setIndex i' _ _ H)))).
      * split; [|split; unfold dashBreak;
                   destruct (_ && _); try destruct (Codes.isBreakingDash code);
                   reflexivity].
        rewrite Hnil.
        apply (Sim_dash _ _ (code, seg)
                 (Sim_append _ _ [] 0 (Sim_setIndex i' _ _ H))).
      * split; [|split; unfold dashBreak;
                   destruct (_ && _); try destruct (Codes.isBreakingDash code);
                   reflexivity].
        rewrite Hseg at 1.
        apply (Sim_dash _ _ (code, seg)
                 (Sim_append _ _ [Chr (code, seg)] _
                    (Sim_push _ _ (Sim_setIndex i' _ _ H)))).
      * split; [|split; unfold dashBreak;
                   destruct (_ && _); try destruct (Codes.isBreakingDash code);
                   reflexivity].
        rewrite Hseg at 1.
        apply (Sim_dash _ _ (code, seg)
                 (Sim_append _ _ [Chr (code, seg)] _ (Sim_setIndex i' _ _ H))).
    + split; [|split; unfold dashBreak;
                 destruct (_ && _); try destruct (Codes.isBreakingDash code);
                 reflexivity].
      rewrite Hseg at 1.
      apply (Sim_dash _ _ (code, seg)
               (Sim_append _ _ [Chr (code, seg)] _ (Sim_setIndex i' _ _ H))).
Qed.

(** The branch taken at a matched run. *)
Lemma scanAnsi_desk (st : state) (d : desk) :
  Sim st d ->
  match ansiFound st with
  | Some (a, ansi) =>
      if (a =? index st)%nat then
        if (index st + length ansi =? length str)%nat then
          exists st',
            scanAnsi str st = Break st'
            /\ Sim st' (forget true (stepEsc ansi d))
        else
          exists st',
            scanAnsi str st = Next st'
            /\ Sim st' (stepEsc ansi d)
            /\ index st' = (index st + length ansi)%nat
            /\ ansiFound st' = searchFrom str (index st + length ansi)
      else scanAnsi str st = Next st
  | None => scanAnsi str st = Next st
  end.
Proof.
  intros (Hl & Hw & Hb & Hline & Hk). unfold scanAnsi.
  destruct (ansiFound st) as [[a ansi]|]; [|reflexivity].
  destruct (a =? index st)%nat; [|reflexivity].
  destruct (index st + length ansi =? length str)%nat.
  - eexists. split; [reflexivity|].
    unfold Sim, forget, stepEsc. cbn -[itemsText].
    rewrite itemsText_app, app_assoc, <- Hline.
    unfold itemsText at 1. cbn [map concat itemText]. rewrite app_nil_r. auto.
  - eexists. split; [reflexivity|].
    split; [|split; reflexivity].
    unfold Sim, stepEsc, searchAnsi. cbn -[itemsText].
    rewrite itemsText_app, app_assoc, <- Hline, Hb.
    unfold itemsText at 1. cbn [map concat itemText]. rewrite app_nil_r. auto.
Qed.

Lemma scan_end (fuel i : nat) (found : option (nat * ustring)) :
  (length str <= i)%nat -> scan str fuel i found = ([], false).
Proof.
  intros H. destruct fuel as [|fuel]; [reflexivity|]. cbn [scan].
  replace (i <? length str)%nat with false
    by (symmetry; apply Nat.ltb_ge; exact H).
  reflexivity.
Qed.

Lemma codePointAt_some (s : ustring) (i : nat) :
  (i < length s)%nat -> exists code, codePointAt s i = Some code.
Proof.
  intros H. unfold codePointAt.
  destruct (nth_error s i) as [hi|] eqn:Hn;
    [|apply nth_error_None in Hn; lia].
  destruct (isHighSurrogate hi); [|eauto].
  destruct (nth_error s (S i)) as [lo|]; [|eauto].
  destruct (isLowSurrogate lo); eauto.
Qed.

Lemma scanChars_more (next : nat -> option (nat * ustring) -> list item * bool)
    (i : nat) (found : option (nat * ustring)) :
  (i < length str)%nat ->
  moreItems (fst (scanChars str next i found)) = true.
Proof.
  intros H. unfold scanChars, readChr.
  destruct (codePointAt_some str i H) as [code ->].
  destruct (buildSegment str i code) as [[seg sw] i'].
  destruct (next (S i') found). reflexivity.
Qed.

(** Text follows exactly when the loop reads another item. *)
Lemma scan_more (fuel i : nat) (found : option (nat * ustring)) :
  (i < length str)%nat ->
  moreItems (fst (scan str (S fuel) i found)) = true.
Proof.
  intros H. cbn [scan].
  replace (i <? length str)%nat with true
    by (symmetry; apply Nat.ltb_lt; exact H).
  destruct found as [[a ansi]|]; [|apply scanChars_more; exact H].
  destruct (a =? i)%nat; [|apply scanChars_more; exact H].
  destruct (i + length ansi =? length str)%nat; [reflexivity|].
  destruct (scanChars str (scan str fuel) (i + length ansi)
              (searchFrom str (i + length ansi))).
  reflexivity.
Qed.

Lemma loop_desk_chars (fuel : nat) (st fin : state) (d : desk) :
  (forall st1 fin1 d1,
     Sim st1 d1 ->
     loop str w tol trim fuel st1 = Some fin1 ->
     Sim fin1
       (forget (snd (scan str fuel (index st1) (ansiFound st1)))
          (deskRun w tol trim (fst (scan str fuel (index st1) (ansiFound st1)))
             d1))) ->
  Sim st d ->
  loop str w tol trim fuel (advance (scanChar str w tol trim st)) = Some fin ->
  Sim fin
    (forget (snd (scanChars str (scan str fuel) (index st) (ansiFound st)))
       (deskRun w tol trim
          (fst (scanChars str (scan str fuel) (index st) (ansiFound st))) d)).
Proof.
  intros IH H Hloop. pose proof (scanChar_desk st d H) as Hc.
  unfold scanChars. destruct (readChr str (index st)) as [[t i']|].
  - destruct Hc as (Hs & Hi & Hf).
    assert (Hm : moreItems (fst (scan str fuel (S i') (ansiFound st)))
                 = (i' <? length str - 1)%nat).
    { destruct (Nat.ltb_spec i' (length str - 1)) as [Hlt|Hge].
      - destruct fuel as [|fuel]; [|apply scan_more; lia].
        exfalso. cbn [loop] in Hloop. unfold advance in Hloop.
        cbn [index setIndex] in Hloop. rewrite Hi in Hloop.
        replace (S i' <? length str)%nat with true in Hloop
          by (symmetry; apply Nat.ltb_lt; lia).
        discriminate Hloop.
      - rewrite scan_end by lia. reflexivity. }
    apply IH with (d1 := stepChr w tol trim (i' <? length str - 1)%nat t d)
      in Hloop; [|exact Hs].
    unfold advance in Hloop. cbn [index ansiFound setIndex] in Hloop.
    rewrite Hi, Hf in Hloop.
    destruct (scan str fuel (S i') (ansiFound st)) as [its broke].
    cbn [fst snd deskRun] in *. rewrite Hm. exact Hloop.
  - rewrite Hc in Hloop. apply IH with (d1 := d) in Hloop; [|exact H].
    exact Hloop.
Qed.

(** The loop, iteration by iteration, is the run on the items it reads. *)
Lemma loop_desk (fuel : nat) :
  forall st fin d,
  Sim st d ->
  loop str w tol trim fuel st = Some fin ->
  Sim fin
    (forget (snd (scan str fuel (index st) (ansiFound st)))
       (deskRun w tol trim (fst (scan str fuel (index st) (ansiFound st))) d)).
Proof.
  induction fuel as [|fuel IH]; intros st fin d H; cbn [loop].
  - destruct (index st <? length str)%nat; [discriminate|].
    intros [= <-]. exact H.
  - destruct (Nat.ltb_spec (index st) (length str)) as [Hlt|Hge];
      [|intros [= <-]; rewrite scan_end by lia; exact H].
    cbn [scan].
    replace (index st <? length str)%nat with true
      by (symmetry; apply Nat.ltb_lt; exact Hlt).
    unfold iter. pose proof (scanAnsi_desk st d H) as Ha.
    destruct (ansiFound st) as [[a ansi]|] eqn:Hf.
    + destruct (a =? index st)%nat.
      * destruct (index st + length ansi =? length str)%nat.
        -- destruct Ha as (st' & -> & Hs). intros [= <-]. exact Hs.
        -- destruct Ha as (st' & -> & Hs & Hi & Hfound). intros Hloop.
           pose proof (loop_desk_chars fuel st' fin (stepEsc ansi d) IH Hs Hloop)
             as Hc.
           rewrite Hi, Hfound in Hc.
           destruct (scanChars str (scan str fuel) (index st + length ansi)
                       (searchFrom str (index st + length ansi)))
             as [its broke].
           exact Hc.
      * rewrite Ha. intros Hloop.
        pose proof (loop_desk_chars fuel st fin d IH H Hloop) as Hc.
        rewrite Hf in Hc. exact Hc.
    + rewrite Ha. intros Hloop.
      pose proof (loop_desk_chars fuel st fin d IH H Hloop) as Hc.
      rewrite Hf in Hc. exact Hc.
Qed.

End DeskSimulation.

Section RowsOfBreakLine.

Context {R : Regexes}.

(** The lines [breakLine] returns at a valid width are the texts of the
    rows of the run on the items of the normalised text, and the widths
    recorded for the lines are the widths of the rows. *)
Lemma run_rows (str : ustring) (w tol : Z) (trim : bool) :
  exists fin,
    run str w tol trim = Some fin
    /\ lines fin = map rowText (rowsOf str w tol trim)
    /\ widths fin = map rowWidth (rowsOf str w tol trim).
Proof.
  destruct (loop_total str w tol trim (length str) (initial str))
    as [last Hlast]; [lia|].
  exists (push last). unfold run. rewrite Hlast. split; [reflexivity|].
  assert (H0 : Sim (initial str) deskStart).
  { unfold Sim, initial, searchAnsi, deskStart. cbn. auto. }
  pose proof (loop_desk str w tol trim _ _ _ _ H0 Hlast) as Hs.
  apply Sim_push in Hs. destruct Hs as (Hl & Hw & _).
  unfold rowsOf, items.
  change (index (initial str)) with 0%nat in Hl, Hw.
  change (ansiFound (initial str)) with (searchFrom str 0) in Hl, Hw.
  split; assumption.
Qed.

Lemma breakLine_rows (s : ustring) (w : Z) (opts : option Opts.t) :
  s <> [] -> 2 <= w ->
  breakLine s (NInt w) opts
  = map rowText
      (rowsOf (lineBreak_replace s) w (toleranceOf opts) (trimBreakOf opts)).
Proof.
  intros Hne Hw. unfold breakLine. destruct s as [|u s']; [congruence|].
  replace (number_ltZ (NInt w) 2) with false
    by (symmetry; apply Z.ltb_ge; exact Hw).
  cbn [length Nat.eqb Number_isInteger negb orb number_toZ].
  destruct (run_rows (lineBreak_replace (u :: s')) w (toleranceOf opts)
              (trimBreakOf opts)) as (fin & -> & Hl & _).
  exact Hl.
Qed.

End RowsOfBreakLine.

(** ** The width of a row and the items it holds *)

Lemma bodyWidth_app (a b : list item) :
  bodyWidth (a ++ b) = bodyWidth a + bodyWidth b.
Proof.
  induction a as [|x a IH]; [reflexivity|].
  unfold bodyWidth in *. cbn [app fold_right]. rewrite IH. lia.
Qed.

Lemma itemWidth_range (it : item) : 0 <= itemWidth it <= 2.
Proof.
  destruct it as [a|t]; cbn [itemWidth]; [lia|apply segmentWidth_range].
Qed.

Section DeskInvariants.

Context {R : Regexes}.
Variables (w tol : Z) (trim : bool).

(** An invariant of the desk that every operation of the loop keeps is
    kept by the run on any items. *)
Lemma deskRun_invariant (P : desk -> Prop) :
  (forall d, P d -> P (dpush d)) ->
  (forall d t, P d -> P (dappend d [Chr t] (segmentWidth (fst t)))) ->
  (forall d, P d -> P (dappend d [] 0)) ->
  (forall d ansi, P d -> P (stepEsc ansi d)) ->
  forall its d, P d -> P (deskRun w tol trim its d).
Proof.
  intros Hpush Happ Hnil Hesc.
  assert (Hdash : forall d more t, P d -> P (ddash w more t d)).
  { intros d more t H. unfold ddash.
    destruct ((rowWidth (cur d) >=? w) && more && Codes.isBreakingDash (fst t));
      auto. }
  induction its as [|[ansi|t] rest IH]; intros d H; cbn [deskRun]; [exact H| |].
  - apply IH, Hesc, H.
  - apply IH. unfold stepChr.
    destruct (fst t =? 10); [auto|].
    destruct (rowWidth (cur d) + segmentWidth (fst t) >? w); [|auto].
    destruct (trim && Codes.isBreakingSpace (fst t));
      destruct (Codes.isBreakingSpace (fst t)
                || (rowWidth (cur d) + segmentWidth (fst t) >? w + tol)); auto.
Qed.

Lemma rowsOf_invariant (P : desk -> Prop) (str : ustring) :
  (forall d, P d -> P (dpush d)) ->
  (forall d t, P d -> P (dappend d [Chr t] (segmentWidth (fst t)))) ->
  (forall d, P d -> P (dappend d [] 0)) ->
  (forall d ansi, P d -> P (stepEsc ansi d)) ->
  (forall d, P d -> P (forget true d)) ->
  P deskStart ->
  exists d, P d /\ rowsOf str w tol trim = rows d.
Proof.
  intros Hpush Happ Hnil Hesc Hforget H0. eexists. split; [|reflexivity].
  apply Hpush.
  assert (H : P (deskRun w tol trim (fst (items str)) deskStart))
    by (apply deskRun_invariant; assumption).
  destruct (snd (items str)); [apply Hforget|]; exact H.
Qed.

Lemma rowsOf_RowSum (str : ustring) : Forall RowSum (rowsOf str w tol trim).
Proof.
  destruct (rowsOf_invariant DeskSum str) as (d & [H _] & ->); [| | | | | |exact H].
  - intros d [Hr Hc]. split; [|reflexivity].
    cbn [dpush rows]. apply Forall_app. split; [exact Hr|].
    constructor; [exact Hc|constructor].
  - intros d t [Hr Hc]. split; [exact Hr|].
    unfold RowSum in *. cbn [dappend cur rowWidth body].
    rewrite bodyWidth_app, Hc. cbn. lia.
  - intros d [Hr Hc]. split; [exact Hr|].
    unfold RowSum in *. cbn [dappend cur rowWidth body].
    rewrite app_nil_r, Hc. lia.
  - intros d ansi [Hr Hc]. split; [exact Hr|].
    unfold RowSum in *. cbn [stepEsc cur rowWidth body].
    rewrite bodyWidth_app, Hc. cbn. lia.
  - intros d H. exact H.
  - split; [constructor|reflexivity].
Qed.

(** *** The items of the rows *)

Lemma bodiesOf_dpush (d : desk) :
  bodiesOf (dpush d) = bodiesOf d
  /\ concat (map body (rows (dpush d))) = bodiesOf d.
Proof.
  unfold bodiesOf, dpush. cbn [rows cur body].
  rewrite map_app, concat_app. cbn [map concat body].
  rewrite !app_nil_r. auto.
Qed.

Lemma bodiesOf_dappend (d : desk) (its : list item) (sw : Z) :
  bodiesOf (dappend d its sw) = bodiesOf d ++ its.
Proof. unfold bodiesOf, dappend. cbn. rewrite app_assoc. reflexivity. Qed.

Lemma bodiesOf_ddash (more : bool) (t : token) (d : desk) :
  bodiesOf (ddash w more t d) = bodiesOf d.
Proof.
  unfold ddash.
  destruct ((rowWidth (cur d) >=? w) && more && Codes.isBreakingDash (fst t));
    [apply bodiesOf_dpush|reflexivity].
Qed.

(** A token is appended to the row being filled, unless it is a line feed
    or a breaking space trimmed at a break. *)
Lemma bodiesOf_stepChr (more : bool) (t : token) (d : desk) :
  bodiesOf (stepChr w tol trim more t d)
  = bodiesOf d
    ++ (if fst t =? 0x0A then []
        else if (rowWidth (cur d) + segmentWidth (fst t) >? w) && trim
                && Codes.isBreakingSpace (fst t)
             then [] else [Chr t]).
Proof.
  unfold stepChr. destruct (fst t =? 10).
  - rewrite app_nil_r. apply bodiesOf_dpush.
  - destruct (rowWidth (cur d) + segmentWidth (fst t) >? w); cbn [andb].
    + rewrite bodiesOf_ddash.
      destruct (trim && Codes.isBreakingSpace (fst t));
        rewrite bodiesOf_dappend;
        destruct (Codes.isBreakingSpace (fst t)
                  || (rowWidth (cur d) + segmentWidth (fst t) >? w + tol));
        rewrite ?(proj1 (bodiesOf_dpush d)); reflexivity.
    + rewrite bodiesOf_ddash, bodiesOf_dappend. reflexivity.
Qed.

Lemma bodiesOf_stepEsc (ansi : ustring) (d : desk) :
  bodiesOf (stepEsc ansi d) = bodiesOf d ++ [Esc ansi].
Proof. unfold bodiesOf, stepEsc. cbn. rewrite app_assoc. reflexivity. Qed.


Lemma rowsOf_bodies (str : ustring) :
  concat (map body (rowsOf str w tol trim))
  = bodiesOf (deskRun w tol trim (fst (items str)) deskStart).
Proof.
  unfold rowsOf. rewrite (proj2 (bodiesOf_dpush _)).
  destruct (snd (items str)); reflexivity.
Qed.


(** *** The background sequences tracked *)

Lemma trackFrom_app (bg : list ustring) (a b : list item) :
  trackFrom bg (a ++ b) = trackFrom (trackFrom bg a) b.
Proof. apply fold_left_app. Qed.

Lemma Chained_snoc (pre : list item) (rs : list row) (r : row) :
  Chained pre rs ->
  reopen r = trackFrom [] (pre ++ concat (map body rs)) ->
  shut r = anyOpen (trackFrom [] (pre ++ concat (map body rs) ++ body r)) ->
  Chained pre (rs ++ [r]).
Proof.
  revert pre. induction rs as [|x rs IH]; intros pre H Hre Hsh; cbn in *.
  - rewrite app_nil_r in Hre. auto.
  - destruct H as (H1 & H2 & H3). split; [exact H1|]. split; [exact H2|].
    apply IH; [exact H3| |]; rewrite <- !app_assoc in *; assumption.
Qed.


Lemma deskRun_tracked (its : list item) (d : desk) :
  TrackInv d -> TrackInv (deskRun w tol trim its d).
Proof.
  revert its d. apply deskRun_invariant.
  - intros d (Hc & Hre & Ht). unfold TrackInv.
    rewrite (proj1 (bodiesOf_dpush d)), (proj2 (bodiesOf_dpush d)).
    cbn [dpush rows cur reopen tracked]. split; [|auto].
    apply Chained_snoc; [exact Hc|exact Hre|].
    cbn [body app]. rewrite Ht. reflexivity.
  - intros d t (Hc & Hre & Ht). unfold TrackInv.
    rewrite bodiesOf_dappend, trackFrom_app, <- Ht. auto.
  - intros d (Hc & Hre & Ht). unfold TrackInv.
    rewrite bodiesOf_dappend, app_nil_r. auto.
  - intros d ansi (Hc & Hre & Ht). unfold TrackInv.
    rewrite bodiesOf_stepEsc, trackFrom_app, <- Ht. auto.
Qed.

(** The rows of a run: all but the last were pushed inside the loop. *)
Lemma rowsOf_chain (str : ustring) :
  exists front last,
    rowsOf str w tol trim = front ++ [last]
    /\ Chained [] front
    /\ reopen last = trackFrom [] (concat (map body front))
    /\ shut last
       = negb (snd (items str))
         && anyOpen (trackFrom [] (concat (map body front) ++ body last)).
Proof.
  assert (H : TrackInv (deskRun w tol trim (fst (items str)) deskStart)).
  { apply deskRun_tracked. repeat split. }
  destruct H as (Hc & Hre & Ht). unfold rowsOf.
  set (d := deskRun w tol trim (fst (items str)) deskStart) in *.
  exists (rows d),
    (mkRow (reopen (cur d)) (body (cur d)) (rowWidth (cur d))
       (anyOpen (tracked (forget (snd (items str)) d)))).
  split; [destruct (snd (items str)); reflexivity|].
  split; [exact Hc|]. split; [exact Hre|].
  cbn [shut body]. fold (bodiesOf d). rewrite <- Ht.
  destruct (snd (items str)); reflexivity.
Qed.

End DeskInvariants.

(** ** What the loop reads *)

Section ScanFacts.

Context {R : Regexes}.
Variable str : ustring.

Lemma Searched_searchFrom (i : nat) : Searched str (searchFrom str i).
Proof.
  unfold Searched, searchFrom.
  destruct (ansi_consec_match (skipn i str)) as [[a ansi]|] eqn:H; [|exact I].
  exists i, a. exact H.
Qed.

Lemma scan_ReadFrom (fuel : nat) :
  forall i found,
  Searched str found -> Forall (ReadFrom str) (fst (scan str fuel i found)).
Proof.
  induction fuel as [|fuel IH]; intros i found Hf; cbn [scan]; [constructor|].
  assert (Hc : forall i found, Searched str found ->
                 Forall (ReadFrom str)
                   (fst (scanChars str (scan str fuel) i found))).
  { intros i0 found0 Hf0. unfold scanChars, readChr.
    destruct (codePointAt str i0) as [code|] eqn:Hcode; [|apply IH; exact Hf0].
    destruct (buildSegment str i0 code) as [[seg sw] i'] eqn:Hb.
    pose proof (IH (S i') found0 Hf0) as Hrest.
    destruct (scan str fuel (S i') found0) as [its broke]. cbn [fst] in *.
    constructor; [|exact Hrest].
    exists i0. cbn [fst snd]. rewrite Hb. split; [exact Hcode|reflexivity]. }
  destruct (i <? length str)%nat; [|constructor].
  destruct found as [[a ansi]|]; [|apply Hc; exact I].
  destruct (a =? i)%nat; [|apply Hc; exact Hf].
  destruct (i + length ansi =? length str)%nat.
  - constructor; [exact Hf|constructor].
  - pose proof (Hc (i + length ansi)%nat _
                  (Searched_searchFrom (i + length ansi))) as Hrest.
    destruct (scanChars str (scan str fuel) (i + length ansi)
                (searchFrom str (i + length ansi))) as [its broke].
    constructor; [exact Hf|exact Hrest].
Qed.

Lemma items_ReadFrom : Forall (ReadFrom str) (fst (items str)).
Proof. apply scan_ReadFrom, Searched_searchFrom. Qed.

(** Leaving through the [break] happens at a run, the last item read. *)
Lemma scan_broke (fuel : nat) :
  forall i found,
  snd (scan str fuel i found) = true ->
  endsInEsc (fst (scan str fuel i found)) = true.
Proof.
  induction fuel as [|fuel IH]; intros i found; cbn [scan]; [discriminate|].
  assert (Hc : forall i found,
                 snd (scanChars str (scan str fuel) i found) = true ->
                 endsInEsc (fst (scanChars str (scan str fuel) i found)) = true
                 /\ fst (scanChars str (scan str fuel) i found) <> []).
  { intros i0 found0. unfold scanChars.
    destruct (readChr str i0) as [[t i']|].
    - pose proof (IH (S i') found0) as Hrest.
      destruct (scan str fuel (S i') found0) as [its broke]. cbn [fst snd] in *.
      intros Hb. specialize (Hrest Hb). split; [|discriminate].
      unfold endsInEsc in *. destruct its as [|x its]; [discriminate Hrest|].
      exact Hrest.
    - intros Hb. pose proof (IH (S i0) found0 Hb) as Hrest. split; [exact Hrest|].
      intros Hnil. rewrite Hnil in Hrest. discriminate Hrest. }
  destruct (i <? length str)%nat; [|discriminate].
  destruct found as [[a ansi]|]; [|apply Hc].
  destruct (a =? i)%nat; [|apply Hc].
  destruct (i + length ansi =? length str)%nat; [reflexivity|].
  pose proof (Hc (i + length ansi)%nat (searchFrom str (i + length ansi)))
    as Hrest.
  destruct (scanChars str (scan str fuel) (i + length ansi)
              (searchFrom str (i + length ansi))) as [its broke].
  cbn [fst snd] in *. intros Hb. destruct (Hrest Hb) as [He Hne].
  unfold endsInEsc in *. destruct its as [|x its]; [congruence|exact He].
Qed.

End ScanFacts.

(** ** Rows that take no flush *)

Lemma moreItems_app (x y : list item) :
  moreItems (x ++ y) = moreItems x || moreItems y.
Proof. destruct x; reflexivity. Qed.

Lemma fedWith_app (after : bool) (w : Z) (x y : list item) :
  forall k,
  fedWith after w (x ++ y) k
  = match fedWith (moreItems y || after) w x k with
    | Some k1 => fedWith after w y k1
    | None => None
    end.
Proof.
  induction x as [|[a|t] x IH]; intros k; cbn [app fedWith]; [reflexivity|apply IH|].
  rewrite moreItems_app, <- orb_assoc.
  destruct (fst t =? 10); [reflexivity|].
  destruct (k + segmentWidth (fst t) >? w); [reflexivity|].
  destruct ((k + segmentWidth (fst t) >=? w)
            && (moreItems x || (moreItems y || after))
            && Codes.isBreakingDash (fst t)); [reflexivity|apply IH].
Qed.

Lemma fedWith_weaken (after : bool) (w : Z) (its : list item) :
  forall k k',
  fedWith true w its k = Some k' -> fedWith after w its k = Some k'.
Proof.
  induction its as [|[a|t] its IH]; intros k k'; cbn [fedWith]; [auto|apply IH|].
  rewrite orb_true_r, andb_true_r.
  destruct (fst t =? 10); [discriminate|].
  destruct (k + segmentWidth (fst t) >? w); [discriminate|].
  destruct (k + segmentWidth (fst t) >=? w); cbn [andb]; [|apply IH].
  destruct (Codes.isBreakingDash (fst t)); [discriminate|].
  rewrite andb_false_r. apply IH.
Qed.

(** Without a full row ending in a dash, nothing changes when text
    follows. *)
Lemma fedWith_strict (w : Z) (its : list item) :
  forall k k',
  fedWith false w its k = Some k' ->
  match last its (Esc []) with
  | Chr t => (k' >=? w) && Codes.isBreakingDash (fst t)
  | Esc _ => false
  end = false ->
  fedWith true w its k = Some k'.
Proof.
  induction its as [|[a|t] its IH]; intros k k'; cbn [fedWith]; [auto| |].
  - intros H Hl. apply IH; [exact H|].
    destruct its; [reflexivity|exact Hl].
  - rewrite orb_false_r, orb_true_r, andb_true_r.
    destruct (fst t =? 10); [discriminate|].
    destruct (k + segmentWidth (fst t) >? w); [discriminate|].
    destruct its as [|x its].
    + cbn [moreItems andb fedWith last]. rewrite andb_false_r.
      intros [= <-] Hl. rewrite Hl. reflexivity.
    + cbn [moreItems]. rewrite andb_true_r.
      destruct ((k + segmentWidth (fst t) >=? w) && Codes.isBreakingDash (fst t));
        [discriminate|].
      intros H Hl. apply IH; [exact H|exact Hl].
Qed.

Section Fed.

Context {R : Regexes}.
Variable w : Z.
Hypothesis w_valid : 2 <= w.

(** Items that cause no flush are appended to the row being filled. *)
Lemma deskRun_fed_app (its post : list item) :
  forall rs bg re b k k',
  fedWith (moreItems post) w its k = Some k' ->
  deskRun w 0 false (its ++ post) (mkDesk rs bg (mkRow re b k false))
  = deskRun w 0 false post
      (mkDesk rs (trackFrom bg its) (mkRow re (b ++ its) k' false)).
Proof using Type.
  induction its as [|[a|t] its IH]; intros rs bg re b k k';
    cbn [fedWith deskRun app].
  - intros [= <-]. rewrite app_nil_r. reflexivity.
  - intros H. unfold stepEsc. cbn [rows tracked cur reopen body rowWidth].
    rewrite (IH _ _ _ _ _ _ H), <- app_assoc. reflexivity.
  - rewrite moreItems_app.
    destruct (fst t =? 10) eqn:Hnl; [discriminate|].
    destruct (k + segmentWidth (fst t) >? w) eqn:Hgt; [discriminate|].
    destruct ((k + segmentWidth (fst t) >=? w)
              && (moreItems its || moreItems post)
              && Codes.isBreakingDash (fst t)) eqn:Hd; [discriminate|].
    intros H. unfold stepChr, ddash, dappend.
    cbn [rows tracked cur reopen body rowWidth]. rewrite Hnl, Hgt, Hd.
    rewrite (IH _ _ _ _ _ _ H), <- app_assoc. reflexivity.
Qed.

Lemma deskRun_fed (its : list item) :
  forall rs bg re b k k',
  fedWith false w its k = Some k' ->
  deskRun w 0 false its (mkDesk rs bg (mkRow re b k false))
  = mkDesk rs (trackFrom bg its) (mkRow re (b ++ its) k' false).
Proof using Type.
  intros rs bg re b k k' H.
  pose proof (deskRun_fed_app its [] rs bg re b k k' H) as E.
  rewrite app_nil_r in E. exact E.
Qed.

Lemma FedInv_stepEsc (m : bool) (ansi : ustring) (d : desk) :
  FedInv w true d -> FedInv w m (stepEsc ansi d).
Proof using Type.
  intros [Hr Hc]. split; [exact Hr|].
  cbn [stepEsc cur body rowWidth].
  rewrite fedWith_app. cbn [moreItems orb]. rewrite Hc. reflexivity.
Qed.

Lemma FedInv_dpush (m m' : bool) (d : desk) :
  FedInv w m d -> FedInv w m' (dpush d).
Proof using Type.
  intros [Hr Hc]. split; [|reflexivity].
  cbn [dpush rows]. apply Forall_app. split; [exact Hr|].
  constructor; [|constructor]. cbn [body rowWidth].
  destruct m; [apply fedWith_weaken|]; exact Hc.
Qed.

Lemma FedInv_dappend (m : bool) (t : token) (d : desk) :
  FedInv w true d ->
  (fst t =? 0x0A) = false ->
  rowWidth (cur d) + segmentWidth (fst t) <= w ->
  (rowWidth (cur d) + segmentWidth (fst t) >=? w) && m
  && Codes.isBreakingDash (fst t) = false ->
  FedInv w m (dappend d [Chr t] (segmentWidth (fst t))).
Proof using Type.
  intros [Hr Hc] Hnl Hle Hd. split; [exact Hr|].
  cbn [dappend cur body rowWidth].
  rewrite fedWith_app. cbn [moreItems orb]. rewrite Hc.
  cbn [fedWith moreItems orb]. rewrite Hnl.
  replace (rowWidth (cur d) + segmentWidth (fst t) >? w) with false
    by (symmetry; rewrite Z.gtb_ltb; apply Z.ltb_ge; lia).
  rewrite Hd. reflexivity.
Qed.

Lemma FedInv_stepChr (m : bool) (t : token) (d : desk) :
  FedInv w true d -> FedInv w m (stepChr w 0 false m t d).
Proof using w_valid.
  intros H. unfold stepChr.
  destruct (fst t =? 10) eqn:Hnl; [apply (FedInv_dpush true); exact H|].
  pose proof (segmentWidth_range (fst t)) as Hsw.
  cbn [andb]. rewrite Z.add_0_r.
  destruct (rowWidth (cur d) + segmentWidth (fst t) >? w) eqn:Hgt.
  - rewrite orb_true_r.
    assert (Hp : FedInv w true (dpush d)) by (apply (FedInv_dpush true); exact H).
    unfold ddash.
    destruct ((rowWidth (cur (dappend (dpush d) [Chr t] (segmentWidth (fst t))))
               >=? w) && m && Codes.isBreakingDash (fst t)) eqn:Hd.
    + apply (FedInv_dpush false).
      apply FedInv_dappend; [exact Hp|exact Hnl|cbn; lia|].
      rewrite andb_false_r. reflexivity.
    + apply FedInv_dappend; [exact Hp|exact Hnl|cbn; lia|exact Hd].
  - assert (Hle : rowWidth (cur d) + segmentWidth (fst t) <= w).
    { rewrite Z.gtb_ltb in Hgt. apply Z.ltb_ge in Hgt. exact Hgt. }
    unfold ddash.
    destruct ((rowWidth (cur (dappend d [Chr t] (segmentWidth (fst t)))) >=? w)
              && m && Codes.isBreakingDash (fst t)) eqn:Hd.
    + apply (FedInv_dpush false).
      apply FedInv_dappend; [exact H|exact Hnl|exact Hle|].
      rewrite andb_false_r. reflexivity.
    + apply FedInv_dappend; [exact H|exact Hnl|exact Hle|exact Hd].
Qed.

Lemma deskRun_FedInv (its : list item) :
  forall d,
  FedInv w (moreItems its) d -> FedInv w false (deskRun w 0 false its d).
Proof using w_valid.
  induction its as [|[a|t] its IH]; intros d H; cbn [deskRun]; [exact H| |].
  - apply IH, FedInv_stepEsc, H.
  - apply IH, FedInv_stepChr, H.
Qed.

(** At tolerance 0 and without trimming, the items of every row of a run
    were appended without a flush. *)
Lemma rowsOf_fed (str : ustring) :
  Forall (fun r => fedWith false w (body r) 0 = Some (rowWidth r))
    (rowsOf str w 0 false).
Proof using w_valid.
  assert (H : FedInv w false (deskRun w 0 false (fst (items str)) deskStart)).
  { apply deskRun_FedInv. split; [constructor|reflexivity]. }
  unfold rowsOf.
  assert (H' : FedInv w false
                 (forget (snd (items str))
                    (deskRun w 0 false (fst (items str)) deskStart)))
    by (destruct (snd (items str)); exact H).
  apply (FedInv_dpush false false) in H'. apply H'.
Qed.

End Fed.

(** ** A row read again *)

Lemma itemsText_withOpen (re : list ustring) (its : list item) :
  itemsText (withOpen re its) = concat re ++ itemsText its.
Proof.
  unfold withOpen. destruct re as [|x re]; [reflexivity|].
  destruct its as [|[a|t] its]; unfold itemsText; cbn [map concat itemText];
    rewrite ?app_nil_r, ?app_assoc; reflexivity.
Qed.

Lemma itemsText_withClose (its : list item) :
  itemsText (withClose its) = itemsText its ++ BG_CLOSE.
Proof.
  induction its as [|[a|t] its IH].
  - unfold itemsText. cbn. reflexivity.
  - destruct its as [|x its].
    + unfold itemsText. cbn [withClose map concat itemText].
      rewrite !app_nil_r. reflexivity.
    + change (withClose (Esc a :: x :: its)) with (Esc a :: withClose (x :: its)).
      unfold itemsText in *. cbn [map concat itemText] in *.
      rewrite IH, app_assoc. reflexivity.
  - change (withClose (Chr t :: its)) with (Chr t :: withClose its).
    unfold itemsText in *. cbn [map concat itemText] in *.
    rewrite IH, app_assoc. reflexivity.
Qed.

Lemma itemsText_expected (r : row) : itemsText (expected r) = rowText r.
Proof.
  unfold expected, rowText. destruct (shut r).
  - rewrite itemsText_withClose, itemsText_withOpen, app_assoc. reflexivity.
  - rewrite itemsText_withOpen, app_nil_r. reflexivity.
Qed.

Lemma fedWith_withOpen (after : bool) (w : Z) (re : list ustring)
    (its : list item) (k : Z) :
  fedWith after w (withOpen re its) k = fedWith after w its k.
Proof.
  unfold withOpen. destruct re as [|x re]; [reflexivity|].
  destruct its as [|[a|t] its]; reflexivity.
Qed.

Lemma withClose_more (its : list item) : moreItems (withClose its) = true.
Proof. destruct its as [|[a|t] [|x its]]; reflexivity. Qed.

Lemma fedWith_withClose (w : Z) (its : list item) :
  forall k, fedWith false w (withClose its) k = fedWith true w its k.
Proof.
  induction its as [|[a|t] its IH]; intros k; [reflexivity| |].
  - destruct its as [|x its]; [reflexivity|].
    change (withClose (Esc a :: x :: its)) with (Esc a :: withClose (x :: its)).
    cbn [fedWith]. apply IH.
  - change (withClose (Chr t :: its)) with (Chr t :: withClose its).
    cbn [fedWith]. rewrite withClose_more, IH, orb_true_r. reflexivity.
Qed.

(** The items of a row cause no flush when the row is read again. *)
Lemma fedWith_expected (w : Z) (r : row) :
  fedWith false w (body r) 0 = Some (rowWidth r) ->
  dashShut w r = false ->
  fedWith false w (expected r) 0 = Some (rowWidth r).
Proof.
  intros Hf Hd. unfold expected, dashShut, lastDash in *.
  destruct (shut r); cbn [andb] in Hd.
  - rewrite fedWith_withClose, fedWith_withOpen.
    apply fedWith_strict; [exact Hf|exact Hd].
  - rewrite fedWith_withOpen. exact Hf.
Qed.

Lemma endsInEsc_withClose (its : list item) : endsInEsc (withClose its) = true.
Proof.
  unfold endsInEsc. induction its as [|[a|t] its IH]; [reflexivity| |].
  - destruct its as [|x its]; [reflexivity|].
    change (withClose (Esc a :: x :: its)) with (Esc a :: withClose (x :: its)).
    pose proof (withClose_more (x :: its)) as Hm.
    destruct (withClose (x :: its)); [discriminate Hm|exact IH].
  - change (withClose (Chr t :: its)) with (Chr t :: withClose its).
    pose proof (withClose_more its) as Hm.
    destruct (withClose its); [discriminate Hm|exact IH].
Qed.

Lemma endsInEsc_withOpen (re : list ustring) (its : list item) :
  endsInEsc (withOpen re its) = false -> endsInEsc its = false.
Proof.
  unfold withOpen, endsInEsc. destruct re as [|x re]; [auto|].
  destruct its as [|[a|t] its]; [reflexivity| |].
  - destruct its; [discriminate|auto].
  - auto.
Qed.

Section Tracking.

Context {R : Regexes}.

Lemma trackBackground_cleared (ansi : ustring) (bg1 bg2 : list ustring) :
  bg1 <> [] -> trackBackground ansi bg1 = [] -> trackBackground ansi bg2 = [].
Proof.
  unfold trackBackground. intros Hne.
  destruct (ansi_bgGlobal_match ansi) as [bgs|]; [|congruence].
  cbv zeta.
  destruct (lastIndexOf bgs BG_CLOSE + 1 =? Z.of_nat (length bgs)); [reflexivity|].
  intros H. apply app_eq_nil in H. destruct H as [H _]. congruence.
Qed.

(** What a row starts with does not matter to whether its runs leave a
    sequence unclosed, once they close what it started with. *)
Lemma trackFrom_cleared (its : list item) :
  forall bg1 bg2,
  bg1 <> [] -> trackFrom bg1 its = [] -> trackFrom bg2 its = [].
Proof.
  induction its as [|[a|t] its IH]; intros bg1 bg2 Hne; cbn [trackFrom fold_left].
  - congruence.
  - fold (trackFrom (trackBackground a bg1) its).
    fold (trackFrom (trackBackground a bg2) its).
    destruct (trackBackground a bg1) as [|x l] eqn:H1.
    + rewrite (trackBackground_cleared a bg1 bg2 Hne H1). auto.
    + apply IH. discriminate.
  - fold (trackFrom bg1 its). fold (trackFrom bg2 its). apply IH. exact Hne.
Qed.

(** A row that was pushed unclosed and does not end in a run leaves no
    sequence unclosed when it is read again. *)
Lemma trackFrom_expected (r : row) :
  shut r = false -> endsInEsc (expected r) = false ->
  RowTrack r -> BgStable r ->
  trackFrom [] (expected r) = [].
Proof.
  intros Hs He Ht Hb. unfold expected in *. rewrite Hs in *.
  specialize (Ht Hs (endsInEsc_withOpen _ _ He)).
  unfold withOpen, BgStable in *.
  destruct (reopen r) as [|x re] eqn:Hre; [exact Ht|].
  destruct (body r) as [|[a|t] its] eqn:Hbody.
  - discriminate He.
  - cbn [trackFrom fold_left] in *.
    fold (trackFrom (trackBackground (concat (x :: re) ++ a) []) its).
    fold (trackFrom (trackBackground a (x :: re)) its) in Ht.
    destruct (trackBackground a (x :: re)) as [|y l] eqn:H1.
    + rewrite (Hb eq_refl). exact Ht.
    + apply (trackFrom_cleared its (y :: l)); [discriminate|exact Ht].
  - cbn [trackFrom fold_left] in *.
    fold (trackFrom (trackBackground (concat (x :: re)) []) its).
    fold (trackFrom (x :: re) its) in Ht.
    apply (trackFrom_cleared its (x :: re)); [discriminate|exact Ht].
Qed.

Lemma Chained_RowTrack (rs : list row) :
  forall pre, Chained pre rs -> Forall RowTrack rs.
Proof.
  induction rs as [|r rs IH]; intros pre H; [constructor|].
  destruct H as (H1 & H2 & H3). constructor; [|apply (IH _ H3)].
  intros Hs _. rewrite trackFrom_app, <- H1, Hs in H2.
  destruct (trackFrom (reopen r) (body r)); [reflexivity|discriminate H2].
Qed.

Lemma deskRun_endsInEsc (w tol : Z) (trim : bool) (its : list item) :
  forall d,
  endsInEsc its = true ->
  endsInEsc (body (cur (deskRun w tol trim its d))) = true.
Proof.
  unfold endsInEsc.
  induction its as [|x its IH]; intros d H; [discriminate H|].
  destruct its as [|y its].
  - destruct x as [a|t]; [|discriminate H].
    cbn [deskRun stepEsc cur body]. rewrite last_last. reflexivity.
  - destruct x as [a|t]; cbn [deskRun]; apply IH; exact H.
Qed.

Lemma rowsOf_RowTrack (str : ustring) (w tol : Z) (trim : bool) :
  Forall RowTrack (rowsOf str w tol trim).
Proof.
  destruct (rowsOf_chain w tol trim str) as (front & lst & E & Hc & Hre & Hsh).
  rewrite E. apply Forall_app. split; [apply (Chained_RowTrack _ _ Hc)|].
  constructor; [|constructor]. intros Hs He.
  rewrite trackFrom_app, <- Hre, Hs in Hsh.
  destruct (snd (items str)) eqn:Hb.
  - exfalso. apply (scan_broke str) in Hb.
    apply (deskRun_endsInEsc w tol trim _ deskStart) in Hb.
    assert (Hl : body lst
                 = body (cur (deskRun w tol trim (fst (items str)) deskStart))).
    { unfold rowsOf in E. cbn [dpush rows] in E.
      apply app_inj_tail in E. destruct E as [_ E]. rewrite <- E.
      destruct (snd (items str)); reflexivity. }
    unfold items in Hl. rewrite <- Hl in Hb. congruence.
  - cbn [negb andb] in Hsh.
    destruct (trackFrom (reopen lst) (body lst)); [reflexivity|discriminate Hsh].
Qed.

End Tracking.

Lemma withClose_snoc (x : list item) (t : token) :
  withClose (x ++ [Chr t]) = x ++ [Chr t; Esc BG_CLOSE].
Proof.
  induction x as [|[a|u] x IH]; [reflexivity| |].
  - cbn [app]. destruct x as [|y x]; [reflexivity|].
    change (withClose (Esc a :: (y :: x) ++ [Chr t]))
      with (Esc a :: withClose ((y :: x) ++ [Chr t])).
    rewrite IH. reflexivity.
  - cbn [app]. change (withClose (Chr u :: x ++ [Chr t]))
      with (Chr u :: withClose (x ++ [Chr t])).
    rewrite IH. reflexivity.
Qed.

Lemma withOpen_snoc (re : list ustring) (x : list item) (t : token) :
  exists pre,
    withOpen re (x ++ [Chr t]) = pre ++ [Chr t]
    /\ forall after w k, fedWith after w pre k = fedWith after w x k.
Proof.
  unfold withOpen. destruct re as [|y re]; [exists x; auto|].
  destruct x as [|[a|u] x].
  - exists [Esc (concat (y :: re))]. auto.
  - exists (Esc (concat (y :: re) ++ a) :: x). auto.
  - exists (Esc (concat (y :: re)) :: Chr u :: x). auto.
Qed.

Lemma concat_map_longer {A : Type} (f : A -> list A) (l : list A) (x : A) :
  (forall y, In y l -> (1 <= length (f y))%nat) ->
  In x l -> (2 <= length (f x))%nat ->
  (length l < length (concat (map f l)))%nat.
Proof.
  intros Hall Hx H2.
  assert (Hge : forall l', (forall y, In y l' -> (1 <= length (f y))%nat) ->
                  (length l' <= length (concat (map f l')))%nat).
  { induction l' as [|y l' IH]; intros H; [cbn; lia|].
    cbn [map concat length]. rewrite length_app.
    pose proof (H y (or_introl eq_refl)).
    specialize (IH (fun z Hz => H z (or_intror Hz))). lia. }
  induction l as [|y l IH]; [destruct Hx|].
  cbn [map concat length]. rewrite length_app.
  destruct Hx as [->|Hx].
  - specialize (Hge l (fun z Hz => Hall z (or_intror Hz))). lia.
  - specialize (IH (fun z Hz => Hall z (or_intror Hz)) Hx).
    pose proof (Hall y (or_introl eq_refl)). lia.
Qed.

Section RewrapRows.

Context {R : Regexes}.

Lemma breakLine_some_line (s : ustring) (width : number)
    (opts : option Opts.t) :
  (1 <= length (breakLine s width opts))%nat.
Proof.
  unfold breakLine.
  destruct ((length s =? 0)%nat || negb (Number_isInteger width)
            || number_ltZ width 2); [cbn; lia|].
  pose proof (run_lines_nonempty (lineBreak_replace s) (number_toZ width)
                (toleranceOf opts) (trimBreakOf opts)) as H.
  cbv zeta.
  destruct (match run (lineBreak_replace s) (number_toZ width)
                    (toleranceOf opts) (trimBreakOf opts) with
            | Some st => lines st
            | None => []
            end); [congruence|cbn; lia].
Qed.

(** A row read again the way it was built, wrapped alone at the width it
    was made for, comes back as it is, unless it is a full row that ends
    in a dash and was closed. *)
Lemma rewrap_row (w : Z) (r : row) :
  2 <= w -> Reread r -> dashShut w r = false ->
  fedWith false w (body r) 0 = Some (rowWidth r) ->
  RowTrack r ->
  breakLine (rowText r) (NInt w) None = [rowText r].
Proof.
  intros Hw (Hnorm & Hscan & Hbg) Hdash Hfed Htrack.
  destruct (rowText r) as [|u l] eqn:Htext;
    [apply breakLine_guard; left; reflexivity|].
  rewrite <- Htext in *.
  rewrite breakLine_rows by (try exact Hw; rewrite Htext; discriminate).
  cbn [toleranceOf trimBreakOf]. rewrite Hnorm. unfold rowsOf.
  rewrite Hscan. cbn [fst snd]. unfold deskStart.
  rewrite (deskRun_fed w (expected r) [] [] [] [] 0 (rowWidth r)
             (fedWith_expected w r Hfed Hdash)).
  cbn [app].
  assert (Hopen : tracked
                    (forget (endsInEsc (expected r))
                       (mkDesk [] (trackFrom [] (expected r))
                          (mkRow [] (expected r) (rowWidth r) false)))
                  = []).
  { destruct (endsInEsc (expected r)) eqn:He; [reflexivity|].
    cbn [forget tracked]. apply trackFrom_expected; try assumption.
    destruct (shut r) eqn:Hs; [|reflexivity].
    unfold expected in He. rewrite Hs, endsInEsc_withClose in He.
    discriminate He. }
  unfold dpush. cbn [rows map app]. rewrite Hopen.
  assert (Hcur : cur (forget (endsInEsc (expected r))
                        (mkDesk [] (trackFrom [] (expected r))
                           (mkRow [] (expected r) (rowWidth r) false)))
                 = mkRow [] (expected r) (rowWidth r) false)
    by (destruct (endsInEsc (expected r)); reflexivity).
  assert (Hrows : rows (forget (endsInEsc (expected r))
                          (mkDesk [] (trackFrom [] (expected r))
                             (mkRow [] (expected r) (rowWidth r) false)))
                  = [])
    by (destruct (endsInEsc (expected r)); reflexivity).
  rewrite Hcur, Hrows. cbn [app map reopen body rowWidth anyOpen].
  unfold rowText at 1. cbn [reopen body shut concat app].
  rewrite itemsText_expected, app_nil_r. reflexivity.
Qed.

(** A full row that ends in a dash and was closed, wrapped again, is
    flushed after the dash: it comes back as two lines. *)
Lemma rewrap_dash_row (w : Z) (r : row) :
  2 <= w -> Reread r -> dashShut w r = true ->
  fedWith false w (body r) 0 = Some (rowWidth r) ->
  length (breakLine (rowText r) (NInt w) None) = 2%nat.
Proof.
  intros Hw (Hnorm & Hscan & _) Hdash Hfed.
  unfold dashShut, lastDash in Hdash. apply andb_true_iff in Hdash.
  destruct Hdash as [Hshut Hlast].
  destruct (body r) as [|x0 b'] eqn:Hbody using rev_ind;
    [discriminate Hlast|]. clear IHb'.
  rewrite last_last in Hlast. destruct x0 as [a|t]; [discriminate Hlast|].
  apply andb_true_iff in Hlast. destruct Hlast as [Hfull Hd].
  rewrite fedWith_app in Hfed. cbn [moreItems orb] in Hfed.
  destruct (fedWith true w b' 0) as [k0|] eqn:Hpre; [|discriminate Hfed].
  cbn [fedWith moreItems orb andb] in Hfed.
  destruct (fst t =? 10) eqn:Hnl; [discriminate Hfed|].
  destruct (k0 + segmentWidth (fst t) >? w) eqn:Hgt; [discriminate Hfed|].
  rewrite andb_false_r in Hfed. injection Hfed as Hk.
  assert (Hne : rowText r <> []).
  { unfold rowText. rewrite Hshut. intros H.
    apply app_eq_nil in H. destruct H as [_ H].
    apply app_eq_nil in H. destruct H as [_ H]. discriminate H. }
  rewrite breakLine_rows by assumption.
  cbn [toleranceOf trimBreakOf]. rewrite Hnorm, length_map. unfold rowsOf.
  rewrite Hscan. cbn [fst snd]. unfold expected. rewrite Hshut, Hbody.
  destruct (withOpen_snoc (reopen r) b' t) as (pre & -> & Hsame).
  rewrite withClose_snoc. unfold deskStart.
  rewrite (deskRun_fed_app w pre [Chr t; Esc BG_CLOSE] [] [] [] [] 0 k0)
    by (cbn [moreItems]; rewrite Hsame; exact Hpre).
  cbn [deskRun moreItems app]. unfold stepChr.
  cbn [cur rowWidth]. rewrite Hnl, Hgt. unfold ddash.
  cbn [dappend cur rowWidth]. rewrite Hk, Hfull, Hd. cbn [andb].
  destruct (endsInEsc (pre ++ [Chr t; Esc BG_CLOSE])); reflexivity.
Qed.

(** C5, as the code has it: when every line of [breakLine(s, w)] is read
    again the way it was built ([Reread]: it holds no line break left to
    normalise, the loop reads from its text the items it was made of, the
    sequences reopened at its start and [ESC[49m] at its end joined to the
    run next to them, and a run that closes the background still does when
    joined to the reopened sequences), wrapping again at the same width
    gives back exactly the lines,
    [breakLines(breakLine(s, w), w) = breakLine(s, w)], if and only if no
    line is a full line that ends in a breaking dash and was closed with
    [ESC[49m] ([dashShut]). This holds for every string, escape sequences
    included, and every width; at a width that is not an integer of at
    least 2, and for the empty string, nothing is asked and the lines
    always come back. *)
Theorem rewrap_idempotent (s : ustring) (width : number) :
  (forall w, width = NInt w -> 2 <= w -> s <> [] ->
   forall r, In r (rowsOf (lineBreak_replace s) w 0 false) -> Reread r) ->
  breakLines (breakLine s width None) width = breakLine s width None
  <-> (forall w, width = NInt w -> 2 <= w -> s <> [] ->
       forall r, In r (rowsOf (lineBreak_replace s) w 0 false) ->
       dashShut w r = false).
Proof.
  intros Hread.
  assert (Hguard : s = [] \/ Number_isInteger width = false
                   \/ number_ltZ width 2 = true ->
                   breakLines (breakLine s width None) width
                   = breakLine s width None).
  { intros H. rewrite (breakLine_guard s width None H).
    unfold breakLines. cbn [map concat].
    rewrite (breakLine_guard s width None H). reflexivity. }
  destruct s as [|u s'].
  { split; [intros _ w _ _ H; congruence|intros _; apply Hguard; auto]. }
  destruct (Number_isInteger width) eqn:Hint;
    [|split; [intros _ w -> _; discriminate Hint|intros _; apply Hguard; auto]].
  destruct (number_ltZ width 2) eqn:Hlt.
  { split; [|intros _; apply Hguard; auto].
    intros _ w -> Hw. cbn [number_ltZ] in Hlt. apply Z.ltb_lt in Hlt. lia. }
  destruct width as [w| | | |]; try discriminate Hint.
  cbn [number_ltZ] in Hlt. apply Z.ltb_ge in Hlt.
  assert (Hne : u :: s' <> []) by discriminate.
  specialize (Hread w eq_refl Hlt Hne).
  rewrite (breakLine_rows (u :: s') w None Hne Hlt).
  cbn [toleranceOf trimBreakOf]. unfold breakLines.
  pose proof (rowsOf_fed w Hlt (lineBreak_replace (u :: s'))) as Hfed.
  pose proof (rowsOf_RowTrack (lineBreak_replace (u :: s')) w 0 false) as Htr.
  rewrite Forall_forall in Hfed, Htr.
  split.
  - intros Hsame w' [= <-] _ _ r Hr.
    destruct (dashShut w r) eqn:Hd; [exfalso|reflexivity].
    apply (f_equal (@length _)) in Hsame.
    pose proof (concat_map_longer (fun l => breakLine l (NInt w) None)
                  (map rowText (rowsOf (lineBreak_replace (u :: s')) w 0 false))
                  (rowText r)) as Hlong.
    cbv beta in Hlong. rewrite Hsame in Hlong.
    apply (Nat.lt_irrefl (length (map rowText
             (rowsOf (lineBreak_replace (u :: s')) w 0 false)))), Hlong.
    + intros y _. apply breakLine_some_line.
    + apply in_map. exact Hr.
    + rewrite (rewrap_dash_row w r Hlt (Hread r Hr) Hd (Hfed r Hr)). lia.
  - intros Hdash. specialize (Hdash w eq_refl Hlt Hne).
    apply concat_map_singleton. intros l Hl.
    apply in_map_iff in Hl. destruct Hl as (r & <- & Hr).
    apply rewrap_row; auto.
Qed.

End RewrapRows.

(** ** C10: the width of every line *)

Section RowsOfLines.

Context {R : Regexes}.

Lemma deskRun_incl (w tol : Z) (trim : bool) (its : list item) :
  forall d x,
  In x (bodiesOf (deskRun w tol trim its d)) -> In x (bodiesOf d) \/ In x its.
Proof.
  induction its as [|[a|t] its IH]; intros d x Hx; cbn [deskRun] in Hx; [auto| |].
  - apply IH in Hx. rewrite bodiesOf_stepEsc in Hx.
    destruct Hx as [Hx|Hx]; [|right; right; exact Hx].
    apply in_app_or in Hx. destruct Hx as [Hx|[<-|[]]]; [auto|].
    right. left. reflexivity.
  - apply IH in Hx. rewrite bodiesOf_stepChr in Hx.
    destruct Hx as [Hx|Hx]; [|right; right; exact Hx].
    apply in_app_or in Hx. destruct Hx as [Hx|Hx]; [auto|].
    right. left.
    destruct (fst t =? 10); [destruct Hx|].
    destruct ((rowWidth (cur d) + segmentWidth (fst t) >? w) && trim
              && Codes.isBreakingSpace (fst t)); [destruct Hx|].
    destruct Hx as [<-|[]]. reflexivity.
Qed.

(** The items of the rows are items read from the text. *)
Lemma rowsOf_ReadFrom (str : ustring) (w tol : Z) (trim : bool) :
  Forall (ReadFrom str) (concat (map body (rowsOf str w tol trim))).
Proof.
  rewrite rowsOf_bodies. apply Forall_forall. intros x Hx.
  apply deskRun_incl in Hx. destruct Hx as [[]|Hx].
  pose proof (items_ReadFrom str) as H. rewrite Forall_forall in H.
  apply H, Hx.
Qed.

(** C10: for every string, every integer [maxWidth] of at least 2 and every
    tolerance of at least 0, each line [breakLine] returns is made of the
    background sequences reopened at its start, the items appended to it
    (escape runs the scanner matched and segments of code points read from
    the text) and [ESC[49m] if it was closed, and the sum of the widths of
    its items, as the loop assigns them (2 for a pair of surrogates, 0 for
    a combining or control character, 2 for a fullwidth one, else 1, and 0
    for an escape run) lies between 0 and [maxWidth + tolerance]. That sum
    is the running width the loop had when it pushed the line. *)
Theorem breakLine_width_bound (s : ustring) (maxWidth : Z)
    (opts : option Opts.t) :
  2 <= maxWidth -> 0 <= toleranceOf opts ->
  exists rs : list row,
    breakLine s (NInt maxWidth) opts = map rowText rs
    /\ Forall (fun r => 0 <= bodyWidth (body r)
                        <= maxWidth + toleranceOf opts) rs
    /\ (s <> [] ->
        rs = rowsOf (lineBreak_replace s) maxWidth (toleranceOf opts)
               (trimBreakOf opts)
        /\ Forall (ReadFrom (lineBreak_replace s)) (concat (map body rs))
        /\ exists fin,
             run (lineBreak_replace s) maxWidth (toleranceOf opts)
               (trimBreakOf opts) = Some fin
             /\ lines fin = map rowText rs
             /\ widths fin = map (fun r => bodyWidth (body r)) rs).
Proof.
  intros Hw Ht. destruct s as [|u s].
  - exists [mkRow [] [] 0 false]. split; [reflexivity|]. split.
    + constructor; [cbn; lia|constructor].
    + intros H. congruence.
  - set (str := lineBreak_replace (u :: s)).
    destruct (run_rows str maxWidth (toleranceOf opts) (trimBreakOf opts))
      as (fin & Hrun & Hl & Hws).
    destruct (WidthInv_run _ _ _ _ Hw Ht fin Hrun) as (_ & Hall & _).
    pose proof (rowsOf_RowSum maxWidth (toleranceOf opts) (trimBreakOf opts) str)
      as Hsum.
    exists (rowsOf str maxWidth (toleranceOf opts) (trimBreakOf opts)).
    split; [apply breakLine_rows; [discriminate|exact Hw]|].
    assert (Hmap : map rowWidth
                     (rowsOf str maxWidth (toleranceOf opts) (trimBreakOf opts))
                   = map (fun r => bodyWidth (body r))
                       (rowsOf str maxWidth (toleranceOf opts)
                          (trimBreakOf opts))).
    { apply map_ext_in. intros r Hr. rewrite Forall_forall in Hsum.
      apply (Hsum r Hr). }
    split.
    + rewrite Hws, Hmap in Hall. rewrite Forall_forall in Hall.
      apply Forall_forall. intros r Hr.
      apply (Hall (bodyWidth (body r))).
      apply (in_map (fun r => bodyWidth (body r))). exact Hr.
    + intros _. split; [reflexivity|]. split; [apply rowsOf_ReadFrom|].
      exists fin. rewrite <- Hmap. auto.
Qed.

(** ** C4: flushing in colour, and escape runs kept whole *)


End RowsOfLines.

Lemma breakLine_width_bound_witness :
  exists rs : list row,
    @breakLine SpecRegexes.regexes (bg41 ++ utf16 "ab-cdefgh i") (NInt 3)
      (toleranceOpts 1) = map rowText rs
    /\ Forall (fun r => 0 <= bodyWidth (body r)
                        <= 3 + toleranceOf (toleranceOpts 1)) rs
    /\ (bg41 ++ utf16 "ab-cdefgh i" <> [] ->
        rs = @rowsOf SpecRegexes.regexes
               (@lineBreak_replace SpecRegexes.regexes
                  (bg41 ++ utf16 "ab-cdefgh i")) 3
               (toleranceOf (toleranceOpts 1)) (trimBreakOf (toleranceOpts 1))
        /\ Forall (@ReadFrom SpecRegexes.regexes
                     (@lineBreak_replace SpecRegexes.regexes
                        (bg41 ++ utf16 "ab-cdefgh i")))
             (concat (map body rs))
        /\ exists fin,
             @run SpecRegexes.regexes
               (@lineBreak_replace SpecRegexes.regexes
                  (bg41 ++ utf16 "ab-cdefgh i")) 3
               (toleranceOf (toleranceOpts 1)) (trimBreakOf (toleranceOpts 1))
             = Some fin
             /\ lines fin = map rowText rs
             /\ widths fin = map (fun r => bodyWidth (body r)) rs).
Proof.
  apply (@breakLine_width_bound SpecRegexes.regexes
           (bg41 ++ utf16 "ab-cdefgh i") 3 (toleranceOpts 1));
    [lia | cbn; lia].
Defined.


Lemma rewrap_idempotent_witness :
  @breakLines SpecRegexes.regexes
    (@breakLine SpecRegexes.regexes
       (bg41 ++ utf16 "ab" ++ [0x0D; 0x0A] ++ BG_CLOSE ++ ESC :: utf16 "[31m"
        ++ utf16 "cd ef-g") (NInt 3) None)
    (NInt 3)
  = @breakLine SpecRegexes.regexes
      (bg41 ++ utf16 "ab" ++ [0x0D; 0x0A] ++ BG_CLOSE ++ ESC :: utf16 "[31m"
       ++ utf16 "cd ef-g") (NInt 3) None.
Proof.
  let v := eval vm_compute in
    (@rowsOf SpecRegexes.regexes
       (@lineBreak_replace SpecRegexes.regexes
          (bg41 ++ utf16 "ab" ++ [0x0D; 0x0A] ++ BG_CLOSE
           ++ ESC :: utf16 "[31m" ++ utf16 "cd ef-g")) 3 0 false) in
  assert (E : @rowsOf SpecRegexes.regexes
                (@lineBreak_replace SpecRegexes.regexes
                   (bg41 ++ utf16 "ab" ++ [0x0D; 0x0A] ++ BG_CLOSE
                    ++ ESC :: utf16 "[31m" ++ utf16 "cd ef-g")) 3 0 false
              = v) by (vm_compute; reflexivity).
  apply (@rewrap_idempotent SpecRegexes.regexes).
  - intros w [= <-] _ _ r Hr. rewrite E in Hr.
    repeat (destruct Hr as [<-|Hr];
            [repeat split;
             first [vm_compute; reflexivity
                   |exact I
                   |intros _; vm_compute; reflexivity]|]).
    destruct Hr.
  - intros w [= <-] _ _ r Hr. rewrite E in Hr.
    repeat (destruct Hr as [<-|Hr]; [vm_compute; reflexivity|]).
    destruct Hr.
Defined.
